(** * A shallow embedding of [email_client_wx.py]

    The development follows the source file top-down: the Python string and
    dictionary primitives the program relies on, the account store
    ([AccountConfig], [load_all_accounts], [save_all_accounts]), the message
    helpers ([_decode_mime_header], [_extract_plain_text_body]), and the event
    handlers of [EmailClientFrame] that talk to the IMAP and SMTP servers or
    edit the account mapping.

    Conventions.
    - A Python [str] is a list of characters; characters are code points
      below 256, so [ascii] carries them.  [bytes] is a list of [Byte.byte].
    - A Python [int] is a [Z].
    - A call that can raise returns a [result]; [Raise e] carries the exception.
    - A [dict] is an association list in insertion order, as Python iterates it.
    - Objects that the program shares by reference ([AccountConfig] instances
      held both by [self.accounts] and by [self.active_account]) live in an
      explicit heap and are named by their address. *)

From Stdlib Require Import DecimalString Decimal DecimalZ DecimalPos.
From Stdlib Require Import Ascii String Strings.Byte.
From Stdlib Require Import List ZArith Lia Bool.
From Stdlib Require Import Sorting.Sorted.
Import ListNotations.

Set Implicit Arguments.
Set Warnings "-register-all".


(* ================================================================== *)
(** * Part I: the embedding                                            *)
(* ================================================================== *)

(** ** Python values *)

Definition str := list ascii.
Definition bytes := list byte.

(** String literals of the source, as [str]. *)
Definition s (x : string) : str := list_ascii_of_string x.

Definition LF : ascii := "010"%char.
Definition CR : ascii := "013"%char.

Fixpoint str_eqb (a b : str) : bool :=
  match a, b with
  | [], [] => true
  | x :: a', y :: b' => Ascii.eqb x y && str_eqb a' b'
  | _, _ => false
  end.

(** Truthiness of a string: [if x] / [not x]. *)
Definition truthy (x : str) : bool :=
  match x with [] => false | _ => true end.

(** [c.isspace()] for a code point below 256: TAB, LF, VT, FF, CR, the four
    separators FS..US, SPACE, NEL and NBSP. *)
Definition is_space (c : ascii) : bool :=
  existsb (N.eqb (N_of_ascii c)) [9; 10; 11; 12; 13; 28; 29; 30; 31; 32; 133; 160]%N.

Fixpoint lstrip (x : str) : str :=
  match x with
  | c :: r => if is_space c then lstrip r else x
  | [] => []
  end.

Definition rstrip (x : str) : str := rev (lstrip (rev x)).

(** [x.strip()] *)
Definition strip (x : str) : str := rstrip (lstrip x).

(** [x.startswith(p)] *)
Fixpoint startswith (p x : str) : bool :=
  match p, x with
  | [], _ => true
  | a :: p', b :: x' => Ascii.eqb a b && startswith p' x'
  | _ :: _, [] => false
  end.

(** [x.endswith(p)] *)
Definition endswith (p x : str) : bool := startswith (rev p) (rev x).

(** [c in x] for a one-character string [c]. *)
Definition contains (c : ascii) (x : str) : bool := existsb (Ascii.eqb c) x.

(** [x.split(c, 1)] when [c] occurs in [x]: the text before the first [c] and
    the text after it.  [None] when [c] does not occur. *)
Fixpoint split_once (c : ascii) (x : str) : option (str * str) :=
  match x with
  | [] => None
  | a :: r =>
      if Ascii.eqb a c then Some ([], r)
      else match split_once c r with
           | Some (k, v) => Some (a :: k, v)
           | None => None
           end
  end.

(** [x.split(c)]: never empty, [""] splits to [[""]]. *)
Fixpoint py_split (c : ascii) (x : str) : list str :=
  match x with
  | [] => [[]]
  | a :: r =>
      if Ascii.eqb a c then [] :: py_split c r
      else match py_split c r with
           | h :: t => (a :: h) :: t
           | [] => [[a]]
           end
  end.

(** [x[a:-1]]: drop the first [a] characters and the last one. *)
Definition slice_from_to_last (a : nat) (x : str) : str := removelast (skipn a x).

(** [sep.join(xs)] *)
Fixpoint join (sep : str) (xs : list str) : str :=
  match xs with
  | [] => []
  | [x] => x
  | x :: r => x ++ sep ++ join sep r
  end.

(** *** Exceptions *)

Inductive exn : Type :=
| ValueError
| LookupError
| IndexError (msg : str)
| KeyError
| AttributeError (msg : str)
| TypeError
| RuntimeError (msg : str)
| IMAP4_error (msg : str)       (* imaplib.IMAP4.error and its subclasses *)
| SMTPException (msg : str)
| OSError (msg : str).

Inductive result (A : Type) : Type :=
| Ok (a : A)
| Raise (e : exn).
Arguments Ok {A} a.
Arguments Raise {A} e.

Definition rbind {A B} (m : result A) (k : A -> result B) : result B :=
  match m with Ok a => k a | Raise e => Raise e end.

Declare Scope py_scope.
Delimit Scope py_scope with py.
Notation "x <- m ;; k" := (rbind m (fun x => k))
  (at level 61, m at next level, right associativity) : py_scope.

(** *** [int(x)] and [str(n)] *)

Definition is_digit (c : ascii) : bool :=
  (48 <=? N_of_ascii c)%N && (N_of_ascii c <=? 57)%N.

(** The digit part of a decimal literal: digits, with single underscores
    allowed between two digits.  [prev] says that the previous character was
    a digit. *)
Fixpoint digits_ok (prev : bool) (x : str) : bool :=
  match x with
  | [] => prev
  | c :: r =>
      if is_digit c then digits_ok true r
      else if Ascii.eqb c "_"%char then prev && digits_ok false r
      else false
  end.

Definition drop_underscores (x : str) : str :=
  filter (fun c => negb (Ascii.eqb c "_"%char)) x.

Definition digits_value (x : str) : option Z :=
  option_map Z.of_uint (NilEmpty.uint_of_string (string_of_list_ascii x)).

(** The whitespace [int] skips around a literal: TAB, LF, VT, FF, CR, SPACE,
    NEL and NBSP.  Unlike [strip], it does not skip the separators FS..US. *)
Definition is_int_space (c : ascii) : bool :=
  existsb (N.eqb (N_of_ascii c)) [9; 10; 11; 12; 13; 32; 133; 160]%N.

Fixpoint skip_int_space (x : str) : str :=
  match x with
  | c :: r => if is_int_space c then skip_int_space r else x
  | [] => []
  end.

Definition int_trim (x : str) : str :=
  rev (skip_int_space (rev (skip_int_space x))).

(** [int(x)] for a string [x] in base 10: surrounding whitespace is skipped,
    one sign is allowed, and anything else raises [ValueError].  (The
    interpreter's limit on the number of digits is not modelled.) *)
Definition py_int (x : str) : result Z :=
  let t := int_trim x in
  let '(neg, body) :=
    match t with
    | c :: r =>
        if Ascii.eqb c "-"%char then (true, r)
        else if Ascii.eqb c "+"%char then (false, r)
        else (false, t)
    | [] => (false, t)
    end in
  if digits_ok false body then
    match digits_value (drop_underscores body) with
    | Some n => Ok (if neg then (- n)%Z else n)
    | None => Raise ValueError
    end
  else Raise ValueError.

(** [str(n)] for an [int]. *)
Definition py_str (n : Z) : str :=
  list_ascii_of_string (NilZero.string_of_int (Z.to_int n)).

(** *** Dictionaries with string keys, in insertion order *)

Definition dict (V : Type) := list (str * V).

(** [d.get(k)] *)
Fixpoint get {V} (k : str) (d : dict V) : option V :=
  match d with
  | [] => None
  | (k', v) :: r => if str_eqb k k' then Some v else get k r
  end.

(** [d[k] = v]: an existing key keeps its place. *)
Fixpoint setitem {V} (k : str) (v : V) (d : dict V) : dict V :=
  match d with
  | [] => [(k, v)]
  | (k', v') :: r =>
      if str_eqb k k' then (k', v) :: r else (k', v') :: setitem k v r
  end.

(** [k in d] *)
Definition mem {V} (k : str) (d : dict V) : bool :=
  match get k d with Some _ => true | None => false end.

(** [del d[k]]; [KeyError] when the key is absent. *)
Fixpoint remove_key {V} (k : str) (d : dict V) : dict V :=
  match d with
  | [] => []
  | (k', v) :: r => if str_eqb k k' then r else (k', v) :: remove_key k r
  end.

Definition delitem {V} (k : str) (d : dict V) : result (dict V) :=
  if mem k d then Ok (remove_key k d) else Raise KeyError.

Definition keys {V} (d : dict V) : list str := map fst d.
Definition values {V} (d : dict V) : list V := map snd d.

(* ------------------------------------------------------------------ *)
(** ** CONFIG MANAGEMENT: [AccountConfig] and the store file           *)
(* ------------------------------------------------------------------ *)

Record AccountConfig : Type := mkAccount {
  name : str;
  email : str;
  password : str;
  imap_server : str;
  imap_port : Z;
  smtp_server : str;
  smtp_port : Z
}.

(** [AccountConfig()] with the constructor's defaults. *)
Definition AccountConfig_default : AccountConfig :=
  mkAccount [] [] [] [] 993 [] 587.

(** [AccountConfig.to_dict] *)
Definition to_dict (a : AccountConfig) : dict str :=
  [ (s "name", name a);
    (s "email", email a);
    (s "password", password a);
    (s "imap_server", imap_server a);
    (s "imap_port", py_str (imap_port a));
    (s "smtp_server", smtp_server a);
    (s "smtp_port", py_str (smtp_port a)) ].

(** [d.get(k, "")] *)
Definition get_str (k : string) (d : dict str) : str :=
  match get (s k) d with Some v => v | None => [] end.

(** [int(d.get(k, default_text) or default)]: an absent key parses the
    default text, an empty value takes the integer default as it is, and any
    other value goes through [int]. *)
Definition get_port (k : string) (default_text : string) (default : Z)
    (d : dict str) : result Z :=
  let v := match get (s k) d with Some v => v | None => s default_text end in
  if truthy v then py_int v else Ok default.

(** [AccountConfig.from_dict] *)
Definition from_dict (d : dict str) : result AccountConfig :=
  (ip <- get_port "imap_port" "993" 993 d ;;
   sp <- get_port "smtp_port" "587" 587 d ;;
   Ok (mkAccount (get_str "name" d) (get_str "email" d) (get_str "password" d)
                 (get_str "imap_server" d) ip (get_str "smtp_server" d) sp))%py.

(** *** Reading the file line by line *)

(** Text mode with universal newlines: CR LF and a lone CR read as LF. *)
Fixpoint universal_newlines (x : str) : str :=
  match x with
  | [] => []
  | c :: r =>
      if Ascii.eqb c CR then
        LF :: match r with
              | c' :: r' => if Ascii.eqb c' LF then universal_newlines r'
                            else universal_newlines r
              | [] => []
              end
      else c :: universal_newlines r
  end.

(** The lines [for line in f] yields: each keeps its terminating LF. *)
Fixpoint lines_keepends (x : str) : list str :=
  match x with
  | [] => []
  | c :: r =>
      if Ascii.eqb c LF then [LF] :: lines_keepends r
      else match lines_keepends r with
           | l :: ls => (c :: l) :: ls
           | [] => [[c]]
           end
  end.

Definition file_lines (content : str) : list str :=
  lines_keepends (universal_newlines content).

(** *** [load_all_accounts] *)

(** The loop's variables: [accounts], [current], [current_name]. *)
Record load_state : Type := mkLoad {
  accounts_of : dict AccountConfig;
  current : dict str;
  current_name : option str
}.

Definition header_prefix : str := s "[account ".

(** [line.startswith("[account ") and line.endswith("]")] *)
Definition is_header (line : str) : bool :=
  startswith header_prefix line && endswith (s "]") line.

(** [if current_name and current: accounts[current_name] = from_dict(current)] *)
Definition flush (st : load_state) : result (dict AccountConfig) :=
  match current_name st with
  | Some n =>
      if truthy n && (match current st with [] => false | _ => true end) then
        (a <- from_dict (current st) ;; Ok (setitem n a (accounts_of st)))%py
      else Ok (accounts_of st)
  | None => Ok (accounts_of st)
  end.

(** One turn of [for line in f]. *)
Definition load_line (raw : str) (st : load_state) : result load_state :=
  let line := strip raw in
  if negb (truthy line) then Ok st
  else if is_header line then
    (accs <- flush st ;;
     let n := slice_from_to_last (length header_prefix) line in
     Ok (mkLoad accs (setitem (s "name") n []) (Some n)))%py
  else if contains "="%char line then
    match split_once "="%char line with
    | Some (key, value) =>
        Ok (mkLoad (accounts_of st)
                   (setitem (strip key) (strip value) (current st))
                   (current_name st))
    | None => Ok st
    end
  else Ok st.

Fixpoint load_lines (ls : list str) (st : load_state) : result load_state :=
  match ls with
  | [] => Ok st
  | l :: r => (st' <- load_line l st ;; load_lines r st')%py
  end.

Definition load_init : load_state := mkLoad [] [] None.

(** The loop over the lines, and the block that is still open when the loop
    ends. *)
Definition load_from_lines (ls : list str) : result (dict AccountConfig) :=
  (st <- load_lines ls load_init ;; flush st)%py.

(** [load_all_accounts()]; the argument is the content of [accounts.txt], or
    [None] when the file does not exist. *)
Definition load_all_accounts (file : option str) : result (dict AccountConfig) :=
  match file with
  | None => Ok []
  | Some content => load_from_lines (file_lines content)
  end.

(** *** [save_all_accounts] *)

(** The lines written for one account: the header, one [key=value] line per
    entry of [to_dict] other than [name], and an empty line. *)
Definition save_account (a : AccountConfig) : str :=
  s "[account " ++ name a ++ s "]" ++ [LF]
  ++ concat (map (fun kv : str * str =>
                    if str_eqb (fst kv) (s "name") then []
                    else fst kv ++ s "=" ++ snd kv ++ [LF])
                 (to_dict a))
  ++ [LF].

(** [save_all_accounts(accounts)]: the new content of [accounts.txt]. *)
Definition save_all_accounts (accounts : dict AccountConfig) : str :=
  concat (map save_account (values accounts)).

(* ------------------------------------------------------------------ *)
(** ** EMAIL HELPERS                                                   *)
(* ------------------------------------------------------------------ *)

(** A parsed [email.message.Message], as far as the program inspects it: the
    header fields, the declared content type ([get_content_type()]), the
    charset parameter ([get_content_charset()]), and either the decoded
    payload of a single part ([get_payload(decode=True)]) or the sub-parts of
    a multi-part container. *)
Inductive message : Type :=
| Leaf (headers : list (str * str)) (content_type : str)
       (content_charset : option str) (payload : option bytes)
| Multi (headers : list (str * str)) (content_type : str)
        (content_charset : option str) (parts : list message).

Definition headers_of (m : message) : list (str * str) :=
  match m with Leaf h _ _ _ => h | Multi h _ _ _ => h end.

(** [c.lower()], on the code points modelled: the letters [A]-[Z] and the
    capital letters of Latin-1. *)
Definition lower_char (c : ascii) : ascii :=
  let n := N_of_ascii c in
  if ((65 <=? n) && (n <=? 90)
      || (192 <=? n) && (n <=? 222) && negb (n =? 215))%N
  then ascii_of_N (n + 32) else c.

Definition lower (x : str) : str := map lower_char x.

(** The first header whose name, in lower case, is [name]. *)
Fixpoint first_header (name : str) (h : list (str * str)) : option str :=
  match h with
  | [] => None
  | (k, v) :: r => if str_eqb (lower k) name then Some v else first_header name r
  end.

(** [msg.get(field)]: header names match without regard to case. *)
Definition msg_get (field : string) (m : message) : option str :=
  first_header (lower (s field)) (headers_of m).

Definition is_multipart (m : message) : bool :=
  match m with Leaf _ _ _ _ => false | Multi _ _ _ _ => true end.

Definition get_content_type (m : message) : str :=
  match m with Leaf _ t _ _ => t | Multi _ t _ _ => t end.

Definition get_content_charset (m : message) : option str :=
  match m with Leaf _ _ c _ => c | Multi _ _ c _ => c end.

(** [part.get_payload(decode=True)]: [None] for a multi-part container. *)
Definition get_payload_decoded (m : message) : option bytes :=
  match m with Leaf _ _ _ p => p | Multi _ _ _ _ => None end.

(** [msg.walk()]: the message itself, then its sub-parts, depth first. *)
Fixpoint walk (m : message) : list message :=
  match m with
  | Leaf _ _ _ _ => [m]
  | Multi _ _ _ ps => m :: flat_map walk ps
  end.

(** One fragment of [decode_header]'s result: bytes to decode, or text. *)
Inductive fragment : Type :=
| FBytes (b : bytes)
| FStr (x : str).

(** The functions of Python's library that the helpers call.
    [bytes_decode charset b] is [b.decode(charset, errors="replace")], which
    raises [LookupError] for an unknown charset, unless [b] is empty: the
    interpreter returns the empty string for empty bytes before it looks the
    codec up. *)
Record email_lib : Type := mkLib {
  bytes_decode : str -> bytes -> result str;
  decode_header : str -> result (list (fragment * option str));
  message_from_bytes : bytes -> message
}.

(** [x or "utf-8"] for an optional string. *)
Definition or_utf8 (x : option str) : str :=
  match x with
  | Some c => if truthy c then c else s "utf-8"
  | None => s "utf-8"
  end.

Definition decode_fragment (lib : email_lib) (f : fragment * option str) : result str :=
  match fst f with
  | FBytes b =>
      match bytes_decode lib (or_utf8 (snd f)) b with
      | Ok x => Ok x
      | Raise _ => bytes_decode lib (s "utf-8") b
      end
  | FStr x => Ok x
  end.

Fixpoint decode_fragments (lib : email_lib) (fs : list (fragment * option str))
  : result (list str) :=
  match fs with
  | [] => Ok []
  | f :: r =>
      (x <- decode_fragment lib f ;;
       xs <- decode_fragments lib r ;;
       Ok (x :: xs))%py
  end.

Definition _decode_mime_header (lib : email_lib) (value : option str) : str :=
  match value with
  | None => []
  | Some v =>
      if negb (truthy v) then []
      else match (fs <- decode_header lib v ;;
                  parts <- decode_fragments lib fs ;;
                  Ok (concat parts))%py with
           | Ok x => x
           | Raise _ => v
           end
  end.

(** [payload = part.get_payload(decode=True) or b""],
    [charset = part.get_content_charset() or "utf-8"],
    [payload.decode(charset, errors="replace")]. *)
Definition decode_part (lib : email_lib) (part : message) : result str :=
  let payload := match get_payload_decoded part with Some b => b | None => [] end in
  bytes_decode lib (or_utf8 (get_content_charset part)) payload.

(** The first loop of [_extract_plain_text_body]: [Some r] when an iteration
    returns [r] (or raises), [None] when the loop runs to its end. *)
Fixpoint prefer_text_plain (lib : email_lib) (ps : list message) : option (result str) :=
  match ps with
  | [] => None
  | part :: r =>
      if str_eqb (get_content_type part) (s "text/plain")
      then Some (decode_part lib part)
      else prefer_text_plain lib r
  end.

(** The second loop: its body returns in the first iteration. *)
Definition fallback_first (lib : email_lib) (ps : list message) : option (result str) :=
  match ps with
  | [] => None
  | part :: _ => Some (decode_part lib part)
  end.

Definition could_not_decode : str := s "(Could not decode message body.)".

(** [_extract_plain_text_body]; the result is [None] where the Python
    function would fall off its end. *)
Definition _extract_plain_text_body (lib : email_lib) (msg : message) : option str :=
  let body : option (result str) :=
    if is_multipart msg then
      match prefer_text_plain lib (walk msg) with
      | Some r => Some r
      | None => fallback_first lib (walk msg)
      end
    else Some (decode_part lib msg) in
  match body with
  | Some (Ok x) => Some x
  | Some (Raise _) => Some could_not_decode
  | None => None
  end.

(* ------------------------------------------------------------------ *)
(** ** MAIN APPLICATION FRAME: the state the handlers work on          *)
(* ------------------------------------------------------------------ *)

(** An entry of [self.messages]. *)
Record entry : Type := mkEntry {
  entry_id : bytes;
  entry_subject : str;
  entry_from : str;
  entry_to : str;
  entry_body : option str
}.

(** Calls made on the network objects, in the order they are made.  A call is
    recorded whether it returns or raises. *)
Inductive call : Type :=
| IMAP4_SSL (host : str) (port : Z)
| IMAP4 (host : str) (port : Z)
| imap_starttls
| imap_login (user pass : str)
| imap_select (mailbox : str)
| imap_search
| imap_fetch (msg_id : bytes)
| imap_close
| imap_logout
| SMTP_SSL (host : str) (port : Z)
| SMTP (host : str) (port : Z)
| smtp_starttls
| smtp_login (user pass : str)
| smtp_sendmail (from_addr : str) (to_addrs : list str) (msg : str)
| smtp_quit.

(** [wx.MessageBox(text, title, ...)].  The arrow and the ellipsis of the
    source's texts lie outside the code points modelled and are spelled
    [->] and [...]. *)
Record box : Type := mkBox { box_text : str; box_title : str }.

(** The frame ([self]) with what surrounds it: the objects it shares by
    reference, the widgets it writes to, the store file, and the record of
    network calls and message boxes. *)
Record world : Type := mkWorld {
  heap : list AccountConfig;          (* AccountConfig objects, by address *)
  accounts : dict nat;                (* self.accounts: name -> object *)
  active_account : option nat;        (* self.active_account *)
  messages : list entry;              (* self.messages *)
  email_list : list str;              (* rows of self.email_list *)
  lbl_from_value : str;
  lbl_to_value : str;
  lbl_subject_value : str;
  body_text : str;
  file : option str;                  (* accounts.txt *)
  net_log : list call;
  boxes : list box
}.

Definition set_heap h (w : world) : world :=
  mkWorld h (accounts w) (active_account w) (messages w) (email_list w)
          (lbl_from_value w) (lbl_to_value w) (lbl_subject_value w)
          (body_text w) (file w) (net_log w) (boxes w).
Definition set_accounts a (w : world) : world :=
  mkWorld (heap w) a (active_account w) (messages w) (email_list w)
          (lbl_from_value w) (lbl_to_value w) (lbl_subject_value w)
          (body_text w) (file w) (net_log w) (boxes w).
Definition set_active_account a (w : world) : world :=
  mkWorld (heap w) (accounts w) a (messages w) (email_list w)
          (lbl_from_value w) (lbl_to_value w) (lbl_subject_value w)
          (body_text w) (file w) (net_log w) (boxes w).
Definition set_messages m (w : world) : world :=
  mkWorld (heap w) (accounts w) (active_account w) m (email_list w)
          (lbl_from_value w) (lbl_to_value w) (lbl_subject_value w)
          (body_text w) (file w) (net_log w) (boxes w).
Definition set_email_list l (w : world) : world :=
  mkWorld (heap w) (accounts w) (active_account w) (messages w) l
          (lbl_from_value w) (lbl_to_value w) (lbl_subject_value w)
          (body_text w) (file w) (net_log w) (boxes w).
Definition set_labels f t sj (w : world) : world :=
  mkWorld (heap w) (accounts w) (active_account w) (messages w) (email_list w)
          f t sj (body_text w) (file w) (net_log w) (boxes w).
Definition set_body_text b (w : world) : world :=
  mkWorld (heap w) (accounts w) (active_account w) (messages w) (email_list w)
          (lbl_from_value w) (lbl_to_value w) (lbl_subject_value w)
          b (file w) (net_log w) (boxes w).
Definition set_file f (w : world) : world :=
  mkWorld (heap w) (accounts w) (active_account w) (messages w) (email_list w)
          (lbl_from_value w) (lbl_to_value w) (lbl_subject_value w)
          (body_text w) f (net_log w) (boxes w).
Definition log_call c (w : world) : world :=
  mkWorld (heap w) (accounts w) (active_account w) (messages w) (email_list w)
          (lbl_from_value w) (lbl_to_value w) (lbl_subject_value w)
          (body_text w) (file w) (net_log w ++ [c]) (boxes w).
Definition add_box b (w : world) : world :=
  mkWorld (heap w) (accounts w) (active_account w) (messages w) (email_list w)
          (lbl_from_value w) (lbl_to_value w) (lbl_subject_value w)
          (body_text w) (file w) (net_log w) (boxes w ++ [b]).

(** The object at an address. *)
Definition deref (h : list AccountConfig) (a : nat) : AccountConfig :=
  nth a h AccountConfig_default.

(** Assignment to the fields of the object at an address. *)
Fixpoint store (a : nat) (v : AccountConfig) (h : list AccountConfig)
  : list AccountConfig :=
  match h, a with
  | [], _ => []
  | _ :: r, O => v :: r
  | x :: r, S a' => x :: store a' v r
  end.

(** The mapping as [save_all_accounts] sees it: each name with the object it
    refers to. *)
Definition resolve (h : list AccountConfig) (d : dict nat) : dict AccountConfig :=
  map (fun kv => (fst kv, deref h (snd kv))) d.

(** *** Handlers: state and exceptions *)

Definition M (A : Type) : Type := world -> result A * world.

Definition ret {A} (a : A) : M A := fun w => (Ok a, w).
Definition raise {A} (e : exn) : M A := fun w => (Raise e, w).
Definition bind {A B} (m : M A) (k : A -> M B) : M B :=
  fun w => match m w with
           | (Ok a, w') => k a w'
           | (Raise e, w') => (Raise e, w')
           end.
Definition modify (f : world -> world) : M unit := fun w => (Ok tt, f w).
Definition read {A} (f : world -> A) : M A := fun w => (Ok (f w), w).
Definition lift {A} (r : result A) : M A := fun w => (r, w).

(** [try: m except Exception as e: h e] *)
Definition try_except {A} (m : M A) (h : exn -> M A) : M A :=
  fun w => match m w with
           | (Ok a, w') => (Ok a, w')
           | (Raise e, w') => h e w'
           end.

Declare Scope handler_scope.
Delimit Scope handler_scope with M.
Notation "x <- m ;; k" := (bind m (fun x => k))
  (at level 61, m at next level, right associativity) : handler_scope.
Notation "m ;; k" := (bind m (fun _ => k))
  (at level 61, right associativity) : handler_scope.

(** A network call: recorded, then answered by the server. *)
Definition do_call {A} (c : call) (answer : result A) : M A :=
  (modify (log_call c) ;; lift answer)%M.

Definition MessageBox (text title : str) : M unit :=
  modify (add_box (mkBox text title)).

(** The text an exception formats to in a message box: its message.  The
    exceptions the program itself can raise on the way to a box
    ([IndexError], [AttributeError]) carry the interpreter's message; for
    [ValueError], [LookupError], [KeyError] and [TypeError], which reach a
    box only as a server's answer, the class name stands for the text. *)
Definition exn_text (e : exn) : str :=
  match e with
  | RuntimeError m | IMAP4_error m | SMTPException m | OSError m
  | IndexError m | AttributeError m => m
  | ValueError => s "ValueError"
  | LookupError => s "LookupError"
  | KeyError => s "KeyError"
  | TypeError => s "TypeError"
  end.

(** [self.messages.clear()], [self.email_list.DeleteAllItems()] *)
Definition clear_messages : M unit :=
  (modify (set_messages []) ;; modify (set_email_list []))%M.

Definition reset_labels : M unit :=
  modify (set_labels (s "(select email)") (s "-") (s "-")).

(* ------------------------------------------------------------------ *)
(** ** IMAP FETCH: [on_refresh]                                        *)
(* ------------------------------------------------------------------ *)

(** One element of the data list an [imaplib] command returns: [None], bare
    bytes, or a pair of the response line and its literal. *)
Inductive item : Type :=
| ItemNone
| ItemBytes (b : bytes)
| ItemPair (line literal : bytes).

(** What the server on the other end answers to each call of [imaplib]; a
    [Raise] is the exception the call throws. *)
Record ImapServer : Type := mkImap {
  answer_connect : bool -> str -> Z -> result unit;   (* [true]: IMAP4_SSL *)
  answer_starttls : result unit;
  answer_login : str -> str -> result unit;
  answer_select : str -> result str;
  answer_search : result (str * list (option bytes));
  answer_fetch : bytes -> result (str * list item);
  answer_close : result unit;
  answer_logout : result unit
}.

Definition is_space_byte (b : byte) : bool :=
  match b with
  | x09 | x0a | x0b | x0c | x0d | x20 => true
  | _ => false
  end.

(** [b.split()] on bytes: the maximal runs of non-whitespace.  [tok] is the
    run being read, last byte first. *)
Fixpoint split_ws (tok : bytes) (x : bytes) : list bytes :=
  match x with
  | [] => match tok with [] => [] | _ => [rev tok] end
  | b :: r =>
      if is_space_byte b then
        match tok with
        | [] => split_ws [] r
        | _ => rev tok :: split_ws [] r
        end
      else split_ws (b :: tok) r
  end.

Definition bytes_split (x : bytes) : list bytes := split_ws [] x.

(** [ids[-n:]] *)
Definition last_n {A} (n : nat) (l : list A) : list A :=
  skipn (length l - n) l.

(** The interpreter's messages for the failures below. *)
Definition list_index_text : str := s "list index out of range".
Definition bytes_index_text : str := s "index out of range".
Definition none_split_text : str := s "'NoneType' object has no attribute 'split'".
Definition int_decode_text : str := s "'int' object has no attribute 'decode'".

(** [data[0].split()] *)
Definition search_ids (data : list (option bytes)) : result (list bytes) :=
  match data with
  | [] => Raise (IndexError list_index_text)
  | None :: _ => Raise (AttributeError none_split_text)
  | Some b :: _ => Ok (bytes_split b)
  end.

Definition OK : str := s "OK".

(** [status != "OK" or not msg_data or msg_data[0] is None] *)
Definition skip_response (status : str) (msg_data : list item) : bool :=
  negb (str_eqb status OK)
  || match msg_data with
     | [] => true
     | ItemNone :: _ => true
     | _ => false
     end.

(** [email.message_from_bytes(msg_data[0][1])]: indexing a pair gives its
    literal; indexing bare bytes gives an [int] (or [IndexError]), which the
    parser cannot decode. *)
Definition parse_first (lib : email_lib) (msg_data : list item) : result message :=
  match msg_data with
  | ItemPair _ raw :: _ => Ok (message_from_bytes lib raw)
  | ItemBytes b :: _ =>
      match b with
      | _ :: _ :: _ => Raise (AttributeError int_decode_text)
      | _ => Raise (IndexError bytes_index_text)
      end
  | ItemNone :: _ => Raise TypeError
  | [] => Raise (IndexError list_index_text)
  end.

Definition or_else (x dflt : str) : str := if truthy x then x else dflt.

(** The body of [for msg_id in reversed(latest_ids)]. *)
Definition fetch_one (lib : email_lib) (srv : ImapServer) (msg_id : bytes) : M unit :=
  (r <- do_call (imap_fetch msg_id) (answer_fetch srv msg_id) ;;
   if skip_response (fst r) (snd r) then ret tt
   else
     msg <- lift (parse_first lib (snd r)) ;;
     let subj := or_else (_decode_mime_header lib (msg_get "Subject" msg)) (s "(no subject)") in
     let from_ := or_else (_decode_mime_header lib (msg_get "From" msg)) [] in
     let to_ := or_else (_decode_mime_header lib (msg_get "To" msg)) [] in
     let body := _extract_plain_text_body lib msg in
     modify (fun w => set_messages (messages w ++ [mkEntry msg_id subj from_ to_ body]) w) ;;
     modify (fun w => set_email_list (email_list w ++ [subj]) w))%M.

Fixpoint fetch_all (lib : email_lib) (srv : ImapServer) (ids : list bytes) : M unit :=
  match ids with
  | [] => ret tt
  | msg_id :: r => (fetch_one lib srv msg_id ;; fetch_all lib srv r)%M
  end.

(** The [try] block of [on_refresh]. *)
Definition refresh_body (lib : email_lib) (srv : ImapServer) (acc : AccountConfig) : M unit :=
  (modify (set_body_text (s "Loading emails from server..." ++ [LF])) ;;
   (if (imap_port acc =? 993)%Z then
      do_call (IMAP4_SSL (imap_server acc) (imap_port acc))
              (answer_connect srv true (imap_server acc) (imap_port acc))
    else
      do_call (IMAP4 (imap_server acc) (imap_port acc))
              (answer_connect srv false (imap_server acc) (imap_port acc)) ;;
      try_except (do_call imap_starttls (answer_starttls srv)) (fun _ => ret tt)) ;;
   do_call (imap_login (email acc) (password acc))
           (answer_login srv (email acc) (password acc)) ;;
   status <- do_call (imap_select (s "INBOX")) (answer_select srv (s "INBOX")) ;;
   (if negb (str_eqb status OK) then raise (RuntimeError (s "Could not open INBOX"))
    else ret tt) ;;
   sd <- do_call imap_search (answer_search srv) ;;
   (if negb (str_eqb (fst sd) OK) then raise (RuntimeError (s "Search failed"))
    else ret tt) ;;
   ids <- lift (search_ids (snd sd)) ;;
   match ids with
   | [] =>
       clear_messages ;;
       modify (set_body_text (s "INBOX is empty.")) ;;
       do_call imap_close (answer_close srv) ;;
       do_call imap_logout (answer_logout srv)
   | _ =>
       let latest_ids := last_n 20 ids in
       clear_messages ;;
       fetch_all lib srv (rev latest_ids) ;;
       modify (set_body_text (s "Emails loaded. Select one on the left.")) ;;
       do_call imap_close (answer_close srv) ;;
       do_call imap_logout (answer_logout srv)
   end)%M.

Definition on_refresh (lib : email_lib) (srv : ImapServer) : M unit :=
  (active <- read active_account ;;
   match active with
   | None =>
       MessageBox (s "No active account. Add one from File -> Add Account...") (s "Refresh")
   | Some addr =>
       acc <- read (fun w => deref (heap w) addr) ;;
       try_except (refresh_body lib srv acc)
         (fun e =>
            match e with
            | IMAP4_error _ =>
                MessageBox (s "IMAP error:" ++ [LF] ++ exn_text e) (s "IMAP Error")
            | _ =>
                MessageBox (s "Error while fetching emails:" ++ [LF] ++ exn_text e) (s "Error")
            end)
   end)%M.

(* ------------------------------------------------------------------ *)
(** ** SMTP SEND: [on_compose]                                         *)
(* ------------------------------------------------------------------ *)

Record SmtpServer : Type := mkSmtp {
  reply_connect : bool -> str -> Z -> result unit;    (* [true]: SMTP_SSL *)
  reply_starttls : result unit;
  reply_login : str -> str -> result unit;
  reply_sendmail : str -> list str -> str -> result unit;
  reply_quit : result unit
}.

(** How the user leaves [ComposeDialog]: Cancel, or Send with the content of
    the To, Subject and body fields. *)
Inductive compose_input : Type :=
| ComposeCancel
| ComposeSend (to subject body : str).

(** [[a.strip() for a in to_addr.split(",") if a.strip()]] *)
Definition recipients_of (to_addr : str) : list str :=
  map strip (filter (fun a => truthy (strip a)) (py_split ","%char to_addr)).

Definition CRLF : str := [CR; LF].

(** The [try] block of [on_compose]. *)
Definition send_body (srv : SmtpServer) (acc : AccountConfig)
    (recipients : list str) (subject body : str) : M unit :=
  (let msg_lines :=
     [ s "From: " ++ email acc;
       s "To: " ++ join (s ", ") recipients;
       s "Subject: " ++ subject;
       [];
       body ] in
   let msg_str := join CRLF msg_lines in
   (if (smtp_port acc =? 465)%Z then
      do_call (SMTP_SSL (smtp_server acc) (smtp_port acc))
              (reply_connect srv true (smtp_server acc) (smtp_port acc))
    else
      do_call (SMTP (smtp_server acc) (smtp_port acc))
              (reply_connect srv false (smtp_server acc) (smtp_port acc)) ;;
      try_except (do_call smtp_starttls (reply_starttls srv)) (fun _ => ret tt)) ;;
   do_call (smtp_login (email acc) (password acc))
           (reply_login srv (email acc) (password acc)) ;;
   do_call (smtp_sendmail (email acc) recipients msg_str)
           (reply_sendmail srv (email acc) recipients msg_str) ;;
   do_call smtp_quit (reply_quit srv) ;;
   MessageBox (s "Email sent successfully.") (s "Compose"))%M.

Definition on_compose (srv : SmtpServer) (dlg : compose_input) : M unit :=
  (active <- read active_account ;;
   match active with
   | None =>
       MessageBox (s "No active account. Add one from File -> Add Account...") (s "Compose")
   | Some addr =>
       acc <- read (fun w => deref (heap w) addr) ;;
       match dlg with
       | ComposeCancel => ret tt
       | ComposeSend to subject body =>
           let to_addr := strip to in      (* ComposeDialog.get_values *)
           if negb (truthy to_addr) then
             MessageBox (s "Please enter at least one recipient.") (s "Error")
           else
             let recipients := recipients_of to_addr in
             match recipients with
             | [] => MessageBox (s "No valid recipients found.") (s "Error")
             | _ =>
                 try_except (send_body srv acc recipients subject body)
                   (fun e => MessageBox (s "SMTP error:" ++ [LF] ++ exn_text e) (s "SMTP Error"))
             end
       end
   end)%M.

(* ------------------------------------------------------------------ *)
(** ** ACCOUNT OPERATIONS                                              *)
(* ------------------------------------------------------------------ *)

(** The text fields of [SettingsDialog] when the user presses Save. *)
Record form : Type := mkForm {
  txt_name : str;
  txt_email : str;
  txt_password : str;
  txt_imap_server : str;
  txt_imap_port : str;
  txt_smtp_server : str;
  txt_smtp_port : str
}.

(** What the user does in the dialog, one step after the other. *)
Inductive dialog_step : Type :=
| ClickSave (f : form)
| ClickCancel.

(** [int(a); int(b)] inside [try ... except ValueError]. *)
Definition parse_ports (f : form) : result (Z * Z) :=
  (ip <- py_int (strip (txt_imap_port f)) ;;
   sp <- py_int (strip (txt_smtp_port f)) ;;
   Ok (ip, sp))%py.

(** [SettingsDialog.on_save] on the account object at [addr]: [true] when the
    dialog ends with [wx.ID_OK], [false] when it stays open. *)
Definition on_save (addr : nat) (f : form) : M bool :=
  (let name' := strip (txt_name f) in
   if negb (truthy name') then
     MessageBox (s "Account name cannot be empty.") (s "Error") ;; ret false
   else
     let email_addr := strip (txt_email f) in
     if negb (truthy email_addr) then
       MessageBox (s "Email cannot be empty.") (s "Error") ;; ret false
     else
       match parse_ports f with
       | Raise _ =>
           MessageBox (s "IMAP and SMTP ports must be integers.") (s "Error") ;; ret false
       | Ok (ip, sp) =>
           modify (fun w =>
                     set_heap (store addr
                                 (mkAccount name' email_addr (txt_password f)
                                            (strip (txt_imap_server f)) ip
                                            (strip (txt_smtp_server f)) sp)
                                 (heap w)) w) ;;
           ret true
       end)%M.

(** [dlg.ShowModal() == wx.ID_OK] for a [SettingsDialog]: the dialog stays
    open until a Save passes validation or the user cancels. *)
Fixpoint ShowModal (addr : nat) (steps : list dialog_step) : M bool :=
  match steps with
  | [] => ret false
  | ClickCancel :: _ => ret false
  | ClickSave f :: r =>
      (saved <- on_save addr f ;;
       if saved then ret true else ShowModal addr r)%M
  end.

(** [save_all_accounts(self.accounts)] *)
Definition persist : M unit :=
  modify (fun w => set_file (Some (save_all_accounts (resolve (heap w) (accounts w)))) w).

(** [self.active_account.name = n] *)
Definition set_name (addr : nat) (n : str) : M unit :=
  modify (fun w =>
            let a := deref (heap w) addr in
            set_heap (store addr
                        (mkAccount n (email a) (password a) (imap_server a)
                                   (imap_port a) (smtp_server a) (smtp_port a))
                        (heap w)) w).

(** [new_name in self.accounts and self.accounts[new_name] is not self.active_account] *)
Definition taken_by_other (new_name : str) (addr : nat) (d : dict nat) : bool :=
  match get new_name d with
  | Some other => negb (Nat.eqb other addr)
  | None => false
  end.

Definition on_edit_active_account (steps : list dialog_step) : M unit :=
  (active <- read active_account ;;
   match active with
   | None => MessageBox (s "No active account to edit.") (s "Edit Account")
   | Some addr =>
       old_name <- read (fun w => name (deref (heap w) addr)) ;;
       saved <- ShowModal addr steps ;;
       if saved then
         edited <- read (fun w => name (deref (heap w) addr)) ;;
         let new_name := or_else edited old_name in
         (if negb (str_eqb new_name old_name) then
            d <- read accounts ;;
            if taken_by_other new_name addr d then
              MessageBox (s "Another account already uses that name. Keeping old name.")
                         (s "Error") ;;
              set_name addr old_name
            else
              d' <- lift (delitem old_name d) ;;
              modify (set_accounts (setitem new_name addr d'))
          else ret tt) ;;
         persist
       else ret tt
   end)%M.

(** [on_delete_account]; [choice] is the name picked in the selection dialog,
    or [None] when the dialog is cancelled. *)
Definition on_delete_account (choice : option str) : M unit :=
  (d <- read accounts ;;
   match d with
   | [] => MessageBox (s "No accounts to delete.") (s "Delete Account")
   | _ =>
       match choice with
       | None => ret tt
       | Some selected =>
           if mem selected d then
             active <- read active_account ;;
             h <- read heap ;;
             (match active with
              | Some addr =>
                  if str_eqb (name (deref h addr)) selected then
                    modify (set_active_account None) ;;
                    clear_messages ;;
                    reset_labels ;;
                    modify (set_body_text
                              (s "Active account deleted. Add or switch to another account."))
                  else ret tt
              | None => ret tt
              end) ;;
             d' <- lift (delitem selected d) ;;
             modify (set_accounts d') ;;
             persist
           else ret tt
       end
   end)%M.

(* ------------------------------------------------------------------ *)
(** ** The rest of the frame: start-up, menu, adding, switching,       *)
(** ** selecting, and the dispatch of events                           *)
(* ------------------------------------------------------------------ *)

(** [a <= b] on strings: by code point, a proper prefix first. *)
Fixpoint str_leb (a b : str) : bool :=
  match a, b with
  | [], _ => true
  | _ :: _, [] => false
  | x :: a', y :: b' =>
      if (N_of_ascii x <? N_of_ascii y)%N then true
      else if (N_of_ascii y <? N_of_ascii x)%N then false
      else str_leb a' b'
  end.

Fixpoint insert_sorted (x : str) (l : list str) : list str :=
  match l with
  | [] => [x]
  | y :: r => if str_leb x y then x :: l else y :: insert_sorted x r
  end.

(** [sorted(names)] *)
Definition sorted (l : list str) : list str := fold_right insert_sorted [] l.

(** The objects [load_all_accounts] created, one per entry of the mapping it
    returned, and the mapping from each name to its object. *)
Definition loaded_heap (m : dict AccountConfig) : list AccountConfig := values m.
Definition loaded_accounts (m : dict AccountConfig) : dict nat :=
  combine (keys m) (seq 0 (length m)).

(** The text [_create_layout] puts into the body viewer. *)
Definition start_msg (active : option nat) : str :=
  match active with
  | Some _ => s "Use Refresh to load emails for the active account."
  | None => s "Add an account from File -> Add Account..."
  end.

(** [EmailClientFrame.__init__]: the frame after start-up, given the store
    file.  The first name of [sorted(self.accounts.keys())] becomes active. *)
Definition EmailClientFrame_init (file : option str) : result world :=
  (m <- load_all_accounts file ;;
   let d := loaded_accounts m in
   active <- match d with
             | [] => Ok None
             | _ =>
                 match sorted (keys d) with
                 | [] => Raise (IndexError list_index_text)
                 | first_name :: _ =>
                     match get first_name d with
                     | Some a => Ok (Some a)
                     | None => Raise KeyError
                     end
                 end
             end ;;
   Ok (mkWorld (loaded_heap m) d active [] [] (s "(select email)") (s "-") (s "-")
               (start_msg active) file [] []))%py.

(** An item of the Switch Account submenu; clicking an enabled item calls
    [on_switch_account] with its label. *)
Record menu_item : Type := mkItem { item_label : str; item_enabled : bool }.

(** [_rebuild_switch_account_menu]: the items of the fresh submenu. *)
Definition _rebuild_switch_account_menu (d : dict nat) : list menu_item :=
  match d with
  | [] => [mkItem (s "(no accounts)") false]
  | _ => map (fun n => mkItem n true) (sorted (keys d))
  end.

(** [AccountConfig()]: a new object, at a new address. *)
Definition new_account : M nat :=
  fun w => (Ok (length (heap w)), set_heap (heap w ++ [AccountConfig_default]) w).

Definition on_add_account (steps : list dialog_step) : M unit :=
  (new_acc <- new_account ;;
   saved <- ShowModal new_acc steps ;;
   if saved then
     n <- read (fun w => name (deref (heap w) new_acc)) ;;
     d <- read accounts ;;
     if negb (truthy n) then
       MessageBox (s "Account name cannot be empty.") (s "Error")
     else if mem n d then
       MessageBox (s "An account with this name already exists.") (s "Error")
     else
       modify (set_accounts (setitem n new_acc d)) ;;
       persist ;;
       active <- read active_account ;;
       match active with
       | None =>
           modify (set_active_account (Some new_acc)) ;;
           modify (set_body_text (s "New account added. Use Refresh to load emails."))
       | Some _ => ret tt
       end
   else ret tt)%M.

Definition on_switch_account (account_name : str) : M unit :=
  (d <- read accounts ;;
   match get account_name d with
   | None => MessageBox (s "Account not found.") (s "Switch Account")
   | Some a =>
       modify (set_active_account (Some a)) ;;
       clear_messages ;;
       reset_labels ;;
       modify (set_body_text
                 (s "Switched to account '" ++ account_name
                  ++ s "'. Click Refresh to load emails."))
   end)%M.

(** [on_select_email]; [idx] is [event.GetIndex()]. *)
Definition on_select_email (idx : Z) : M unit :=
  (msgs <- read messages ;;
   if (idx <? 0)%Z || (Z.of_nat (length msgs) <=? idx)%Z then ret tt
   else
     match nth_error msgs (Z.to_nat idx) with
     | None => raise (IndexError list_index_text)
     | Some msg =>
         modify (set_labels (entry_from msg) (entry_to msg) (entry_subject msg)) ;;
         match entry_body msg with
         | Some b => modify (set_body_text b)
         | None => raise TypeError
         end
     end)%M.

(** What the user can do, with what the outside answers: the steps taken in
    a dialog, the server behind a refresh or a send. *)
Inductive event : Type :=
| AddAccount (steps : list dialog_step)
| SwitchAccount (account_name : str)
| DeleteAccount (choice : option str)
| EditActiveAccount (steps : list dialog_step)
| Refresh (srv : ImapServer)
| SelectEmail (idx : Z)
| Compose (srv : SmtpServer) (dlg : compose_input).

(** The handler bound to each event by [_create_menu] and [_create_layout]. *)
Definition handle (lib : email_lib) (e : event) : M unit :=
  match e with
  | AddAccount steps => on_add_account steps
  | SwitchAccount n => on_switch_account n
  | DeleteAccount choice => on_delete_account choice
  | EditActiveAccount steps => on_edit_active_account steps
  | Refresh srv => on_refresh lib srv
  | SelectEmail idx => on_select_email idx
  | Compose srv dlg => on_compose srv dlg
  end.

(** The main loop: events are handled one after the other; an exception that
    leaves a handler is reported by the toolkit and the loop goes on. *)
Fixpoint main_loop (lib : email_lib) (es : list event) (w : world) : world :=
  match es with
  | [] => w
  | e :: r => main_loop lib r (snd (handle lib e w))
  end.

(* ================================================================== *)
(** * Part II: properties                                              *)
(* ================================================================== *)

(** ** Strings *)

Section Strings.

Lemma str_eqb_refl (a : str) : str_eqb a a = true.
Proof.
  induction a as [|c a IH]; simpl; [reflexivity|].
  now rewrite Ascii.eqb_refl, IH.
Qed.

Lemma str_eqb_eq (a b : str) : str_eqb a b = true <-> a = b.
Proof.
  split.
  - revert b; induction a as [|x a IH]; intros [|y b] H; simpl in H;
      try discriminate; [reflexivity|].
    apply andb_true_iff in H as [Hx Hr].
    apply Ascii.eqb_eq in Hx. f_equal; auto.
  - intros ->. apply str_eqb_refl.
Qed.

Lemma str_eqb_neq (a b : str) : str_eqb a b = false <-> a <> b.
Proof.
  split.
  - intros H E. apply str_eqb_eq in E. congruence.
  - intros H. destruct (str_eqb a b) eqn:E; [|reflexivity].
    apply str_eqb_eq in E. contradiction.
Qed.

Lemma truthy_nonempty (x : str) : truthy x = true <-> x <> [].
Proof. destruct x; simpl; split; congruence. Qed.

(** *** [lstrip], [rstrip], [strip] *)

Lemma lstrip_head (c : ascii) (r : str) :
  is_space c = false -> lstrip (c :: r) = c :: r.
Proof. intros H. simpl. now rewrite H. Qed.

Lemma lstrip_idem (x : str) : lstrip (lstrip x) = lstrip x.
Proof.
  induction x as [|c r IH]; simpl; [reflexivity|].
  destruct (is_space c) eqn:E; [exact IH|].
  simpl. now rewrite E.
Qed.

Lemma rstrip_snoc (x : str) (c : ascii) :
  rstrip (x ++ [c]) = if is_space c then rstrip x else x ++ [c].
Proof.
  unfold rstrip. rewrite rev_app_distr. simpl.
  destruct (is_space c); [reflexivity|].
  simpl. now rewrite rev_involutive.
Qed.

Lemma rstrip_nil : rstrip [] = [].
Proof. reflexivity. Qed.

Lemma rstrip_idem (x : str) : rstrip (rstrip x) = rstrip x.
Proof.
  unfold rstrip. rewrite rev_involutive. now rewrite lstrip_idem.
Qed.

(** What [lstrip] returns is a suffix of its argument, what [rstrip] returns
    a prefix. *)
Lemma lstrip_suffix (x : str) : exists p, x = p ++ lstrip x /\ forallb is_space p = true.
Proof.
  induction x as [|c r [p [Hp Hs]]]; simpl.
  - exists []. auto.
  - destruct (is_space c) eqn:E.
    + exists (c :: p). simpl. rewrite E, Hs. split; [congruence|reflexivity].
    + exists []. auto.
Qed.

Lemma rstrip_prefix (x : str) : exists q, x = rstrip x ++ q /\ forallb is_space q = true.
Proof.
  unfold rstrip. destruct (lstrip_suffix (rev x)) as [p [Hp Hs]].
  exists (rev p). split.
  - rewrite <- rev_app_distr, <- Hp. now rewrite rev_involutive.
  - rewrite forallb_forall in *. intros c Hc. apply Hs. now apply in_rev.
Qed.

Lemma lstrip_Forall (P : ascii -> Prop) (x : str) :
  Forall P x -> Forall P (lstrip x).
Proof.
  intros H. destruct (lstrip_suffix x) as [p [Hp _]].
  rewrite Hp in H. now apply Forall_app in H.
Qed.

Lemma rstrip_Forall (P : ascii -> Prop) (x : str) :
  Forall P x -> Forall P (rstrip x).
Proof.
  intros H. destruct (rstrip_prefix x) as [p [Hp _]].
  rewrite Hp in H. now apply Forall_app in H.
Qed.

Lemma strip_Forall (P : ascii -> Prop) (x : str) :
  Forall P x -> Forall P (strip x).
Proof. intros H. apply rstrip_Forall, lstrip_Forall, H. Qed.

(** [rstrip] keeps the first character of a string that does not start with
    whitespace, so it commutes with [lstrip] there. *)
Lemma lstrip_rstrip (x : str) : lstrip x = x -> lstrip (rstrip x) = rstrip x.
Proof.
  intros Hx. destruct x as [|c r]; [reflexivity|].
  destruct (is_space c) eqn:E.
  - exfalso. simpl in Hx. rewrite E in Hx.
    destruct (lstrip_suffix r) as [p [Hp _]].
    assert (L : length (lstrip r) = length (c :: r)) by now rewrite Hx.
    rewrite Hp in L at 2. simpl in L. rewrite length_app in L. lia.
  - destruct (rstrip_prefix (c :: r)) as [q [Hq Hs]].
    destruct (rstrip (c :: r)) as [|c' r'] eqn:R; [reflexivity|].
    simpl in Hq. injection Hq as -> _. simpl. now rewrite E.
Qed.

(** A string is [clean] when stripping leaves it as it is. *)
Definition clean (x : str) : Prop := lstrip x = x /\ rstrip x = x.

Lemma clean_nil : clean [].
Proof. split; reflexivity. Qed.

Lemma strip_clean (x : str) : clean (strip x).
Proof.
  unfold strip. split.
  - apply lstrip_rstrip, lstrip_idem.
  - apply rstrip_idem.
Qed.

Lemma clean_strip (x : str) : clean x -> strip x = x.
Proof. intros [L R]. unfold strip. now rewrite L, R. Qed.

Lemma strip_idem (x : str) : strip (strip x) = strip x.
Proof. apply clean_strip, strip_clean. Qed.

(** Appending to a string that is not stripped away on the right. *)
Lemma rstrip_app_keep (a b : str) :
  rstrip b <> [] -> rstrip (a ++ b) = a ++ rstrip b.
Proof.
  revert a. induction b as [|c b IH] using rev_ind; intros a H.
  - now destruct H.
  - rewrite app_assoc, !rstrip_snoc. rewrite rstrip_snoc in H.
    destruct (is_space c).
    + now apply IH.
    + now rewrite app_assoc.
Qed.

Lemma rstrip_LF (x : str) : rstrip (x ++ [LF]) = rstrip x.
Proof. now rewrite rstrip_snoc. Qed.

(** The line [a ++ v ++ "\n"], where [a] begins and ends with a character
    that is not whitespace and [v] is clean, strips to [a ++ v]. *)
Lemma strip_line (a v : str) :
  lstrip a = a -> rstrip a = a -> a <> [] -> clean v ->
  strip (a ++ v ++ [LF]) = a ++ v.
Proof.
  intros La Ra Na [Lv Rv]. unfold strip.
  assert (L : lstrip (a ++ v ++ [LF]) = a ++ v ++ [LF]).
  { destruct a as [|c a]; [contradiction|]. simpl in *.
    destruct (is_space c) eqn:E; [|reflexivity].
    exfalso. destruct (lstrip_suffix a) as [p [Hp _]].
    assert (Hl : length (lstrip a) = length (c :: a)) by now rewrite La.
    rewrite Hp in Hl at 2. simpl in Hl. rewrite length_app in Hl. lia. }
  rewrite L, app_assoc, rstrip_LF.
  destruct v as [|c v].
  - now rewrite app_nil_r.
  - rewrite rstrip_app_keep by (rewrite Rv; discriminate). now rewrite Rv.
Qed.

End Strings.


(** *** Prefixes, suffixes and separators *)

Section Affixes.

Lemma startswith_app (p x : str) : startswith p (p ++ x) = true.
Proof.
  induction p as [|c p IH]; simpl; [reflexivity|].
  now rewrite Ascii.eqb_refl, IH.
Qed.

Lemma endswith_app (p x : str) : endswith p (x ++ p) = true.
Proof. unfold endswith. rewrite rev_app_distr. apply startswith_app. Qed.

Lemma skipn_prefix (p x : str) : skipn (length p) (p ++ x) = x.
Proof. induction p; simpl; auto. Qed.

Lemma slice_header (n : str) :
  slice_from_to_last (length header_prefix) (header_prefix ++ n ++ s "]") = n.
Proof.
  unfold slice_from_to_last. rewrite skipn_prefix.
  apply removelast_last.
Qed.

Lemma is_header_line (n : str) : is_header (header_prefix ++ n ++ s "]") = true.
Proof.
  unfold is_header. rewrite startswith_app, app_assoc, endswith_app.
  reflexivity.
Qed.

Lemma contains_In (c : ascii) (x : str) : contains c x = true <-> In c x.
Proof.
  unfold contains. rewrite existsb_exists. split.
  - intros [y [Hy E]]. apply Ascii.eqb_eq in E. now subst.
  - intros H. exists c. split; [assumption|apply Ascii.eqb_refl].
Qed.

Lemma split_once_app (c : ascii) (k v : str) :
  ~ In c k -> split_once c (k ++ c :: v) = Some (k, v).
Proof.
  induction k as [|a k IH]; simpl; intros H.
  - now rewrite Ascii.eqb_refl.
  - destruct (Ascii.eqb a c) eqn:E.
    + apply Ascii.eqb_eq in E. subst. exfalso. auto.
    + rewrite IH by auto. reflexivity.
Qed.

Lemma split_once_Some (c : ascii) (x k v : str) :
  split_once c x = Some (k, v) -> x = k ++ c :: v /\ ~ In c k.
Proof.
  revert k v. induction x as [|a x IH]; simpl; intros k v H; [discriminate|].
  destruct (Ascii.eqb a c) eqn:E.
  - apply Ascii.eqb_eq in E. injection H as <- <-. subst. auto.
  - destruct (split_once c x) as [[k' v']|]; [|discriminate].
    injection H as <- <-. destruct (IH k' v' eq_refl) as [-> Hk].
    split; [reflexivity|]. simpl. intros [->|Hin]; [|auto].
    now rewrite Ascii.eqb_refl in E.
Qed.

End Affixes.

(** *** [int] and [str] *)

Section Integers.

Lemma digit_not_space (c : ascii) : is_digit c = true -> is_space c = false.
Proof.
  destruct c as [[] [] [] [] [] [] [] []]; vm_compute; congruence.
Qed.

Lemma digit_not_sign (c : ascii) :
  is_digit c = true ->
  Ascii.eqb c "-"%char = false /\ Ascii.eqb c "+"%char = false
  /\ Ascii.eqb c "_"%char = false.
Proof.
  destruct c as [[] [] [] [] [] [] [] []]; vm_compute; intuition congruence.
Qed.

(** The characters [string_of_uint] writes are digits. *)
Lemma uint_digits (d : uint) :
  Forall (fun c => is_digit c = true)
         (list_ascii_of_string (NilEmpty.string_of_uint d)).
Proof.
  induction d; simpl; constructor; auto.
Qed.

Lemma digits_ok_all (x : str) :
  Forall (fun c => is_digit c = true) x -> x <> [] -> digits_ok false x = true.
Proof.
  intros H N. destruct x as [|c x]; [contradiction|].
  inversion H as [|? ? Hc Hx]; subst. simpl. rewrite Hc. clear N H Hc.
  induction Hx as [|d x Hd Hx IH]; simpl; [reflexivity|]. now rewrite Hd.
Qed.

Lemma drop_underscores_digits (x : str) :
  Forall (fun c => is_digit c = true) x -> drop_underscores x = x.
Proof.
  induction 1 as [|c x Hc Hx IH]; simpl; [reflexivity|].
  destruct (digit_not_sign c Hc) as (_ & _ & U). rewrite U. simpl.
  now f_equal.
Qed.

Lemma digits_value_uint (d : uint) :
  digits_value (list_ascii_of_string (NilEmpty.string_of_uint d)) = Some (Z.of_uint d).
Proof.
  unfold digits_value.
  now rewrite string_of_list_ascii_of_string, NilEmpty.usu.
Qed.

Lemma string_of_uint_nonempty (d : uint) :
  d <> Nil -> list_ascii_of_string (NilEmpty.string_of_uint d) <> [].
Proof. destruct d; simpl; congruence. Qed.

Lemma digit_not_int_space (c : ascii) : is_digit c = true -> is_int_space c = false.
Proof.
  destruct c as [[] [] [] [] [] [] [] []]; vm_compute; congruence.
Qed.

(** [int] trims nothing from a string without whitespace. *)
Lemma int_trim_id (x : str) :
  Forall (fun c => is_int_space c = false) x -> int_trim x = x.
Proof.
  intros H. unfold int_trim.
  assert (K : forall y, Forall (fun c => is_int_space c = false) y ->
                        skip_int_space y = y).
  { intros y [|c r Hc _]; [reflexivity|]. cbn [skip_int_space]. now rewrite Hc. }
  rewrite (K x H), K, rev_involutive; [reflexivity|].
  apply Forall_forall. intros c Hc. apply in_rev in Hc.
  rewrite Forall_forall in H. auto.
Qed.

(** [int] of an unsigned literal made of digits only. *)
Lemma py_int_uint (d : uint) :
  d <> Nil ->
  py_int (list_ascii_of_string (NilEmpty.string_of_uint d)) = Ok (Z.of_uint d).
Proof.
  intros N. unfold py_int.
  pose proof (uint_digits d) as D.
  pose proof (string_of_uint_nonempty N) as NE.
  rewrite int_trim_id
    by (eapply Forall_impl; [|exact D]; intros c; apply digit_not_int_space).
  destruct (list_ascii_of_string (NilEmpty.string_of_uint d)) as [|c x] eqn:E;
    [contradiction|].
  inversion D as [|? ? Hc Hx]; subst.
  destruct (digit_not_sign c Hc) as (M & P & _). rewrite M, P.
  rewrite (digits_ok_all D) by discriminate.
  rewrite (drop_underscores_digits D), <- E, digits_value_uint. reflexivity.
Qed.

(** [str(n)] is never empty and [int(str(n)) == n]. *)
Lemma py_str_nonempty (n : Z) : py_str n <> [].
Proof.
  unfold py_str. destruct n as [|p|p]; simpl; try discriminate.
  destruct (Pos.to_uint p) eqn:E; simpl; discriminate.
Qed.

Lemma py_int_py_str (n : Z) : py_int (py_str n) = Ok n.
Proof.
  destruct n as [|p|p].
  - reflexivity.
  - unfold py_str. simpl.
    assert (H : NilZero.string_of_uint (Pos.to_uint p)
                = NilEmpty.string_of_uint (Pos.to_uint p)).
    { destruct (Pos.to_uint p) eqn:E; try reflexivity.
      now destruct (Unsigned.to_uint_nonnil p). }
    rewrite H, py_int_uint by apply Unsigned.to_uint_nonnil.
    f_equal. change (Z.of_int (Z.to_int (Z.pos p)) = Z.pos p). apply DecimalZ.of_to.
  - unfold py_str. simpl.
    assert (H : NilZero.string_of_uint (Pos.to_uint p)
                = NilEmpty.string_of_uint (Pos.to_uint p)).
    { destruct (Pos.to_uint p) eqn:E; try reflexivity.
      now destruct (Unsigned.to_uint_nonnil p). }
    rewrite H.
    pose proof (uint_digits (Pos.to_uint p)) as D.
    pose proof (string_of_uint_nonempty (Unsigned.to_uint_nonnil p)) as NE.
    unfold py_int.
    rewrite int_trim_id.
    + change (Ascii.eqb "-"%char "-"%char) with true. cbv iota.
      rewrite (digits_ok_all D NE), (drop_underscores_digits D), digits_value_uint.
      f_equal. change (Z.of_int (Z.to_int (Z.neg p)) = Z.neg p). apply DecimalZ.of_to.
    + constructor; [reflexivity|].
      eapply Forall_impl; [|exact D]. intros c. apply digit_not_int_space.
Qed.

End Integers.


(** ** Lines of a file *)

Section Lines.

(** A string without line terminators. *)
Definition one_line (x : str) : Prop := Forall (fun c => c <> LF /\ c <> CR) x.

Lemma one_line_nil : one_line [].
Proof. constructor. Qed.

Lemma one_line_app (x y : str) : one_line x -> one_line y -> one_line (x ++ y).
Proof. intros. now apply Forall_app. Qed.

Lemma universal_newlines_line (l rest : str) :
  one_line l ->
  universal_newlines (l ++ LF :: rest) = l ++ LF :: universal_newlines rest.
Proof.
  induction 1 as [|c l [_ Hc] Hl IH]; simpl.
  - reflexivity.
  - apply Ascii.eqb_neq in Hc. rewrite Hc. now f_equal.
Qed.

Lemma lines_keepends_line (l rest : str) :
  one_line l ->
  lines_keepends (l ++ LF :: rest) = (l ++ [LF]) :: lines_keepends rest.
Proof.
  induction 1 as [|c l [Hc _] Hl IH]; simpl.
  - reflexivity.
  - apply Ascii.eqb_neq in Hc. rewrite Hc, IH. reflexivity.
Qed.

(** A file that starts with the line [l]. *)
Lemma file_lines_line (l rest : str) :
  one_line l ->
  file_lines (l ++ LF :: rest) = (l ++ [LF]) :: file_lines rest.
Proof.
  intros H. unfold file_lines.
  now rewrite universal_newlines_line, lines_keepends_line.
Qed.

(** No carriage return survives the translation. *)
Lemma universal_newlines_no_CR (x : str) :
  Forall (fun c => c <> CR) (universal_newlines x).
Proof.
  assert (H : forall n (y : str), length y <= n ->
                Forall (fun c => c <> CR) (universal_newlines y)).
  { induction n as [|n IH]; intros [|c y] L; simpl in *; try constructor; try lia.
    - destruct (Ascii.eqb c CR) eqn:E.
      + constructor; [discriminate|].
        destruct y as [|c' y]; [constructor|].
        destruct (Ascii.eqb c' LF); apply IH; simpl in *; lia.
      + constructor; [now apply Ascii.eqb_neq|]. apply IH. lia. }
  apply (H (length x)). lia.
Qed.

(** A line as [for line in f] yields it: text without terminators, followed
    by at most one LF. *)
Definition is_line (l : str) : Prop :=
  exists body, one_line body /\ (l = body \/ l = body ++ [LF]).

Lemma lines_keepends_lines (x : str) :
  Forall (fun c => c <> CR) x -> Forall is_line (lines_keepends x).
Proof.
  induction 1 as [|c x Hc Hx IH]; simpl; [constructor|].
  destruct (Ascii.eqb c LF) eqn:E.
  - constructor; [|assumption]. exists []. split; [constructor|]. now right.
  - apply Ascii.eqb_neq in E.
    destruct (lines_keepends x) as [|l ls].
    + constructor; [|constructor]. exists [c]. split; [|now left].
      constructor; [split; assumption|constructor].
    + inversion IH as [|? ? [body [Hb Hl]] Hls]; subst.
      constructor; [|assumption].
      exists (c :: body). split.
      * constructor; [split; assumption|assumption].
      * destruct Hl as [->| ->]; [now left|now right].
Qed.

Lemma file_lines_lines (content : str) : Forall is_line (file_lines content).
Proof. apply lines_keepends_lines, universal_newlines_no_CR. Qed.

(** Stripping a line leaves text without terminators. *)
Lemma strip_is_line (l : str) : is_line l -> one_line (strip l).
Proof.
  intros [body [Hb [->| ->]]].
  - now apply strip_Forall.
  - unfold strip.
    destruct (lstrip_suffix (body ++ [LF])) as [p [Hp _]].
    assert (Hl : Forall (fun c => c <> CR) (lstrip (body ++ [LF]))).
    { apply lstrip_Forall, Forall_app. split.
      - eapply Forall_impl; [|exact Hb]. now intros c [_ ?].
      - constructor; [discriminate|constructor]. }
    destruct (lstrip (body ++ [LF])) as [|c r] eqn:E using rev_ind;
      [constructor|].
    clear IHr.
    assert (S : exists q, body ++ [LF] = q ++ r ++ [c])
      by (exists p; now rewrite Hp).
    destruct S as [q Hq]. rewrite app_assoc in Hq.
    apply app_inj_tail in Hq as [Hq <-].
    rewrite rstrip_LF. apply rstrip_Forall.
    rewrite Hq in Hb. now apply Forall_app in Hb.
Qed.

End Lines.

(** ** Dictionaries *)

Section Dicts.

Context {V : Type}.
Implicit Types (d : dict V) (k : str) (v : V).

Lemma get_setitem_same k v d : get k (setitem k v d) = Some v.
Proof.
  induction d as [|[k' v'] d IH]; simpl.
  - now rewrite str_eqb_refl.
  - destruct (str_eqb k k') eqn:E; simpl; rewrite E; auto.
Qed.

Lemma get_setitem_other k k' v d :
  k' <> k -> get k' (setitem k v d) = get k' d.
Proof.
  intros N. induction d as [|[k0 v0] d IH]; simpl.
  - apply str_eqb_neq in N. now rewrite N.
  - destruct (str_eqb k k0) eqn:E; simpl.
    + apply str_eqb_eq in E. subst k0.
      apply str_eqb_neq in N. now rewrite N.
    + now rewrite IH.
Qed.

Lemma get_In k v d : get k d = Some v -> In (k, v) d.
Proof.
  induction d as [|[k' v'] d IH]; simpl; [discriminate|].
  destruct (str_eqb k k') eqn:E.
  - apply str_eqb_eq in E. intros [= ->]. subst. now left.
  - auto.
Qed.

Lemma get_None_keys k d : get k d = None <-> ~ In k (keys d).
Proof.
  induction d as [|[k' v'] d IH]; simpl.
  - tauto.
  - destruct (str_eqb k k') eqn:E.
    + apply str_eqb_eq in E. subst. split; [discriminate|]. intros H. exfalso. auto.
    + apply str_eqb_neq in E. rewrite IH. split.
      * intros H [->|Hin]; [congruence|auto].
      * auto.
Qed.

(** Assigning to a key that is absent appends the binding. *)
Lemma setitem_absent k v d : get k d = None -> setitem k v d = d ++ [(k, v)].
Proof.
  induction d as [|[k' v'] d IH]; simpl; [reflexivity|].
  destruct (str_eqb k k'); [discriminate|]. intros H. now rewrite IH.
Qed.

Lemma keys_setitem k v d :
  keys (setitem k v d) = if mem k d then keys d else keys d ++ [k].
Proof.
  unfold mem. induction d as [|[k' v'] d IH]; simpl; [reflexivity|].
  destruct (str_eqb k k') eqn:E; simpl; [reflexivity|].
  rewrite IH. now destruct (get k d).
Qed.

Lemma NoDup_setitem k v d : NoDup (keys d) -> NoDup (keys (setitem k v d)).
Proof.
  intros H. rewrite keys_setitem. unfold mem.
  destruct (get k d) eqn:E; [assumption|].
  apply get_None_keys in E.
  apply NoDup_app; [assumption|repeat constructor; auto|].
  intros x Hx [<-|[]]. auto.
Qed.

(** Every binding after an assignment is the new one or an old one. *)
Lemma In_setitem k v k' v' d :
  In (k', v') (setitem k v d) -> (k' = k /\ v' = v) \/ In (k', v') d.
Proof.
  induction d as [|[k0 v0] d IH]; simpl.
  - intros [[= <- <-]|[]]. now left.
  - destruct (str_eqb k k0) eqn:E; simpl.
    + apply str_eqb_eq in E. subst. intros [[= <- <-]|H]; auto.
    + intros [H|H]; auto. destruct (IH H); auto.
Qed.

Lemma get_remove_key_same k d : NoDup (keys d) -> get k (remove_key k d) = None.
Proof.
  induction d as [|[k' v'] d IH]; simpl; intros ND; [reflexivity|].
  inversion ND as [|? ? Hk Hd]; subst.
  destruct (str_eqb k k') eqn:E; simpl.
  - apply str_eqb_eq in E. subst. now apply get_None_keys.
  - rewrite E. auto.
Qed.

Lemma get_remove_key_other k k' d :
  k' <> k -> get k' (remove_key k d) = get k' d.
Proof.
  intros N. induction d as [|[k0 v0] d IH]; simpl; [reflexivity|].
  destruct (str_eqb k k0) eqn:E; simpl.
  - apply str_eqb_eq in E. subst. apply str_eqb_neq in N. now rewrite N.
  - now rewrite IH.
Qed.

End Dicts.


(** ** The account store *)

Section Store.

(** *** What one line does to the loop's state *)

Lemma lstrip_fix_head (c : ascii) (r : str) :
  lstrip (c :: r) = c :: r -> is_space c = false.
Proof.
  simpl. destruct (is_space c); [|reflexivity]. intros H. exfalso.
  destruct (lstrip_suffix r) as [p [Hp _]].
  assert (L : length (lstrip r) = length (c :: r)) by now rewrite H.
  rewrite Hp in L at 2. simpl in L. rewrite length_app in L. lia.
Qed.

Lemma lstrip_app_head (a b : str) :
  lstrip a = a -> a <> [] -> lstrip (a ++ b) = a ++ b.
Proof.
  intros H N. destruct a as [|c r]; [contradiction|].
  apply lstrip_fix_head in H. simpl. now rewrite H.
Qed.

Lemma load_line_blank (st : load_state) : load_line [LF] st = Ok st.
Proof. reflexivity. Qed.

Lemma strip_header_line (n : str) :
  strip (header_prefix ++ n ++ s "]" ++ [LF]) = header_prefix ++ n ++ s "]".
Proof.
  unfold strip. rewrite lstrip_app_head by (reflexivity || discriminate).
  change (header_prefix ++ n ++ s "]" ++ [LF])
    with (header_prefix ++ n ++ ["]"%char] ++ [LF]).
  rewrite !app_assoc, rstrip_LF, rstrip_snoc. reflexivity.
Qed.

Lemma load_line_header (n : str) (st : load_state) :
  load_line (header_prefix ++ n ++ s "]" ++ [LF]) st
  = (accs <- flush st ;; Ok (mkLoad accs [(s "name", n)] (Some n)))%py.
Proof.
  unfold load_line. rewrite strip_header_line.
  rewrite is_header_line, slice_header. reflexivity.
Qed.

Lemma not_header_head (c : ascii) (x : str) :
  c <> "["%char -> is_header (c :: x) = false.
Proof.
  intros H. unfold is_header, header_prefix.
  change (s "[account ") with ("["%char :: s "account ").
  cbn [startswith]. destruct (Ascii.eqb_spec "["%char c); [congruence|reflexivity].
Qed.

(** A [key=value] line whose key and value need no stripping. *)
Lemma load_line_kv (key v : str) (st : load_state) :
  clean key -> key <> [] -> ~ In "="%char key ->
  hd_error key <> Some "["%char -> clean v ->
  load_line (key ++ s "=" ++ v ++ [LF]) st
  = Ok (mkLoad (accounts_of st) (setitem key v (current st)) (current_name st)).
Proof.
  intros Ck Nk Ek Hk Cv. unfold load_line.
  assert (S : strip (key ++ s "=" ++ v ++ [LF]) = key ++ s "=" ++ v).
  { rewrite !app_assoc. rewrite <- (app_assoc _ v).
    rewrite strip_line; auto.
    - apply lstrip_app_head; [apply Ck|assumption].
    - apply rstrip_snoc.
    - now destruct key. }
  rewrite S.
  destruct key as [|c r]; [contradiction|].
  simpl negb. cbv iota.
  assert (H : is_header ((c :: r) ++ s "=" ++ v) = false).
  { apply not_header_head. intros ->. now apply Hk. }
  rewrite H.
  assert (C : contains "="%char ((c :: r) ++ s "=" ++ v) = true).
  { apply contains_In, in_or_app. right. now left. }
  rewrite C. change (s "=" ++ v) with ("="%char :: v).
  rewrite split_once_app by assumption.
  now rewrite (clean_strip Ck), (clean_strip Cv).
Qed.

(** *** A stored account reads back as it was written *)

Definition field_ok (x : str) : Prop := clean x /\ one_line x.

(** An account that survives being written to the file and read again:
    a name [flush] keeps, and fields without line breaks that stripping
    leaves alone. *)
Definition storable (a : AccountConfig) : Prop :=
  name a <> [] /\ one_line (name a) /\ field_ok (email a)
  /\ field_ok (password a) /\ field_ok (imap_server a)
  /\ field_ok (smtp_server a).

Lemma from_dict_to_dict (a : AccountConfig) : from_dict (to_dict a) = Ok a.
Proof.
  destruct a as [n e p i ip sv sp].
  unfold from_dict, get_port, get_str, to_dict. simpl.
  pose proof (py_str_nonempty ip) as Hi. pose proof (py_str_nonempty sp) as Hs.
  apply truthy_nonempty in Hi, Hs. rewrite Hi, Hs, !py_int_py_str.
  reflexivity.
Qed.

(** The lines [save_all_accounts] writes for one account. *)
Definition account_lines (a : AccountConfig) : list str :=
  [ header_prefix ++ name a ++ s "]";
    s "email" ++ s "=" ++ email a;
    s "password" ++ s "=" ++ password a;
    s "imap_server" ++ s "=" ++ imap_server a;
    s "imap_port" ++ s "=" ++ py_str (imap_port a);
    s "smtp_server" ++ s "=" ++ smtp_server a;
    s "smtp_port" ++ s "=" ++ py_str (smtp_port a);
    [] ].

Definition write_lines (ls : list str) (rest : str) : str :=
  fold_right (fun l acc => l ++ LF :: acc) rest ls.

Lemma save_account_lines (a : AccountConfig) (rest : str) :
  save_account a ++ rest = write_lines (account_lines a) rest.
Proof.
  unfold save_account, write_lines, account_lines. simpl.
  repeat (rewrite <- ?app_assoc; simpl). reflexivity.
Qed.

Lemma file_lines_write (ls : list str) (rest : str) :
  Forall one_line ls ->
  file_lines (write_lines ls rest) = map (fun l => l ++ [LF]) ls ++ file_lines rest.
Proof.
  induction 1 as [|l ls Hl Hls IH]; simpl; [reflexivity|].
  now rewrite file_lines_line, IH.
Qed.

Lemma py_str_digits_or_sign (n : Z) :
  Forall (fun c => is_digit c = true \/ c = "-"%char) (py_str n).
Proof.
  unfold py_str. destruct n as [|p|p]; simpl.
  - repeat constructor.
  - destruct (Pos.to_uint p) eqn:E; simpl;
      try (constructor; [now left|]);
      try (eapply Forall_impl; [|apply uint_digits]; intros; now left).
    now destruct (Unsigned.to_uint_nonnil p).
  - constructor; [now right|].
    destruct (Pos.to_uint p) eqn:E; simpl;
      try (constructor; [now left|]);
      try (eapply Forall_impl; [|apply uint_digits]; intros; now left).
    now destruct (Unsigned.to_uint_nonnil p).
Qed.

Lemma py_str_field_ok (n : Z) : field_ok (py_str n).
Proof.
  pose proof (py_str_digits_or_sign n) as D.
  assert (NS : Forall (fun c => is_space c = false) (py_str n)).
  { eapply Forall_impl; [|exact D]. intros c [H| ->];
      [now apply digit_not_space|reflexivity]. }
  split; [split|].
  - destruct NS as [|c r Hc _]; [reflexivity|]. now apply lstrip_head.
  - destruct (py_str n) as [|c r _] using rev_ind; [reflexivity|].
    rewrite rstrip_snoc. apply Forall_app in NS as [_ Hc].
    inversion Hc; subst. now match goal with H : is_space c = false |- _ => rewrite H end.
  - eapply Forall_impl; [|exact D]. intros c [H| ->].
    + split; intros ->; discriminate.
    + split; discriminate.
Qed.

Lemma account_lines_one_line (a : AccountConfig) :
  storable a -> Forall one_line (account_lines a).
Proof.
  intros (_ & Hn & He & Hp & Hi & Hs).
  assert (L : forall x : string, one_line (s x) -> forall y, one_line y -> one_line (s x ++ s "=" ++ y)).
  { intros x Hx y Hy. apply one_line_app; [assumption|].
    apply one_line_app; [|assumption]. repeat constructor; discriminate. }
  assert (K : forall x : string,
             forallb (fun c => negb (Ascii.eqb c LF) && negb (Ascii.eqb c CR)) (s x) = true ->
             one_line (s x)).
  { intros x H. apply Forall_forall. intros c Hc.
    rewrite forallb_forall in H. specialize (H c Hc).
    apply andb_true_iff in H as [H1 H2].
    split; intros ->; discriminate. }
  unfold account_lines.
  repeat match goal with
         | |- Forall one_line (_ :: _) => apply Forall_cons
         | |- Forall one_line [] => apply Forall_nil
         end.
  - apply one_line_app; [apply (K "[account "%string); reflexivity|].
    apply one_line_app; [assumption|apply (K "]"%string); reflexivity].
  - apply L; [apply K; reflexivity|apply He].
  - apply L; [apply K; reflexivity|apply Hp].
  - apply L; [apply K; reflexivity|apply Hi].
  - apply L; [apply K; reflexivity|apply py_str_field_ok].
  - apply L; [apply K; reflexivity|apply Hs].
  - apply L; [apply K; reflexivity|apply py_str_field_ok].
  - apply one_line_nil.
Qed.

(** Reading the lines of one stored account: the block before it is flushed,
    and the loop goes on with [current] equal to [to_dict a]. *)
Lemma load_lines_account (a : AccountConfig) (rest : list str) (st : load_state) :
  storable a ->
  load_lines (map (fun l => l ++ [LF]) (account_lines a) ++ rest) st
  = (accs <- flush st ;;
     load_lines rest (mkLoad accs (to_dict a) (Some (name a))))%py.
Proof.
  intros (_ & _ & He & Hp & Hi & Hs).
  unfold account_lines. cbn [map app load_lines].
  rewrite <- !app_assoc, load_line_header.
  destruct (flush st) as [accs|e]; [|reflexivity].
  cbn [rbind].
  repeat (rewrite load_line_kv;
          [ cbn [rbind accounts_of current current_name]
          | split; reflexivity
          | discriminate
          | intros H; repeat (destruct H as [H|H]; [discriminate H|]); exact H
          | discriminate
          | first [apply He | apply Hp | apply Hi | apply Hs | apply py_str_field_ok] ]).
  rewrite load_line_blank. reflexivity.
Qed.

End Store.


(** ** Saving, then loading *)

Section SaveLoad.

Lemma flush_stored (accs : dict AccountConfig) (a : AccountConfig) :
  name a <> [] ->
  flush (mkLoad accs (to_dict a) (Some (name a))) = Ok (setitem (name a) a accs).
Proof.
  intros N. unfold flush. cbn [current_name current accounts_of].
  apply truthy_nonempty in N. rewrite N. cbn [andb to_dict].
  now rewrite from_dict_to_dict.
Qed.

(** Loading what [save_all_accounts] wrote for the accounts [l], from any
    state of the loop: the open block is flushed, then each account is
    assigned under its name, in order. *)
Lemma load_saved (l : list AccountConfig) :
  Forall storable l ->
  forall (st : load_state) (accs : dict AccountConfig),
    flush st = Ok accs ->
    (st' <- load_lines (file_lines (concat (map save_account l))) st ;; flush st')%py
    = Ok (fold_left (fun d a => setitem (name a) a d) l accs).
Proof.
  induction 1 as [|a l Ha Hl IH]; intros st accs F.
  - exact F.
  - cbn [map concat fold_left].
    rewrite save_account_lines, file_lines_write by now apply account_lines_one_line.
    rewrite load_lines_account, F by assumption. cbn [rbind].
    apply IH. apply flush_stored, Ha.
Qed.

(** A mapping whose keys are the names of its accounts. *)
Definition keyed_by_name (m : dict AccountConfig) : Prop :=
  forall k a, In (k, a) m -> name a = k.

(** Assigning the accounts of a mapping one after the other, each under its
    name, rebuilds the mapping. *)
Lemma assign_all (m2 : dict AccountConfig) :
  forall m1, NoDup (keys (m1 ++ m2)) -> keyed_by_name m2 ->
  fold_left (fun d a => setitem (name a) a d) (values m2) m1 = m1 ++ m2.
Proof.
  induction m2 as [|[k a] m2 IH]; intros m1 ND K; cbn [values map fold_left snd].
  - now rewrite app_nil_r.
  - assert (E : name a = k) by (apply K; now left). rewrite E.
    assert (A : get k m1 = None).
    { apply get_None_keys. intros Hin.
      unfold keys in ND. rewrite map_app in ND. cbn [map fst] in ND.
      apply NoDup_remove_2 in ND. apply ND, in_or_app. now left. }
    rewrite (@setitem_absent _ k a m1 A).
    change (fold_left (fun d a0 => setitem (name a0) a0 d) (values m2) (m1 ++ [(k, a)])
            = m1 ++ (k, a) :: m2).
    rewrite IH.
    + now rewrite <- app_assoc.
    + now rewrite <- app_assoc.
    + intros k' a' H. apply K. now right.
Qed.

(** The mappings that [save_all_accounts] followed by [load_all_accounts]
    gives back unchanged. *)
Definition storable_mapping (m : dict AccountConfig) : Prop :=
  NoDup (keys m) /\ keyed_by_name m /\ Forall storable (values m).

Lemma load_save (m : dict AccountConfig) :
  storable_mapping m ->
  load_all_accounts (Some (save_all_accounts m)) = Ok m.
Proof.
  intros (ND & K & S). unfold load_all_accounts, load_from_lines, save_all_accounts.
  rewrite (load_saved S load_init (accs := [])) by reflexivity.
  f_equal. now apply (assign_all (m2 := m) []).
Qed.

End SaveLoad.

(** ** What [load_all_accounts] returns *)

Section LoadInvariant.

(** The line assigns the key [name] inside a block. *)
Definition names_key (raw : str) : bool :=
  let line := strip raw in
  truthy line && negb (is_header line) &&
  match split_once "="%char line with
  | Some (key, _) => str_eqb (strip key) (s "name")
  | None => false
  end.

(** The store file's format keeps the account's name in the section header
    only: no line of a block assigns the key [name]. *)
Definition well_formed (content : str) : Prop :=
  Forall (fun l => names_key l = false) (file_lines content).

(** What holds of the loop's variables after any number of lines. *)
Record load_inv (st : load_state) : Prop := {
  inv_nodup : NoDup (keys (accounts_of st));
  inv_accounts : forall k a, In (k, a) (accounts_of st) -> name a = k /\ storable a;
  inv_current : forall k v, In (k, v) (current st) -> k <> s "name" -> field_ok v;
  inv_name : forall n, current_name st = Some n ->
                       get (s "name") (current st) = Some n /\ one_line n
}.

Lemma load_inv_init : load_inv load_init.
Proof.
  split; cbn; try constructor; try tauto; discriminate.
Qed.

Lemma field_ok_nil : field_ok [].
Proof. split; [apply clean_nil|apply one_line_nil]. Qed.

Lemma get_str_field_ok (k : string) (d : dict str) :
  (forall k' v, In (k', v) d -> k' <> s "name" -> field_ok v) ->
  s k <> s "name" -> field_ok (get_str k d).
Proof.
  intros H N. unfold get_str. destruct (get (s k) d) as [v|] eqn:E.
  - apply get_In in E. eapply H; eauto.
  - apply field_ok_nil.
Qed.

Lemma from_dict_fields (d : dict str) (a : AccountConfig) :
  from_dict d = Ok a ->
  name a = get_str "name" d /\ email a = get_str "email" d
  /\ password a = get_str "password" d
  /\ imap_server a = get_str "imap_server" d
  /\ smtp_server a = get_str "smtp_server" d.
Proof.
  unfold from_dict. destruct (get_port "imap_port" "993" 993 d); [|discriminate].
  destruct (get_port "smtp_port" "587" 587 d); [|discriminate].
  cbn [rbind]. intros [= <-]. cbn. auto.
Qed.

Lemma flush_inv (st : load_state) (accs : dict AccountConfig) :
  load_inv st -> flush st = Ok accs ->
  NoDup (keys accs) /\ forall k a, In (k, a) accs -> name a = k /\ storable a.
Proof.
  intros [ND A C N] F. unfold flush in F.
  destruct (current_name st) as [n|] eqn:En;
    [|injection F as <-; auto].
  destruct (truthy n && _) eqn:T;
    [|injection F as <-; auto].
  apply andb_true_iff in T as [Tn _]. apply truthy_nonempty in Tn.
  destruct (from_dict (current st)) as [a|e] eqn:Fd; [|discriminate].
  cbn [rbind] in F. injection F as <-.
  destruct (N n eq_refl) as [Gn Ln].
  destruct (from_dict_fields _ Fd) as (Hn & He & Hp & Hi & Hs).
  assert (Na : name a = n) by (rewrite Hn; unfold get_str; now rewrite Gn).
  split; [now apply NoDup_setitem|].
  intros k a' H. apply In_setitem in H as [[-> ->]|H]; [|now apply A].
  split; [assumption|].
  unfold storable. rewrite Na, He, Hp, Hi, Hs.
  repeat split; try assumption;
    try (apply get_str_field_ok; [assumption|discriminate]).
Qed.

Lemma one_line_skipn (n : nat) (x : str) : one_line x -> one_line (skipn n x).
Proof.
  intros H. rewrite <- (firstn_skipn n x) in H. now apply Forall_app in H.
Qed.

Lemma one_line_removelast (x : str) : one_line x -> one_line (removelast x).
Proof.
  intros H. destruct x as [|c r] using rev_ind; [assumption|].
  rewrite removelast_last. now apply Forall_app in H.
Qed.

Lemma load_line_inv (raw : str) (st st' : load_state) :
  is_line raw -> names_key raw = false ->
  load_inv st -> load_line raw st = Ok st' -> load_inv st'.
Proof.
  intros L NK I. pose proof (strip_is_line L) as OL.
  unfold load_line, names_key in *. cbv zeta in *.
  destruct (truthy (strip raw)) eqn:T; cbn [negb andb] in *;
    [|intros [= <-]; assumption].
  destruct (is_header (strip raw)) eqn:H; cbn [negb andb] in *.
  - destruct (flush st) as [accs|e] eqn:F; [|discriminate].
    cbn [rbind]. intros [= <-].
    destruct (flush_inv I F) as [ND A].
    split; cbn [accounts_of current current_name]; auto.
    + intros k v [[= <- <-]|[]] Hk. now destruct Hk.
    + intros n [= <-]. split; [reflexivity|].
      apply one_line_removelast, one_line_skipn, OL.
  - destruct (contains "="%char (strip raw)); [|intros [= <-]; assumption].
    destruct (split_once "="%char (strip raw)) as [[key value]|] eqn:S;
      [|intros [= <-]; assumption].
    intros [= <-]. destruct I as [ND A C N].
    apply str_eqb_neq in NK.
    split; cbn [accounts_of current current_name]; auto.
    + intros k v Hin Hk. apply In_setitem in Hin as [[-> ->]|Hin]; [|eauto].
      split; [apply strip_clean|]. apply strip_Forall.
      apply split_once_Some in S as [S _]. rewrite S in OL.
      apply Forall_app in OL as [_ OL]. now inversion OL.
    + intros n En. destruct (N n En) as [G Ln]. split; [|assumption].
      rewrite get_setitem_other; [assumption|congruence].
Qed.

Lemma load_lines_inv (ls : list str) :
  Forall is_line ls -> Forall (fun l => names_key l = false) ls ->
  forall st st', load_inv st -> load_lines ls st = Ok st' -> load_inv st'.
Proof.
  induction 1 as [|l ls Hl Hls IH]; intros NK st st' I R.
  - injection R as <-. assumption.
  - inversion NK as [|? ? Nl Nls]; subst. cbn [load_lines] in R.
    destruct (load_line l st) as [st1|e] eqn:E; [|discriminate].
    cbn [rbind] in R. apply (IH Nls st1 st'); [|assumption].
    eapply load_line_inv; eauto.
Qed.

(** Whatever a well-formed file loads to can be saved and loaded again. *)
Lemma load_storable (content : str) (m : dict AccountConfig) :
  well_formed content ->
  load_all_accounts (Some content) = Ok m -> storable_mapping m.
Proof.
  intros W. unfold load_all_accounts, load_from_lines.
  destruct (load_lines (file_lines content) load_init) as [st|e] eqn:E; [|discriminate].
  cbn [rbind]. intros F.
  assert (I : load_inv st).
  { eapply load_lines_inv; eauto using file_lines_lines, load_inv_init. }
  destruct (flush_inv I F) as [ND A].
  split; [assumption|split].
  - intros k a H. now apply A.
  - apply Forall_forall. intros a Ha. unfold values in Ha.
    apply in_map_iff in Ha as [[k a'] [<- Hin]]. now apply (A k).
Qed.

(** C5. Round trip: for a well-formed store file (every account named by its
    section header only), or when the file does not exist, saving the
    mapping that [load_all_accounts] returned and loading the saved file
    gives that mapping again: the same names in the same order, each with
    the same field values and the same ports. *)
Theorem load_save_load (file : option str) (m : dict AccountConfig) :
  (forall content, file = Some content -> well_formed content) ->
  load_all_accounts file = Ok m ->
  load_all_accounts (Some (save_all_accounts m)) = Ok m.
Proof.
  intros W L. destruct file as [content|].
  - apply load_save. eapply load_storable; eauto.
  - injection L as <-. reflexivity.
Qed.

End LoadInvariant.


(** ** Port fields *)

Section Ports.

(** A missing port key and an empty port value give the default. *)
Lemma get_port_default (k dt : string) (dflt : Z) (d : dict str) :
  py_int (s dt) = Ok dflt ->
  get (s k) d = None \/ get (s k) d = Some [] ->
  get_port k dt dflt d = Ok dflt.
Proof.
  intros D [H|H]; unfold get_port; rewrite H.
  - destruct (truthy (s dt)); [assumption|reflexivity].
  - reflexivity.
Qed.

(** Any other value goes through [int], which may raise. *)
Lemma get_port_value (k dt : string) (dflt : Z) (d : dict str) (v : str) :
  get (s k) d = Some v -> v <> [] -> get_port k dt dflt d = py_int v.
Proof.
  intros H N. unfold get_port. rewrite H.
  apply truthy_nonempty in N. now rewrite N.
Qed.

(** A block without port lines, or with empty ones, loads with the default
    ports. *)
Lemma from_dict_default_ports (d : dict str) :
  (get (s "imap_port") d = None \/ get (s "imap_port") d = Some []) ->
  (get (s "smtp_port") d = None \/ get (s "smtp_port") d = Some []) ->
  exists a, from_dict d = Ok a /\ imap_port a = 993%Z /\ smtp_port a = 587%Z.
Proof.
  intros Hi Hs. unfold from_dict.
  rewrite (@get_port_default "imap_port" "993" 993%Z d eq_refl Hi).
  rewrite (@get_port_default "smtp_port" "587" 587%Z d eq_refl Hs).
  cbn [rbind]. eexists. split; [reflexivity|]. split; reflexivity.
Qed.

(** A port value that [int] rejects makes [from_dict] raise. *)
Lemma from_dict_bad_port (d : dict str) (v : str) (e : exn) :
  get (s "imap_port") d = Some v -> v <> [] -> py_int v = Raise e ->
  from_dict d = Raise e.
Proof.
  intros H N P. unfold from_dict.
  now rewrite (@get_port_value "imap_port" "993" 993%Z d v H N), P.
Qed.

(** The store file with one account whose IMAP port is [abc]. *)
Definition bad_port_file : str :=
  s "[account work]" ++ [LF] ++ s "email=me@example.org" ++ [LF]
  ++ s "imap_port=abc" ++ [LF].

(** C1, at the failing input.  The file holds one account block whose
    [imap_port] is not a decimal integer: [load_all_accounts] raises
    [ValueError] and returns no mapping at all, although the same block
    without the port line, or with an empty port value, loads with port 993. *)
Theorem load_bad_port_raises :
  load_all_accounts (Some bad_port_file) = Raise ValueError
  /\ (exists a,
         load_all_accounts
           (Some (s "[account work]" ++ [LF] ++ s "email=me@example.org" ++ [LF]))
         = Ok [(s "work", a)] /\ imap_port a = 993%Z /\ smtp_port a = 587%Z)
  /\ (exists a,
         load_all_accounts
           (Some (s "[account work]" ++ [LF] ++ s "imap_port=" ++ [LF]
                  ++ s "smtp_port=" ++ [LF]))
         = Ok [(s "work", a)] /\ imap_port a = 993%Z /\ smtp_port a = 587%Z).
Proof.
  split; [vm_compute; reflexivity|].
  split; eexists; (split; [vm_compute; reflexivity|split; reflexivity]).
Qed.

End Ports.

(** ** Loading never fails but for a port *)

Section LoadSucceeds.

(** A port value [from_dict] accepts: empty, or a decimal integer. *)
Definition good_port (v : str) : bool :=
  negb (truthy v) || match py_int v with Ok _ => true | Raise _ => false end.

(** The line does not assign a port that [int] rejects. *)
Definition ports_parse (raw : str) : bool :=
  match split_once "="%char (strip raw) with
  | Some (key, value) =>
      if str_eqb (strip key) (s "imap_port") || str_eqb (strip key) (s "smtp_port")
      then good_port (strip value)
      else true
  | None => true
  end.

Definition good_ports (d : dict str) : Prop :=
  forall k v, (k = s "imap_port" \/ k = s "smtp_port") ->
              get k d = Some v -> good_port v = true.

Lemma get_port_good (k dt : string) (dflt : Z) (d : dict str) :
  good_port (s dt) = true ->
  (forall v, get (s k) d = Some v -> good_port v = true) ->
  exists n, get_port k dt dflt d = Ok n.
Proof.
  intros D G. unfold get_port.
  assert (H : good_port (match get (s k) d with Some v => v | None => s dt end) = true).
  { destruct (get (s k) d); auto. }
  revert H. generalize (match get (s k) d with Some v => v | None => s dt end).
  intros v H. unfold good_port in H. destruct (truthy v); cbn in H.
  - destruct (py_int v); [eauto|discriminate].
  - eauto.
Qed.

Lemma from_dict_good (d : dict str) : good_ports d -> exists a, from_dict d = Ok a.
Proof.
  intros G. unfold from_dict.
  destruct (@get_port_good "imap_port" "993" 993%Z d eq_refl) as [ip ->].
  { intros v. apply G. now left. }
  destruct (@get_port_good "smtp_port" "587" 587%Z d eq_refl) as [sp ->].
  { intros v. apply G. now right. }
  cbn [rbind]. eauto.
Qed.

Lemma flush_good (st : load_state) :
  good_ports (current st) -> exists accs, flush st = Ok accs.
Proof.
  intros G. unfold flush. destruct (current_name st); [|eauto].
  destruct (truthy _ && _); [|eauto].
  destruct (@from_dict_good _ G) as [a ->]. cbn [rbind]. eauto.
Qed.

Lemma good_ports_setitem (k v : str) (d : dict str) :
  good_ports d ->
  ((k = s "imap_port" \/ k = s "smtp_port") -> good_port v = true) ->
  good_ports (setitem k v d).
Proof.
  intros G H k' v' Hk' E.
  destruct (str_eqb k' k) eqn:K.
  - apply str_eqb_eq in K. subst k'. rewrite get_setitem_same in E.
    injection E as <-. auto.
  - apply str_eqb_neq in K. rewrite get_setitem_other in E by assumption. eauto.
Qed.

Lemma load_line_good (raw : str) (st : load_state) :
  ports_parse raw = true -> good_ports (current st) ->
  exists st', load_line raw st = Ok st' /\ good_ports (current st').
Proof.
  intros P G. unfold load_line, ports_parse in *. cbv zeta.
  destruct (negb (truthy (strip raw))); [eauto|].
  destruct (is_header (strip raw)).
  - destruct (@flush_good st G) as [accs ->]. cbn [rbind]. eexists. split; [reflexivity|].
    cbn [current]. intros k v [-> | ->]; cbn; discriminate.
  - destruct (contains "="%char (strip raw)); [|eauto].
    destruct (split_once "="%char (strip raw)) as [[key value]|]; [|eauto].
    eexists. split; [reflexivity|]. cbn [current].
    apply good_ports_setitem; [assumption|].
    intros [E|E]; rewrite E, str_eqb_refl in P;
      [|rewrite orb_true_r in P]; exact P.
Qed.

Lemma load_lines_good (ls : list str) :
  Forall (fun l => ports_parse l = true) ls ->
  forall st, good_ports (current st) ->
  exists st', load_lines ls st = Ok st' /\ good_ports (current st').
Proof.
  induction 1 as [|l ls Hl Hls IH]; intros st G; cbn [load_lines].
  - eauto.
  - destruct (@load_line_good l st Hl G) as [st1 [-> G1]]. cbn [rbind]. auto.
Qed.

Lemma good_ports_nil : good_ports [].
Proof. intros k v _ H. discriminate. Qed.

(** A file whose port lines all parse loads. *)
Lemma load_from_lines_good (ls : list str) :
  Forall (fun l => ports_parse l = true) ls ->
  exists m, load_from_lines ls = Ok m.
Proof.
  intros H. unfold load_from_lines.
  destruct (@load_lines_good ls H load_init good_ports_nil) as [st [-> G]].
  cbn [rbind]. now apply flush_good.
Qed.

End LoadSucceeds.


(** ** Blocks with the same name *)

Section Blocks.

Lemma rbind_Ok {A B} (m : result A) (k : A -> result B) (b : B) :
  rbind m k = Ok b -> exists a, m = Ok a /\ k a = Ok b.
Proof. destruct m as [a|e]; cbn; [eauto|discriminate]. Qed.

Lemma load_lines_app (l1 l2 : list str) (st : load_state) :
  load_lines (l1 ++ l2) st = (st1 <- load_lines l1 st ;; load_lines l2 st1)%py.
Proof.
  revert st. induction l1 as [|l l1 IH]; intros st; cbn [app load_lines].
  - reflexivity.
  - destruct (load_line l st); cbn [rbind]; auto.
Qed.

(** What a line that is no header does to [current]. *)
Definition assign_line (raw : str) (cur : dict str) : dict str :=
  let line := strip raw in
  if negb (truthy line) then cur
  else if contains "="%char line then
    match split_once "="%char line with
    | Some (key, value) => setitem (strip key) (strip value) cur
    | None => cur
    end
  else cur.

Lemma load_line_body (raw : str) (st : load_state) :
  is_header (strip raw) = false ->
  load_line raw st
  = Ok (mkLoad (accounts_of st) (assign_line raw (current st)) (current_name st)).
Proof.
  intros H. unfold load_line, assign_line. cbv zeta. rewrite H.
  destruct st as [accs cur cn]. cbn [accounts_of current current_name].
  destruct (negb (truthy (strip raw))); [reflexivity|].
  destruct (contains "="%char (strip raw)); [|reflexivity].
  now destruct (split_once "="%char (strip raw)) as [[key value]|].
Qed.

Lemma load_lines_body (body : list str) :
  Forall (fun l => is_header (strip l) = false) body ->
  forall st,
    load_lines body st
    = Ok (mkLoad (accounts_of st)
                 (fold_left (fun c l => assign_line l c) body (current st))
                 (current_name st)).
Proof.
  induction 1 as [|l body Hl Hb IH]; intros st; cbn [load_lines fold_left].
  - now destruct st.
  - rewrite (@load_line_body l st Hl). cbn [rbind]. now rewrite IH.
Qed.

Lemma load_line_head (hdr : str) (st : load_state) :
  is_header (strip hdr) = true ->
  load_line hdr st
  = (accs <- flush st ;;
     let n := slice_from_to_last (length header_prefix) (strip hdr) in
     Ok (mkLoad accs [(s "name", n)] (Some n)))%py.
Proof.
  intros H. unfold load_line. cbv zeta. rewrite H.
  destruct (strip hdr); [discriminate H|reflexivity].
Qed.





Definition header_name (raw : str) : str :=
  slice_from_to_last (length header_prefix) (strip raw).



End Blocks.


(** ** The message helpers *)

(** A small instance of the library, to run the helpers and the handlers on
    given inputs: it knows the charsets [utf-8] and [us-ascii] and decodes
    them byte by byte (which is what they do on 7-bit payloads), it decodes
    empty bytes to the empty string whatever the charset, it finds no
    encoded word in a header, and it parses raw bytes to a single-part
    [text/plain] message that has them as its payload. *)
Definition bytes_of (x : string) : bytes := list_byte_of_string x.

Definition plain_lib : email_lib :=
  mkLib (fun charset b =>
           match b with
           | [] => Ok []
           | _ =>
               if str_eqb charset (s "utf-8") || str_eqb charset (s "us-ascii")
               then Ok (map ascii_of_byte b) else Raise LookupError
           end)
        (fun v => Ok [(FStr v, None)])
        (fun raw => Leaf [] (s "text/plain") None (Some raw)).

Section Codec.

Variable lib : email_lib.

Lemma walk_head (m : message) : exists r, walk m = m :: r.
Proof. destruct m; cbn; eauto. Qed.

(** The first loop, when it returns, returns for a part of the list. *)
Lemma prefer_text_plain_part (ps : list message) (r : result str) :
  prefer_text_plain lib ps = Some r ->
  exists part, In part ps /\ get_content_type part = s "text/plain"
               /\ r = decode_part lib part.
Proof.
  induction ps as [|p ps IH]; cbn [prefer_text_plain]; [discriminate|].
  destruct (str_eqb (get_content_type p) (s "text/plain")) eqn:E.
  - intros [= <-]. apply str_eqb_eq in E. exists p. split; [now left|]. auto.
  - intros H. destruct (IH H) as (part & I & T & R). exists part.
    split; [now right|]. auto.
Qed.

(** [_extract_plain_text_body] always returns a string, and it is never an
    invented one: it is what one part of the message decodes to (the
    message itself when it is not multi-part), and the placeholder exactly
    when decoding that part raises. *)
Lemma extract_total (msg : message) :
  exists part,
    In part (walk msg)
    /\ (is_multipart msg = false -> part = msg)
    /\ _extract_plain_text_body lib msg
       = Some (match decode_part lib part with
               | Ok x => x
               | Raise _ => could_not_decode
               end).
Proof.
  unfold _extract_plain_text_body.
  destruct (walk_head msg) as [r W].
  destruct (is_multipart msg).
  - destruct (prefer_text_plain lib (walk msg)) as [res|] eqn:P.
    + destruct (prefer_text_plain_part _ P) as (part & I & _ & ->).
      exists part. split; [assumption|]. split; [discriminate|].
      now destruct (decode_part lib part).
    + exists msg. split; [rewrite W; now left|]. split; [discriminate|].
      rewrite W. cbn [fallback_first]. now destruct (decode_part lib msg).
  - exists msg. split; [rewrite W; now left|]. split; [reflexivity|].
    now destruct (decode_part lib msg).
Qed.

(** The first loop returns for the first part declared [text/plain]. *)
Lemma prefer_text_plain_first (before after : list message) (part : message) :
  Forall (fun p => get_content_type p <> s "text/plain") before ->
  get_content_type part = s "text/plain" ->
  prefer_text_plain lib (before ++ part :: after) = Some (decode_part lib part).
Proof.
  intros B P. induction B as [|p before Hp _ IH]; cbn [prefer_text_plain app].
  - now rewrite P, str_eqb_refl.
  - apply str_eqb_neq in Hp. now rewrite Hp.
Qed.

Lemma prefer_text_plain_none (ps : list message) :
  Forall (fun p => get_content_type p <> s "text/plain") ps ->
  prefer_text_plain lib ps = None.
Proof.
  induction 1 as [|p ps Hp _ IH]; cbn [prefer_text_plain]; [reflexivity|].
  apply str_eqb_neq in Hp. now rewrite Hp.
Qed.

(** For a multi-part message with a [text/plain] part, the body is that
    part's decoded payload, or the placeholder when decoding it raises. *)
Lemma extract_text_plain (msg part : message) (before after : list message) :
  is_multipart msg = true ->
  walk msg = before ++ part :: after ->
  Forall (fun p => get_content_type p <> s "text/plain") before ->
  get_content_type part = s "text/plain" ->
  _extract_plain_text_body lib msg
  = Some (match decode_part lib part with Ok x => x | Raise _ => could_not_decode end).
Proof.
  intros M W B P. unfold _extract_plain_text_body.
  rewrite M, W, (@prefer_text_plain_first before after part B P).
  now destruct (decode_part lib part).
Qed.

(** Without a [text/plain] part, the body is what the container itself
    decodes to: the second loop never reaches the sub-parts. *)
Lemma extract_fallback (msg : message) :
  is_multipart msg = true ->
  Forall (fun p => get_content_type p <> s "text/plain") (walk msg) ->
  _extract_plain_text_body lib msg
  = Some (match decode_part lib msg with Ok x => x | Raise _ => could_not_decode end).
Proof.
  intros M W. unfold _extract_plain_text_body.
  rewrite M, (@prefer_text_plain_none (walk msg) W).
  destruct (walk_head msg) as [r ->]. cbn.
  now destruct (decode_part lib msg).
Qed.

(** Empty bytes decode to the empty string, whatever the charset. *)
Definition decodes_empty : Prop :=
  forall charset, bytes_decode lib charset [] = Ok [].

(** So the body of a multi-part message without a [text/plain] part is the
    empty string, whatever its sub-parts hold: a container has no payload
    of its own. *)
Lemma extract_fallback_empty (msg : message) :
  decodes_empty ->
  is_multipart msg = true ->
  Forall (fun p => get_content_type p <> s "text/plain") (walk msg) ->
  _extract_plain_text_body lib msg = Some [].
Proof.
  intros D M W. rewrite (@extract_fallback msg M W).
  destruct msg as [|h t c ps]; [discriminate M|].
  unfold decode_part. cbn [get_payload_decoded]. now rewrite D.
Qed.

End Codec.

(** A multi-part message whose only part is HTML. *)
Definition html_part : message :=
  Leaf [] (s "text/html") None (Some (bytes_of "<p>hi</p>")).

Definition html_only : message :=
  Multi [] (s "multipart/alternative") None [html_part].

(** C3, at the failing input.  The message has no [text/plain] part and its
    HTML part decodes, yet the body is the empty string: the fallback loop
    returns in its first iteration, on the container, which has no payload
    to decode, and never reaches the part that can be decoded. *)
Theorem extract_fallback_stops_at_container :
  decode_part plain_lib html_part = Ok (s "<p>hi</p>")
  /\ get_payload_decoded html_only = None
  /\ _extract_plain_text_body plain_lib html_only = Some [].
Proof. repeat split; vm_compute; reflexivity. Qed.

(** ** Handlers and the record of network calls *)

Section Logs.

(** [logs P m]: whatever the state, running [m] only appends calls to the
    record, and each appended call satisfies [P]. *)
Definition logs {A} (P : call -> Prop) (m : M A) : Prop :=
  forall w, exists cs, net_log (snd (m w)) = net_log w ++ cs /\ Forall P cs.

Lemma logs_ret {A} P (a : A) : logs P (ret a).
Proof. intros w. exists []. cbn. now rewrite app_nil_r. Qed.

Lemma logs_raise {A} P (e : exn) : logs P (@raise A e).
Proof. intros w. exists []. cbn. now rewrite app_nil_r. Qed.

Lemma logs_lift {A} P (r : result A) : logs P (lift r).
Proof. intros w. exists []. cbn. now rewrite app_nil_r. Qed.

Lemma logs_read {A} P (f : world -> A) : logs P (read f).
Proof. intros w. exists []. cbn. now rewrite app_nil_r. Qed.

Lemma logs_modify P (f : world -> world) :
  (forall w, net_log (f w) = net_log w) -> logs P (modify f).
Proof. intros H w. exists []. cbn. now rewrite H, app_nil_r. Qed.

Lemma logs_bind {A B} P (m : M A) (k : A -> M B) :
  logs P m -> (forall a, logs P (k a)) -> logs P (bind m k).
Proof.
  intros Hm Hk w. unfold bind. destruct (Hm w) as [cs [E F]].
  destruct (m w) as [[a|e] w1]; cbn [snd] in *.
  - destruct (Hk a w1) as [cs' [E' F']].
    exists (cs ++ cs'). rewrite E', E, app_assoc. split; [reflexivity|].
    now apply Forall_app.
  - eauto.
Qed.

Lemma logs_try_except {A} P (m : M A) (h : exn -> M A) :
  logs P m -> (forall e, logs P (h e)) -> logs P (try_except m h).
Proof.
  intros Hm Hh w. unfold try_except. destruct (Hm w) as [cs [E F]].
  destruct (m w) as [[a|e] w1]; cbn [snd] in *.
  - eauto.
  - destruct (Hh e w1) as [cs' [E' F']].
    exists (cs ++ cs'). rewrite E', E, app_assoc. split; [reflexivity|].
    now apply Forall_app.
Qed.

Lemma logs_do_call {A} (P : call -> Prop) (c : call) (r : result A) :
  P c -> logs P (do_call c r).
Proof.
  intros H w. exists [c]. unfold do_call, bind, modify, lift. cbn.
  destruct r; cbn; auto.
Qed.

Lemma logs_MessageBox P (text title : str) : logs P (MessageBox text title).
Proof. apply logs_modify. reflexivity. Qed.

End Logs.

(** ** Sending: the recipients *)

Section Compose.

(** Each recipient is trimmed and not empty. *)
Lemma recipients_trimmed (to_addr : str) :
  Forall (fun a => strip a = a /\ a <> []) (recipients_of to_addr).
Proof.
  unfold recipients_of.
  induction (py_split ","%char to_addr) as [|x xs IH]; cbn [filter map];
    [constructor|].
  destruct (truthy (strip x)) eqn:T; [|assumption].
  cbn [map]. constructor; [|assumption].
  split; [apply strip_idem|now apply truthy_nonempty].
Qed.

(** The calls of the [try] block: whatever the server answers, mail is handed
    over for the given recipients only. *)
Lemma send_body_logs (srv : SmtpServer) (acc : AccountConfig)
    (recipients : list str) (subject body : str) :
  logs (fun c => forall f r m, c = smtp_sendmail f r m -> r = recipients)
       (send_body srv acc recipients subject body).
Proof.
  unfold send_body. cbv zeta.
  apply logs_bind; [|intros _].
  { destruct (smtp_port acc =? 465)%Z.
    - apply logs_do_call. discriminate.
    - apply logs_bind; [apply logs_do_call; discriminate|intros _].
      apply logs_try_except; [apply logs_do_call; discriminate|].
      intros _. apply logs_ret. }
  apply logs_bind; [apply logs_do_call; discriminate|intros _].
  apply logs_bind; [apply logs_do_call; now intros f r m [= _ <- _]|intros _].
  apply logs_bind; [apply logs_do_call; discriminate|intros _].
  apply logs_MessageBox.
Qed.

(** A server that accepts everything receives the message. *)
Lemma send_body_delivers (srv : SmtpServer) (acc : AccountConfig)
    (recipients : list str) (subject body : str) (w : world) :
  (forall ssl h p, reply_connect srv ssl h p = Ok tt) ->
  (forall u p, reply_login srv u p = Ok tt) ->
  exists msg,
    In (smtp_sendmail (email acc) recipients msg)
       (net_log (snd (send_body srv acc recipients subject body w))).
Proof.
  intros C L. unfold send_body. cbv zeta. eexists.
  unfold bind, do_call, try_except, modify, lift, ret, MessageBox.
  rewrite !C, !L.
  destruct (smtp_port acc =? 465)%Z; cbn;
    destruct (reply_starttls srv); cbn;
    destruct (reply_sendmail srv _ _ _); cbn;
    try destruct (reply_quit srv); cbn;
    rewrite ?in_app_iff; cbn; tauto.
Qed.

Definition accepting_smtp : SmtpServer :=
  mkSmtp (fun _ _ _ => Ok tt) (Ok tt) (fun _ _ => Ok tt) (fun _ _ _ => Ok tt) (Ok tt).

(** C7. The recipients of [on_compose] are the entries of the
    comma-separated To field, each trimmed, the empty ones left out: every
    message handed to the server goes to exactly that list; when the list is
    empty the send is refused with an error box and no call is made on any
    SMTP object; and a server that accepts everything receives the message
    for that list.  [a@x.com, ,b@x.com] gives the two addresses, and [ , ]
    is refused. *)
Theorem compose_recipients :
  (forall (srv : SmtpServer) (to subject body : str) (w : world) (addr : nat),
      active_account w = Some addr ->
      let w' := snd (on_compose srv (ComposeSend to subject body) w) in
      let recipients := recipients_of (strip to) in
      Forall (fun a => strip a = a /\ a <> []) recipients
      /\ (exists cs, net_log w' = net_log w ++ cs
                     /\ forall f r m, In (smtp_sendmail f r m) cs ->
                                      r = recipients /\ recipients <> [])
      /\ (recipients = [] ->
          net_log w' = net_log w
          /\ exists b, boxes w' = boxes w ++ [b] /\ box_title b = s "Error")
      /\ (recipients <> [] ->
          (forall ssl h p, reply_connect srv ssl h p = Ok tt) ->
          (forall u p, reply_login srv u p = Ok tt) ->
          exists msg,
            In (smtp_sendmail (email (deref (heap w) addr)) recipients msg)
               (net_log w')))
  /\ recipients_of (strip (s "a@x.com, ,b@x.com")) = [s "a@x.com"; s "b@x.com"]
  /\ recipients_of (strip (s " , ")) = [].
Proof.
  split; [|split; vm_compute; reflexivity].
  intros srv to subject body w addr A w' recipients.
  split; [apply recipients_trimmed|].
  subst w'. unfold on_compose, bind, read. rewrite A. cbn [fst snd].
  fold recipients.
  destruct (truthy (strip to)) eqn:T; cbn [negb].
  - destruct recipients as [|r0 rs] eqn:R.
    + split; [|split].
      * exists []. cbn. rewrite app_nil_r. split; [reflexivity|]. intros ? ? ? [].
      * intros _. cbn. split; [reflexivity|]. eexists. split; reflexivity.
      * intros N. now destruct N.
    + split; [|split].
      * assert (L : logs (fun c => forall f r m, c = smtp_sendmail f r m -> r = r0 :: rs)
                      (try_except
                         (send_body srv (deref (heap w) addr) (r0 :: rs) subject body)
                         (fun e => MessageBox (s "SMTP error:" ++ [LF] ++ exn_text e)
                                              (s "SMTP Error")))).
        { apply logs_try_except; [apply send_body_logs|].
          intros e. apply logs_MessageBox. }
        destruct (L w) as [cs [E F]]. exists cs. split; [exact E|].
        intros f r m Hin. rewrite Forall_forall in F.
        split; [now apply (F _ Hin f r m)|discriminate].
      * discriminate.
      * intros _ C L.
        destruct (@send_body_delivers srv (deref (heap w) addr) (r0 :: rs)
                    subject body w C L) as [msg Hin].
        exists msg. unfold try_except.
        destruct (send_body srv (deref (heap w) addr) (r0 :: rs) subject body w)
          as [[u|e] w1]; cbn [snd] in *; [assumption|].
        cbn. assumption.
  - (* the To field is blank: its list of recipients is empty *)
    assert (R : recipients = []).
    { subst recipients. destruct (strip to); [reflexivity|discriminate]. }
    rewrite R. split; [|split].
    + exists []. cbn. rewrite app_nil_r. split; [reflexivity|]. intros ? ? ? [].
    + intros _. cbn. split; [reflexivity|]. eexists. split; reflexivity.
    + intros N. now destruct N.
Qed.

End Compose.


(** ** Order *)

Section Order.

Context {A : Type}.
Variable R : A -> A -> Prop.

Lemma ssorted_app (a b : list A) :
  StronglySorted R (a ++ b) <->
  StronglySorted R a /\ StronglySorted R b
  /\ (forall x y, In x a -> In y b -> R x y).
Proof.
  induction a as [|c a IH]; cbn [app].
  - split; [intros H|intros (_ & H & _); exact H].
    split; [constructor|]. split; [assumption|]. intros x y [].
  - split.
    + intros H. apply StronglySorted_inv in H as [H F].
      apply IH in H as (Ha & Hb & Hab). apply Forall_app in F as [Fa Fb].
      split; [now constructor|]. split; [assumption|].
      intros x y [<-|Hx] Hy; [|auto].
      rewrite Forall_forall in Fb. auto.
    + intros (Ha & Hb & Hab). apply StronglySorted_inv in Ha as [Ha Fa].
      constructor.
      * apply IH. split; [assumption|]. split; [assumption|].
        intros x y Hx Hy. apply Hab; [now right|assumption].
      * apply Forall_app. split; [assumption|].
        apply Forall_forall. intros y Hy. apply Hab; [now left|assumption].
Qed.

Lemma ssorted_skipn (n : nat) (l : list A) :
  StronglySorted R l -> StronglySorted R (skipn n l).
Proof.
  intros H. rewrite <- (firstn_skipn n l) in H. now apply ssorted_app in H.
Qed.

Lemma ssorted_firstn (n : nat) (l : list A) :
  StronglySorted R l -> StronglySorted R (firstn n l).
Proof.
  intros H. rewrite <- (firstn_skipn n l) in H. now apply ssorted_app in H.
Qed.

Lemma ssorted_filter (f : A -> bool) (l : list A) :
  StronglySorted R l -> StronglySorted R (filter f l).
Proof.
  induction 1 as [|a l H IH F]; cbn [filter]; [constructor|].
  destruct (f a); [|assumption].
  constructor; [assumption|].
  apply Forall_forall. intros y Hy. apply filter_In in Hy as [Hy _].
  rewrite Forall_forall in F. auto.
Qed.

End Order.

(** Reading an ascending list backwards gives a descending one. *)
Lemma ssorted_rev {A} (R : A -> A -> Prop) (l : list A) :
  StronglySorted R l -> StronglySorted (fun x y => R y x) (rev l).
Proof.
  induction 1 as [|a l H IH F]; cbn [rev]; [constructor|].
  apply ssorted_app. split; [assumption|]. split; [repeat constructor|].
  intros x y Hx [<-|[]]. apply in_rev in Hx.
  rewrite Forall_forall in F. auto.
Qed.

Lemma last_n_length {A} (n : nat) (l : list A) :
  length (last_n n l) = Nat.min n (length l).
Proof. unfold last_n. rewrite length_skipn. lia. Qed.

(** ** Fetching *)

Section Fetch.

Variable lib : email_lib.
Variable srv : ImapServer.

(** What one turn of the fetch loop makes of a message id: an entry, nothing
    (the response is skipped), or an exception. *)
Definition fetch_outcome (msg_id : bytes) : result (option entry) :=
  (r <- answer_fetch srv msg_id ;;
   if skip_response (fst r) (snd r) then Ok None
   else
     msg <- parse_first lib (snd r) ;;
     Ok (Some (mkEntry msg_id
                 (or_else (_decode_mime_header lib (msg_get "Subject" msg)) (s "(no subject)"))
                 (or_else (_decode_mime_header lib (msg_get "From" msg)) [])
                 (or_else (_decode_mime_header lib (msg_get "To" msg)) [])
                 (_extract_plain_text_body lib msg))))%py.

Definition add_entry (e : entry) (w : world) : world :=
  set_email_list (email_list w ++ [entry_subject e])
                 (set_messages (messages w ++ [e]) w).

Lemma fetch_one_outcome (msg_id : bytes) (w : world) :
  fetch_one lib srv msg_id w
  = match fetch_outcome msg_id with
    | Ok (Some e) => (Ok tt, add_entry e (log_call (imap_fetch msg_id) w))
    | Ok None => (Ok tt, log_call (imap_fetch msg_id) w)
    | Raise e => (Raise e, log_call (imap_fetch msg_id) w)
    end.
Proof.
  unfold fetch_one, fetch_outcome, do_call, bind, modify, lift.
  destruct (answer_fetch srv msg_id) as [[status data]|e]; cbn [rbind fst snd];
    [|reflexivity].
  destruct (skip_response status data); [reflexivity|].
  destruct (parse_first lib data) as [msg|e]; reflexivity.
Qed.

(** The loop over the ids: the ids fetched (the loop stops at the first
    exception), the entries appended, and how the loop ends. *)
Fixpoint fetch_run (ids : list bytes) : list bytes * list entry * result unit :=
  match ids with
  | [] => ([], [], Ok tt)
  | msg_id :: r =>
      match fetch_outcome msg_id with
      | Raise e => ([msg_id], [], Raise e)
      | Ok o =>
          let '(fetched, es, res) := fetch_run r in
          (msg_id :: fetched, match o with Some e => e :: es | None => es end, res)
      end
  end.

Definition after_fetch (fetched : list bytes) (es : list entry) (w : world) : world :=
  mkWorld (heap w) (accounts w) (active_account w) (messages w ++ es)
          (email_list w ++ map entry_subject es)
          (lbl_from_value w) (lbl_to_value w) (lbl_subject_value w)
          (body_text w) (file w) (net_log w ++ map imap_fetch fetched) (boxes w).

Lemma fetch_all_run (ids : list bytes) (w : world) :
  fetch_all lib srv ids w
  = let '(fetched, es, res) := fetch_run ids in (res, after_fetch fetched es w).
Proof.
  revert w. induction ids as [|msg_id ids IH]; intros w; cbn [fetch_all fetch_run].
  - unfold ret, after_fetch. destruct w; cbn. now rewrite !app_nil_r.
  - unfold bind. rewrite fetch_one_outcome.
    destruct (fetch_outcome msg_id) as [[e|]|e].
    + rewrite IH. destruct (fetch_run ids) as [[fetched es] res].
      unfold after_fetch, add_entry, log_call, set_email_list, set_messages.
      destruct w; cbn. now rewrite <- !app_assoc.
    + rewrite IH. destruct (fetch_run ids) as [[fetched es] res].
      unfold after_fetch, log_call. destruct w; cbn. now rewrite <- !app_assoc.
    + unfold after_fetch, log_call. destruct w; cbn. now rewrite !app_nil_r.
Qed.

(** The response to [msg_id] is not skipped. *)
Definition kept (msg_id : bytes) : bool :=
  match answer_fetch srv msg_id with
  | Ok r => negb (skip_response (fst r) (snd r))
  | Raise _ => false
  end.

Lemma outcome_kept (msg_id : bytes) :
  match fetch_outcome msg_id with
  | Ok (Some e) => kept msg_id = true /\ entry_id e = msg_id
  | Ok None => kept msg_id = false
  | Raise _ => True
  end.
Proof.
  unfold fetch_outcome, kept.
  destruct (answer_fetch srv msg_id) as [[status data]|e]; cbn [rbind fst snd];
    [|exact I].
  destruct (skip_response status data); [reflexivity|].
  destruct (parse_first lib data); cbn [rbind]; auto.
Qed.

(** The ids fetched are a prefix of the ids given, and the entries are those
    of the fetched ids whose response is kept, in that order, but for the id
    the loop stops at. *)
Lemma fetch_run_prefix (ids : list bytes) :
  exists k,
    fst (fst (fetch_run ids)) = firstn k ids
    /\ exists j, j <= k
       /\ map entry_id (snd (fst (fetch_run ids))) = filter kept (firstn j ids).
Proof.
  induction ids as [|msg_id ids (k & Hk & j & Hj & He)]; cbn [fetch_run].
  - exists 0. split; [reflexivity|]. exists 0. auto.
  - pose proof (outcome_kept msg_id) as O.
    destruct (fetch_outcome msg_id) as [[e|]|e].
    + destruct O as [K E].
      destruct (fetch_run ids) as [[fetched es] res]. cbn [fst snd] in *.
      exists (S k). split; [cbn; now rewrite Hk|].
      exists (S j). split; [lia|]. cbn [firstn filter map].
      now rewrite K, E, He.
    + destruct (fetch_run ids) as [[fetched es] res]. cbn [fst snd] in *.
      exists (S k). split; [cbn; now rewrite Hk|].
      exists (S j). split; [lia|]. cbn [firstn filter]. now rewrite O.
    + cbn [fst snd]. exists 1. split; [reflexivity|]. exists 0. auto.
Qed.

(** The response carries a message: status OK and a pair first. *)
Definition well_formed_response (msg_id : bytes) : Prop :=
  exists line literal rest,
    answer_fetch srv msg_id = Ok (OK, ItemPair line literal :: rest).

Lemma fetch_run_all (ids : list bytes) :
  Forall well_formed_response ids ->
  fst (fst (fetch_run ids)) = ids
  /\ map entry_id (snd (fst (fetch_run ids))) = ids
  /\ snd (fetch_run ids) = Ok tt.
Proof.
  induction 1 as [|msg_id ids (l & lit & rest & A) _ (IH1 & IH2 & IH3)];
    cbn [fetch_run]; [auto|].
  unfold fetch_outcome. rewrite A. cbn [rbind fst snd parse_first].
  change (skip_response OK (ItemPair l lit :: rest)) with false. cbv iota.
  destruct (fetch_run ids) as [[fetched es] res]. cbn [fst snd map entry_id] in *.
  now rewrite IH1, IH2.
Qed.

(** *** The whole refresh *)

(** The ids of the FETCH commands among some calls. *)
Definition fetch_ids (cs : list call) : list bytes :=
  flat_map (fun c => match c with imap_fetch i => [i] | _ => [] end) cs.

Lemma fetch_ids_app (a b : list call) : fetch_ids (a ++ b) = fetch_ids a ++ fetch_ids b.
Proof. apply flat_map_app. Qed.

Lemma fetch_ids_fetches (ids : list bytes) : fetch_ids (map imap_fetch ids) = ids.
Proof.
  induction ids as [|i ids IH]; [reflexivity|].
  unfold fetch_ids in *. cbn [map flat_map app]. now rewrite IH.
Qed.

(** The session is set up and SEARCH answers with the id list [b]. *)
Definition inbox_listed (acc : AccountConfig) (b : bytes) : Prop :=
  (forall ssl, answer_connect srv ssl (imap_server acc) (imap_port acc) = Ok tt)
  /\ answer_login srv (email acc) (password acc) = Ok tt
  /\ answer_select srv (s "INBOX") = Ok OK
  /\ exists rest, answer_search srv = Ok (OK, Some b :: rest).

(** With the inbox listed, the refresh fetches along [rev (last_n 20 ids)]
    and leaves in [self.messages] the entries of that run. *)
Lemma refresh_body_run (acc : AccountConfig) (b : bytes) (w : world) :
  inbox_listed acc b ->
  let run := fetch_run (rev (last_n 20 (bytes_split b))) in
  let w' := snd (refresh_body lib srv acc w) in
  messages w' = snd (fst run)
  /\ exists cs, net_log w' = net_log w ++ cs /\ fetch_ids cs = fst (fst run).
Proof.
  intros (C & L & S & rest & Q). cbv zeta.
  unfold refresh_body, bind, do_call, try_except, modify, lift, ret, raise,
    clear_messages, bind, modify.
  rewrite !C, L, S, Q. cbn [fst snd search_ids].
  change (str_eqb OK OK) with true. cbn [negb].
  assert (F : forall w0 : world,
             messages w0 = [] ->
             let run := fetch_run (rev (last_n 20 (bytes_split b))) in
             let r := fetch_all lib srv (rev (last_n 20 (bytes_split b))) w0 in
             messages (snd r) = snd (fst run)
             /\ net_log (snd r) = net_log w0 ++ map imap_fetch (fst (fst run))
             /\ fst r = snd run).
  { intros w0 M. cbv zeta. rewrite fetch_all_run.
    destruct (fetch_run _) as [[fetched es] res]. cbn [fst snd after_fetch messages net_log].
    now rewrite M. }
  destruct (imap_port acc =? 993)%Z; [|destruct (answer_starttls srv)];
    (destruct (bytes_split b) as [|i0 ids] eqn:B;
     [ cbn [fst snd]; destruct (answer_close srv); cbn [fst snd];
       (split; [reflexivity|]); eexists;
       (split; [cbn [net_log log_call set_body_text set_messages set_email_list];
                repeat rewrite <- app_assoc; reflexivity|]);
       repeat rewrite fetch_ids_app; reflexivity
     | cbn [fst snd];
       match goal with
       | |- context [fetch_all lib srv _ ?w0] =>
           destruct (F w0 eq_refl) as (M & N & R);
           destruct (fetch_all lib srv _ w0) as [[u|e'] w1]
       end; cbn [fst snd] in *;
       [ destruct (answer_close srv); cbn [fst snd] | ];
       cbn [messages net_log log_call set_body_text set_messages set_email_list];
       rewrite ?M, ?N;
       cbn [messages net_log log_call set_body_text set_messages set_email_list];
       (split; [reflexivity|]); eexists;
       (split; [repeat rewrite <- app_assoc; reflexivity|]);
       repeat rewrite fetch_ids_app; rewrite fetch_ids_fetches;
       cbn; now rewrite ?app_nil_r ]).
Qed.

(** The handlers of [on_refresh] only show a message box. *)
Lemma on_refresh_body (w : world) (addr : nat) :
  active_account w = Some addr ->
  let w' := snd (on_refresh lib srv w) in
  let w1 := snd (refresh_body lib srv (deref (heap w) addr) w) in
  messages w' = messages w1 /\ net_log w' = net_log w1.
Proof.
  intros A. cbv zeta. unfold on_refresh, bind, read, try_except. rewrite A.
  cbn [fst snd].
  destruct (refresh_body lib srv (deref (heap w) addr) w) as [[u|e] w1];
    cbn [snd]; [auto|].
  destruct e; cbn; auto.
Qed.

(** C6. With the session set up and SEARCH answering with [ids], the refresh
    fetches along the last 20 ids read backwards (stopping only if a fetch
    raises), and [self.messages] holds, in that order, the fetched ids whose
    response was kept: at most 20 entries, newest first when the server
    lists ids oldest first.  When every response carries a message the
    entries are exactly the last 20 ids backwards, so 25 ids give 20
    entries. *)
Theorem refresh_newest_first (w : world) (addr : nat) (b : bytes) :
  active_account w = Some addr ->
  inbox_listed (deref (heap w) addr) b ->
  let ids := bytes_split b in
  let slice := rev (last_n 20 ids) in
  let w' := snd (on_refresh lib srv w) in
  (exists cs k, net_log w' = net_log w ++ cs /\ fetch_ids cs = firstn k slice)
  /\ (exists j, map entry_id (messages w') = filter kept (firstn j slice))
  /\ length (messages w') <= 20
  /\ (forall R : bytes -> bytes -> Prop,
        StronglySorted R ids ->
        StronglySorted (fun x y => R y x) (map entry_id (messages w')))
  /\ (Forall well_formed_response ids ->
      map entry_id (messages w') = slice
      /\ (length ids = 25 -> length (messages w') = 20)).
Proof.
  intros A I. cbv zeta.
  destruct (on_refresh_body w A) as [M N]. rewrite M, N. clear M N.
  destruct (refresh_body_run w I) as [M (cs & N & F)]. rewrite M, N. clear M N.
  set (slice := rev (last_n 20 (bytes_split b))) in *.
  destruct (fetch_run_prefix slice) as (k & Hk & j & Hj & He).
  assert (L : length slice <= 20).
  { subst slice. rewrite length_rev, last_n_length. lia. }
  split; [exists cs, k; split; [reflexivity|congruence]|].
  split; [exists j; exact He|].
  split.
  { rewrite <- (length_map entry_id), He.
    etransitivity; [apply filter_length_le|].
    rewrite length_firstn. lia. }
  split.
  { intros R S. rewrite He.
    apply ssorted_filter, ssorted_firstn. subst slice.
    apply ssorted_rev. unfold last_n. now apply ssorted_skipn. }
  intros W.
  assert (Ws : Forall well_formed_response slice).
  { apply Forall_forall. intros i Hi. rewrite Forall_forall in W. apply W.
    subst slice. apply in_rev in Hi. unfold last_n in Hi.
    rewrite <- (firstn_skipn (length (bytes_split b) - 20)).
    apply in_or_app. now right. }
  destruct (fetch_run_all Ws) as (_ & E & _).
  split; [exact E|].
  intros L25. rewrite <- (length_map entry_id), E. subst slice.
  rewrite length_rev, last_n_length, L25. reflexivity.
Qed.

End Fetch.


(** ** Refreshing: the paths that go wrong *)

Section RefreshPaths.

Variable lib : email_lib.
Variable srv : ImapServer.

(** A response that the guard skips costs nothing: the loop goes on with
    the next id. *)
Lemma fetch_run_skip (msg_id : bytes) (ids : list bytes) (status : str) (data : list item) :
  answer_fetch srv msg_id = Ok (status, data) ->
  skip_response status data = true ->
  fetch_run lib srv (msg_id :: ids)
  = let '(fetched, es, res) := fetch_run lib srv ids in (msg_id :: fetched, es, res).
Proof.
  intros A S. cbn [fetch_run]. unfold fetch_outcome. rewrite A.
  cbn [rbind fst snd]. now rewrite S.
Qed.

(** The guard skips a status other than OK, an empty data list, and a data
    list that starts with [None]; nothing else. *)
Lemma skip_response_iff (status : str) (data : list item) :
  skip_response status data = true <->
  status <> OK \/ data = [] \/ exists rest, data = ItemNone :: rest.
Proof.
  unfold skip_response. rewrite orb_true_iff, negb_true_iff, str_eqb_neq.
  split; (intros [H|H]; [now left|right]).
  - destruct data as [|[| |] rest]; try discriminate; eauto.
  - destruct H as [->|[rest ->]]; reflexivity.
Qed.

(** A response that passes the guard with bare bytes first stops the loop:
    the ids after it are never fetched. *)
Lemma fetch_run_bare_bytes (msg_id : bytes) (ids : list bytes) (b : bytes)
    (rest : list item) :
  answer_fetch srv msg_id = Ok (OK, ItemBytes b :: rest) ->
  exists e, fetch_run lib srv (msg_id :: ids) = ([msg_id], [], Raise e).
Proof.
  intros A. cbn [fetch_run]. unfold fetch_outcome. rewrite A.
  cbn [rbind fst snd].
  change (skip_response OK (ItemBytes b :: rest)) with false. cbv iota.
  cbn [parse_first]. destruct b as [|? [|? ?]]; cbn [rbind]; eauto.
Qed.

Definition any_call (c : call) : Prop := True.

Lemma logs_fetch_all (ids : list bytes) : logs any_call (fetch_all lib srv ids).
Proof.
  intros w. rewrite fetch_all_run.
  destruct (fetch_run lib srv ids) as [[fetched es] res]. cbn [snd after_fetch net_log].
  eexists. split; [reflexivity|]. apply Forall_forall. now intros.
Qed.

(** [closes m]: when [m] returns, the last two calls it made are CLOSE and
    LOGOUT. *)
Definition closes {A} (m : M A) : Prop :=
  forall w, (exists a, fst (m w) = Ok a) ->
            exists cs, net_log (snd (m w)) = net_log w ++ cs ++ [imap_close; imap_logout].

Lemma closes_bind {A B} (m : M A) (k : A -> M B) :
  logs any_call m -> (forall a, closes (k a)) -> closes (bind m k).
Proof.
  intros Hm Hk w [b Hb]. unfold bind in *. destruct (Hm w) as [cs [E _]].
  destruct (m w) as [[a|e] w1]; cbn [snd] in *; [|discriminate].
  destruct (Hk a w1) as [cs' E']; [eauto|].
  exists (cs ++ cs'). now rewrite E', E, <- !app_assoc.
Qed.

Lemma closes_close_logout (rc rl : result unit) :
  closes (bind (do_call imap_close rc) (fun _ => do_call imap_logout rl)).
Proof.
  intros w [a Ha]. exists []. revert Ha.
  unfold bind, do_call, bind, modify, lift.
  destruct rc; cbn; [|discriminate]. intros _. now rewrite <- app_assoc.
Qed.

(** When the body of the refresh returns, the session was closed and logged
    out last. *)
Lemma refresh_body_closes (acc : AccountConfig) : closes (refresh_body lib srv acc).
Proof.
  unfold refresh_body.
  apply closes_bind; [now apply logs_modify|intros _].
  apply closes_bind; [|intros _].
  { destruct (imap_port acc =? 993)%Z.
    - now apply logs_do_call.
    - apply logs_bind; [now apply logs_do_call|intros _].
      apply logs_try_except; [now apply logs_do_call|intros _; apply logs_ret]. }
  apply closes_bind; [now apply logs_do_call|intros _].
  apply closes_bind; [now apply logs_do_call|intros status].
  apply closes_bind; [destruct (negb _); [apply logs_raise|apply logs_ret]|intros _].
  apply closes_bind; [now apply logs_do_call|intros sd].
  apply closes_bind; [destruct (negb _); [apply logs_raise|apply logs_ret]|intros _].
  apply closes_bind; [apply logs_lift|intros ids].
  assert (C : logs any_call clear_messages).
  { apply logs_bind; [now apply logs_modify|intros _; now apply logs_modify]. }
  destruct ids as [|i0 ids].
  - apply closes_bind; [exact C|intros _].
    apply closes_bind; [now apply logs_modify|intros _].
    apply closes_close_logout.
  - apply closes_bind; [exact C|intros _].
    apply closes_bind; [apply logs_fetch_all|intros _].
    apply closes_bind; [now apply logs_modify|intros _].
    apply closes_close_logout.
Qed.

End RefreshPaths.

(** *** Servers to run the refresh against *)

Definition work_account : AccountConfig :=
  mkAccount (s "work") (s "me@example.org") (s "secret")
            (s "imap.example.org") 993 (s "smtp.example.org") 587.

Definition home_account : AccountConfig :=
  mkAccount (s "home") (s "me@example.net") (s "hunter2")
            (s "imap.example.net") 993 (s "smtp.example.net") 587.

(** The frame with the two accounts, [work] being the active one. *)
Definition two_accounts : world :=
  mkWorld [work_account; home_account] [(s "work", 0); (s "home", 1)] (Some 0)
          [] [] [] [] [] [] None [] [].

(** A server with the messages 1 and 2 in the inbox. *)
Definition good_imap : ImapServer :=
  mkImap (fun _ _ _ => Ok tt) (Ok tt) (fun _ _ => Ok tt) (fun _ => Ok OK)
         (Ok (OK, [Some (bytes_of "1 2")]))
         (fun i => Ok (OK, [ItemPair (i ++ bytes_of " (RFC822 {5}") (bytes_of "hello");
                            ItemBytes (bytes_of ")")]))
         (Ok tt) (Ok tt).

(** The same server, rejecting the password. *)
Definition login_rejected : ImapServer :=
  mkImap (answer_connect good_imap) (answer_starttls good_imap)
         (fun _ _ => Raise (IMAP4_error (s "LOGIN failed")))
         (answer_select good_imap) (answer_search good_imap)
         (answer_fetch good_imap) (answer_close good_imap) (answer_logout good_imap).

(** The same server, refusing to open the inbox. *)
Definition select_refused : ImapServer :=
  mkImap (answer_connect good_imap) (answer_starttls good_imap)
         (answer_login good_imap) (fun _ => Ok (s "NO"))
         (answer_search good_imap)
         (answer_fetch good_imap) (answer_close good_imap) (answer_logout good_imap).

Definition byte_eqb (a b : bytes) : bool :=
  if list_eq_dec Byte.byte_eq_dec a b then true else false.

(** The same server, answering the fetch of message 2 with an unsolicited
    flags line before the message. *)
Definition flags_first : ImapServer :=
  mkImap (answer_connect good_imap) (answer_starttls good_imap)
         (answer_login good_imap) (answer_select good_imap)
         (answer_search good_imap)
         (fun i => if byte_eqb i (bytes_of "2")
                   then Ok (OK, [ItemBytes (bytes_of "2 (FLAGS (Seen))");
                                 ItemPair (bytes_of "2 (RFC822 {5}") (bytes_of "hello");
                                 ItemBytes (bytes_of ")")])
                   else answer_fetch good_imap i)
         (answer_close good_imap) (answer_logout good_imap).

(** The same server, answering the fetch of message 2 with NO. *)
Definition no_for_two : ImapServer :=
  mkImap (answer_connect good_imap) (answer_starttls good_imap)
         (answer_login good_imap) (answer_select good_imap)
         (answer_search good_imap)
         (fun i => if byte_eqb i (bytes_of "2") then Ok (s "NO", [ItemNone])
                   else answer_fetch good_imap i)
         (answer_close good_imap) (answer_logout good_imap).

Definition refreshed (srv : ImapServer) : world :=
  snd (on_refresh plain_lib srv two_accounts).

(** C2, at the failing inputs.  The server accepts the connection and then
    rejects the password, or refuses SELECT, or sends a response the loop
    cannot parse: each time [on_refresh] returns after its last recorded
    call, and neither CLOSE nor LOGOUT is among the calls.  Against the
    server that answers everything the calls end with CLOSE and LOGOUT. *)
Theorem refresh_error_skips_logout :
  net_log (refreshed login_rejected)
  = [IMAP4_SSL (s "imap.example.org") 993; imap_login (s "me@example.org") (s "secret")]
  /\ net_log (refreshed select_refused)
     = [IMAP4_SSL (s "imap.example.org") 993;
        imap_login (s "me@example.org") (s "secret"); imap_select (s "INBOX")]
  /\ net_log (refreshed flags_first)
     = [IMAP4_SSL (s "imap.example.org") 993;
        imap_login (s "me@example.org") (s "secret"); imap_select (s "INBOX");
        imap_search; imap_fetch (bytes_of "2")]
  /\ net_log (refreshed good_imap)
     = [IMAP4_SSL (s "imap.example.org") 993;
        imap_login (s "me@example.org") (s "secret"); imap_select (s "INBOX");
        imap_search; imap_fetch (bytes_of "2"); imap_fetch (bytes_of "1");
        imap_close; imap_logout].
Proof. repeat split; vm_compute; reflexivity. Qed.

(** C4, at the failing input.  Message 2 is answered with status OK and a
    data list whose first element is bare bytes: the guard lets it through,
    parsing raises, the loop ends, message 1 is never fetched and no entry
    is kept.  When message 2 is answered with NO instead, it is skipped and
    message 1 is fetched and kept. *)
Theorem refresh_bare_bytes_aborts :
  fetch_ids (net_log (refreshed flags_first)) = [bytes_of "2"]
  /\ messages (refreshed flags_first) = []
  /\ map box_title (boxes (refreshed flags_first)) = [s "Error"]
  /\ fetch_ids (net_log (refreshed no_for_two)) = [bytes_of "2"; bytes_of "1"]
  /\ map entry_id (messages (refreshed no_for_two)) = [bytes_of "1"]
  /\ boxes (refreshed no_for_two) = [].
Proof. repeat split; vm_compute; reflexivity. Qed.


(** ** Account operations *)

Section Heap.

Lemma deref_store_same (a : nat) (v : AccountConfig) (h : list AccountConfig) :
  a < length h -> deref (store a v h) a = v.
Proof.
  unfold deref. revert a. induction h as [|x h IH]; intros [|a] L; cbn in *;
    try lia; [reflexivity|]. apply IH. lia.
Qed.

Lemma deref_store_other (a b : nat) (v : AccountConfig) (h : list AccountConfig) :
  b <> a -> deref (store a v h) b = deref h b.
Proof.
  unfold deref. revert a b. induction h as [|x h IH]; intros [|a] [|b] N; cbn;
    try reflexivity; try contradiction. apply IH. congruence.
Qed.

Lemma length_store (a : nat) (v : AccountConfig) (h : list AccountConfig) :
  length (store a v h) = length h.
Proof.
  revert a. induction h as [|x h IH]; intros [|a]; cbn; auto.
Qed.

End Heap.

Section Manager.

(** The frame's mapping is a dictionary keyed by the names of the accounts
    it holds, and the active account is one of them. *)
Definition coherent (w : world) : Prop :=
  NoDup (keys (accounts w))
  /\ (forall k a, get k (accounts w) = Some a -> name (deref (heap w) a) = k)
  /\ (forall a, active_account w = Some a -> exists k, get k (accounts w) = Some a).

(** Deleting the account [selected] of a coherent frame removes its name
    from the mapping, leaves the other names bound as they were, and writes
    the remaining accounts to the store.  If it was the active account, no
    account is active afterwards and the message list is empty; otherwise
    the active account and the message list are as before. *)
Theorem delete_account (w : world) (selected : str) (addr : nat) :
  coherent w ->
  get selected (accounts w) = Some addr ->
  let r := on_delete_account (Some selected) w in
  let w' := snd r in
  fst r = Ok tt
  /\ get selected (accounts w') = None
  /\ (forall k, k <> selected -> get k (accounts w') = get k (accounts w))
  /\ heap w' = heap w
  /\ file w' = Some (save_all_accounts (resolve (heap w') (accounts w')))
  /\ (active_account w = Some addr ->
      active_account w' = None /\ messages w' = [])
  /\ (active_account w <> Some addr ->
      active_account w' = active_account w /\ messages w' = messages w).
Proof.
  intros (ND & K & A) G. cbv zeta.
  unfold on_delete_account, bind, read, lift, delitem, mem, persist, modify,
    clear_messages, reset_labels, bind, modify, ret.
  cbn [fst snd]. rewrite G.
  destruct (accounts w) as [|kv d] eqn:E; [discriminate G|]. rewrite <- E in *.
  cbn [fst snd].
  assert (R1 : get selected (remove_key selected (accounts w)) = None)
    by now apply get_remove_key_same.
  assert (R2 : forall k, k <> selected ->
                 get k (remove_key selected (accounts w)) = get k (accounts w))
    by (intros; now apply get_remove_key_other).
  destruct (active_account w) as [act|] eqn:Act.
  - destruct (str_eqb (name (deref (heap w) act)) selected) eqn:N; cbn;
      (split; [reflexivity|]); (split; [exact R1|]); (split; [exact R2|]);
      (split; [reflexivity|]); (split; [reflexivity|]); split.
    + auto.
    + apply str_eqb_eq in N. intros H. exfalso. apply H. f_equal.
      destruct (A act eq_refl) as [k Hk]. rewrite <- (K _ _ Hk) in Hk.
      congruence.
    + apply str_eqb_neq in N. intros [= ->]. exfalso. apply N. now apply K.
    + auto.
  - cbn. split; [reflexivity|]. split; [exact R1|]. split; [exact R2|].
    split; [reflexivity|]. split; [reflexivity|]. split; [discriminate|auto].
Qed.

(** Fields of the form after [on_save]'s trimming, on top of an old name. *)
Definition edited (old_name : str) (f : form) (ip sp : Z) : AccountConfig :=
  mkAccount old_name (strip (txt_email f)) (txt_password f)
            (strip (txt_imap_server f)) ip (strip (txt_smtp_server f)) sp.

Lemma on_save_valid (addr : nat) (f : form) (ip sp : Z) (w : world) :
  strip (txt_name f) <> [] -> strip (txt_email f) <> [] ->
  parse_ports f = Ok (ip, sp) ->
  on_save addr f w
  = (Ok true, set_heap (store addr (edited (strip (txt_name f)) f ip sp) (heap w)) w).
Proof.
  intros N E P. unfold on_save. cbv zeta.
  apply truthy_nonempty in N, E. rewrite N, E, P. reflexivity.
Qed.

(** An edit that collides.  The active account is edited, the form passes
    validation, and its name is the name of a different account: the mapping
    is left as it was, the other accounts' objects are untouched, and the
    active account keeps its old name.  Its remaining fields are those of
    the form, and the store is written with them; so the account's data is
    unchanged exactly when the form repeats its other fields. *)
Theorem rename_collision (w : world) (addr other : nat) (f : form)
    (rest : list dialog_step) (ip sp : Z) :
  active_account w = Some addr -> addr < length (heap w) ->
  strip (txt_name f) <> [] -> strip (txt_email f) <> [] ->
  parse_ports f = Ok (ip, sp) ->
  strip (txt_name f) <> name (deref (heap w) addr) ->
  get (strip (txt_name f)) (accounts w) = Some other -> other <> addr ->
  let r := on_edit_active_account (ClickSave f :: rest) w in
  let w' := snd r in
  let old := deref (heap w) addr in
  fst r = Ok tt
  /\ accounts w' = accounts w
  /\ active_account w' = Some addr
  /\ (forall a, a <> addr -> deref (heap w') a = deref (heap w) a)
  /\ deref (heap w') addr = edited (name old) f ip sp
  /\ (deref (heap w') addr = old <-> edited (name old) f ip sp = old)
  /\ file w' = Some (save_all_accounts (resolve (heap w') (accounts w')))
  /\ exists b, boxes w' = boxes w ++ [b] /\ box_title b = s "Error".
Proof.
  intros A L N E P C G O. cbv zeta.
  set (old := deref (heap w) addr) in *.
  assert (S : forall v v' a h, store a v' (store a v h) = store a v' h).
  { intros v v' a h. revert a. induction h as [|x h IH]; intros [|a]; cbn;
      try reflexivity. now rewrite IH. }
  assert (Run : exists W,
             on_edit_active_account (ClickSave f :: rest) w = (Ok tt, W)
             /\ heap W = store addr (edited (name old) f ip sp) (heap w)
             /\ accounts W = accounts w
             /\ active_account W = Some addr
             /\ file W = Some (save_all_accounts (resolve (heap W) (accounts W)))
             /\ exists b, boxes W = boxes w ++ [b] /\ box_title b = s "Error").
  { unfold on_edit_active_account, bind, read. rewrite A. cbn [fst snd ShowModal].
    unfold bind at 1. rewrite (@on_save_valid addr f ip sp w N E P).
    cbn [fst snd ret]. cbn [heap set_heap accounts].
    rewrite deref_store_same by assumption. cbn [name edited].
    unfold or_else. rewrite (proj2 (truthy_nonempty _) N).
    fold old. rewrite (proj2 (str_eqb_neq _ _) C). cbn [negb fst snd].
    unfold taken_by_other. cbn [accounts set_heap]. rewrite G.
    rewrite (proj2 (Nat.eqb_neq other addr) O). cbn [negb].
    unfold MessageBox, set_name, persist, modify. cbn [fst snd].
    eexists. split; [reflexivity|].
    cbn [heap set_heap add_box accounts active_account file set_file boxes].
    rewrite deref_store_same by assumption.
    cbn [name email password imap_server imap_port smtp_server smtp_port edited].
    rewrite S. unfold edited.
    split; [reflexivity|]. split; [reflexivity|]. split; [assumption|].
    split; [reflexivity|]. eexists. split; reflexivity. }
  destruct Run as (W & -> & H & Ac & Act & F & B). cbn [fst snd].
  assert (D : deref (heap W) addr = edited (name old) f ip sp).
  { rewrite H. now apply deref_store_same. }
  split; [reflexivity|]. split; [assumption|]. split; [assumption|].
  split; [intros a Ha; rewrite H; now apply deref_store_other|].
  split; [exact D|]. split; [now rewrite D|]. split; assumption.
Qed.

End Manager.

(** The form that renames [work] to [home] and changes its address. *)
Definition colliding_form : form :=
  mkForm (s "home") (s "new@example.org") (s "secret")
         (s "imap.example.org") (s "993") (s "smtp.example.org") (s "587").

(** A form that takes the name [home] of the other account and a new
    address as well: the name is refused and [work] keeps its name, but the
    address entered in the same form is stored. *)
Lemma rename_collision_keeps_edits :
  active_account two_accounts = Some 0
  /\ get (strip (txt_name colliding_form)) (accounts two_accounts) = Some 1
  /\ name (deref (heap (snd (on_edit_active_account [ClickSave colliding_form]
                               two_accounts))) 0) = s "work"
  /\ email (deref (heap (snd (on_edit_active_account [ClickSave colliding_form]
                                two_accounts))) 0) = s "new@example.org"
  /\ deref (heap (snd (on_edit_active_account [ClickSave colliding_form]
                         two_accounts))) 0
     <> deref (heap two_accounts) 0.
Proof.
  repeat split; try (vm_compute; reflexivity).
  vm_compute. discriminate.
Qed.


(** ** The theorems at work on given inputs *)

(** A store file with loose spacing, a key the loader ignores, an empty
    port and a port with an underscore. *)
Definition loose_file : str :=
  s "  [account work]  " ++ [CR; LF]
  ++ s "email = me@example.org " ++ [LF]
  ++ s "colour=blue" ++ [LF]
  ++ s "imap_port=" ++ [LF]
  ++ s "smtp_port= 2_525" ++ [LF]
  ++ [LF]
  ++ s "[account home]" ++ [LF]
  ++ s "password=a=b" ++ [LF].

Definition loose_loaded : dict AccountConfig :=
  [ (s "work", mkAccount (s "work") (s "me@example.org") [] [] 993 [] 2525);
    (s "home", mkAccount (s "home") [] (s "a=b") [] 993 [] 587) ].

Lemma load_save_load_witness :
  well_formed loose_file
  /\ load_all_accounts (Some loose_file) = Ok loose_loaded
  /\ load_all_accounts (Some (save_all_accounts loose_loaded)) = Ok loose_loaded.
Proof.
  assert (W : well_formed loose_file).
  { unfold well_formed.
    let l := eval vm_compute in (file_lines loose_file) in
    change (file_lines loose_file) with l.
    repeat (apply Forall_cons; [vm_compute; reflexivity|]). apply Forall_nil. }
  split; [exact W|]. split; [vm_compute; reflexivity|].
  apply (@load_save_load (Some loose_file) loose_loaded).
  - intros content H. injection H as <-. exact W.
  - vm_compute. reflexivity.
Defined.






(** A server with 25 messages in the inbox. *)
Definition inbox25 : ImapServer :=
  mkImap (answer_connect good_imap) (answer_starttls good_imap)
         (answer_login good_imap) (answer_select good_imap)
         (Ok (OK, [Some (bytes_of
            "1 2 3 4 5 6 7 8 9 10 11 12 13 14 15 16 17 18 19 20 21 22 23 24 25")]))
         (answer_fetch good_imap) (answer_close good_imap) (answer_logout good_imap).

Lemma refresh_newest_first_witness :
  length (messages (snd (on_refresh plain_lib inbox25 two_accounts))) = 20
  /\ map entry_id (messages (snd (on_refresh plain_lib inbox25 two_accounts)))
     = map bytes_of
         ["25"; "24"; "23"; "22"; "21"; "20"; "19"; "18"; "17"; "16";
          "15"; "14"; "13"; "12"; "11"; "10"; "9"; "8"; "7"; "6"]%string.
Proof.
  assert (I : inbox_listed inbox25 (deref (heap two_accounts) 0)
                (bytes_of "1 2 3 4 5 6 7 8 9 10 11 12 13 14 15 16 17 18 19 20 21 22 23 24 25")).
  { split; [reflexivity|]. split; [reflexivity|]. split; [reflexivity|].
    exists []. reflexivity. }
  destruct (@refresh_newest_first plain_lib inbox25 two_accounts 0 _ eq_refl I)
    as (_ & _ & _ & _ & F).
  destruct F as [E L].
  - apply Forall_forall. intros i _. eexists _, _, _. reflexivity.
  - split; [apply L; vm_compute; reflexivity|].
    rewrite E. vm_compute. reflexivity.
Defined.

Lemma compose_recipients_witness :
  exists msg,
    In (smtp_sendmail (s "me@example.org") [s "a@x.com"; s "b@x.com"] msg)
       (net_log (snd (on_compose accepting_smtp
                        (ComposeSend (s "a@x.com, ,b@x.com") (s "hello") (s "text"))
                        two_accounts))).
Proof.
  destruct compose_recipients as [G _].
  destruct (G accepting_smtp (s "a@x.com, ,b@x.com") (s "hello") (s "text")
              two_accounts 0 eq_refl)
    as (_ & _ & _ & D).
  apply D.
  - vm_compute. discriminate.
  - reflexivity.
  - reflexivity.
Defined.

Lemma coherent_two_accounts : coherent two_accounts.
Proof.
  split; [|split].
  - repeat constructor; cbn; intuition discriminate.
  - intros k a. cbn [two_accounts accounts get].
    destruct (str_eqb k (s "work")) eqn:E1.
    + apply str_eqb_eq in E1. intros [= <-]. now subst.
    + destruct (str_eqb k (s "home")) eqn:E2; [|discriminate].
      apply str_eqb_eq in E2. intros [= <-]. now subst.
  - intros a [= <-]. exists (s "work"). reflexivity.
Defined.

Lemma delete_account_witness :
  active_account (snd (on_delete_account (Some (s "work")) two_accounts)) = None
  /\ messages (snd (on_delete_account (Some (s "work")) two_accounts)) = []
  /\ get (s "work") (accounts (snd (on_delete_account (Some (s "work")) two_accounts)))
     = None
  /\ active_account (snd (on_delete_account (Some (s "home")) two_accounts)) = Some 0.
Proof.
  destruct (@delete_account two_accounts (s "work") 0 coherent_two_accounts eq_refl)
    as (_ & G & _ & _ & _ & A & _).
  destruct (@delete_account two_accounts (s "home") 1 coherent_two_accounts eq_refl)
    as (_ & _ & _ & _ & _ & _ & B).
  destruct (A eq_refl) as [A1 A2].
  destruct B as [B1 _]; [discriminate|].
  repeat split; assumption.
Defined.

Lemma rename_collision_witness :
  accounts (snd (on_edit_active_account [ClickSave colliding_form] two_accounts))
  = accounts two_accounts
  /\ deref (heap (snd (on_edit_active_account [ClickSave colliding_form] two_accounts))) 1
     = home_account
  /\ deref (heap (snd (on_edit_active_account [ClickSave colliding_form] two_accounts))) 0
     = mkAccount (s "work") (s "new@example.org") (s "secret")
                 (s "imap.example.org") 993 (s "smtp.example.org") 587.
Proof.
  destruct (@rename_collision two_accounts 0 1 colliding_form [] 993%Z 587%Z)
    as (_ & A & _ & O & D & _); try (vm_compute; reflexivity);
    try (vm_compute; discriminate); try (cbn; lia).
  split; [exact A|]. split; [apply O; discriminate|exact D].
Defined.


(** A block that names its account and nothing else. *)
Lemma from_dict_default_ports_witness :
  exists a, from_dict [(s "name", s "work")] = Ok a
            /\ imap_port a = 993%Z /\ smtp_port a = 587%Z.
Proof.
  apply (@from_dict_default_ports [(s "name", s "work")]).
  - left. reflexivity.
  - left. reflexivity.
Defined.

(** A message with an HTML part and a plain part: the plain part is the
    body, although the HTML part comes first. *)
Definition plain_part : message :=
  Leaf [] (s "text/plain") (Some (s "us-ascii")) (Some (bytes_of "hi")).

Definition alternative : message :=
  Multi [] (s "multipart/alternative") None [html_part; plain_part].

Lemma extract_text_plain_witness :
  _extract_plain_text_body plain_lib alternative = Some (s "hi").
Proof.
  rewrite (@extract_text_plain plain_lib alternative plain_part
             [alternative; html_part] []).
  - vm_compute. reflexivity.
  - reflexivity.
  - reflexivity.
  - repeat (apply Forall_cons; [vm_compute; discriminate|]). apply Forall_nil.
  - reflexivity.
Defined.

Lemma refresh_body_closes_witness :
  exists cs,
    net_log (snd (refresh_body plain_lib good_imap work_account two_accounts))
    = net_log two_accounts ++ cs ++ [imap_close; imap_logout].
Proof.
  apply (@refresh_body_closes plain_lib good_imap work_account two_accounts).
  exists tt. vm_compute. reflexivity.
Defined.


(* ================================================================== *)
(** * Part III: further properties                                     *)
(* ================================================================== *)

(** ** The store file: what the loader ignores *)

Section Noise.

(** A line the loader passes over: blank, or neither a header nor a
    [key=value] line. *)
Definition ignored (raw : str) : bool :=
  let line := strip raw in
  negb (truthy line) || (negb (is_header line) && negb (contains "="%char line)).

Lemma load_line_ignored (raw : str) (st : load_state) :
  ignored raw = true -> load_line raw st = Ok st.
Proof.
  unfold ignored, load_line. cbv zeta. intros H.
  destruct (negb (truthy (strip raw))); [reflexivity|].
  cbn [orb] in H. apply andb_true_iff in H as [H1 H2].
  apply negb_true_iff in H1, H2. now rewrite H1, H2.
Qed.

(** Blank lines, comments and other lines without [=] can stand anywhere in
    the file: the mapping loaded is the same with and without them. *)
Theorem load_ignores_noise (before after : list str) (raw : str) :
  ignored raw = true ->
  load_from_lines (before ++ raw :: after) = load_from_lines (before ++ after).
Proof.
  intros H. unfold load_from_lines. rewrite !load_lines_app.
  destruct (load_lines before load_init) as [st|e]; [|reflexivity].
  cbn [rbind load_lines]. now rewrite (@load_line_ignored raw st H).
Qed.

Lemma load_ignores_noise_witness :
  load_from_lines [s "[account work]"; s "# my work mail"; []; s "email=me@example.org"]
  = load_from_lines [s "[account work]"; []; s "email=me@example.org"].
Proof.
  apply (@load_ignores_noise [s "[account work]"] [[]; s "email=me@example.org"]
           (s "# my work mail")).
  vm_compute. reflexivity.
Defined.

(** With no block open, [current] does not matter. *)
Lemma load_lines_no_block (ls : list str) (accs : dict AccountConfig) (c1 c2 : dict str) :
  (st <- load_lines ls (mkLoad accs c1 None) ;; flush st)%py
  = (st <- load_lines ls (mkLoad accs c2 None) ;; flush st)%py.
Proof.
  revert c1 c2. induction ls as [|l ls IH]; intros c1 c2; cbn [load_lines].
  - reflexivity.
  - destruct (is_header (strip l)) eqn:H.
    + now rewrite !(@load_line_head l _ H).
    + rewrite !(@load_line_body l _ H). cbn [rbind accounts_of current current_name].
      apply IH.
Qed.

(** Whatever stands before the first header is lost: key lines there belong
    to no account. *)
Theorem load_skips_preamble (preamble rest : list str) :
  Forall (fun l => is_header (strip l) = false) preamble ->
  load_from_lines (preamble ++ rest) = load_from_lines rest.
Proof.
  intros H. unfold load_from_lines.
  rewrite load_lines_app, (@load_lines_body preamble H). cbn [rbind].
  apply load_lines_no_block.
Qed.

Lemma load_skips_preamble_witness :
  load_from_lines [s "email=lost@example.org"; s "imap_port=abc";
                   s "[account work]"; s "email=me@example.org"]
  = load_from_lines [s "[account work]"; s "email=me@example.org"].
Proof.
  apply (@load_skips_preamble [s "email=lost@example.org"; s "imap_port=abc"]).
  repeat (apply Forall_cons; [vm_compute; reflexivity|]). apply Forall_nil.
Defined.

End Noise.

(** ** The store file: which names are loaded *)

Section LoadedNames.

Variable ls : list str.

(** The name stands in a header of the file. *)
Definition announced (k : str) : Prop :=
  exists raw, In raw ls /\ is_header (strip raw) = true /\ header_name raw = k.

Record names_inv (st : load_state) : Prop := {
  ni_nodup : NoDup (keys (accounts_of st));
  ni_keys : forall k, In k (keys (accounts_of st)) -> k <> [] /\ announced k;
  ni_open : forall n, current_name st = Some n -> n <> [] -> announced n
}.

Lemma flush_names (st : load_state) (accs : dict AccountConfig) :
  names_inv st -> flush st = Ok accs ->
  NoDup (keys accs) /\ forall k, In k (keys accs) -> k <> [] /\ announced k.
Proof.
  intros [ND K O] F. unfold flush in F.
  destruct (current_name st) as [n|] eqn:En; [|injection F as <-; auto].
  destruct (truthy n && _) eqn:T; [|injection F as <-; auto].
  apply andb_true_iff in T as [Tn _]. apply truthy_nonempty in Tn.
  apply rbind_Ok in F as [a [_ [= <-]]].
  split; [now apply NoDup_setitem|].
  intros k Hk. rewrite keys_setitem in Hk.
  destruct (mem n (accounts_of st)); [now apply K|].
  apply in_app_or in Hk as [Hk|[<-|[]]]; [now apply K|].
  split; [assumption|]. now apply O.
Qed.

Lemma load_lines_names (todo : list str) :
  (forall raw, In raw todo -> In raw ls) ->
  forall st st', names_inv st -> load_lines todo st = Ok st' -> names_inv st'.
Proof.
  induction todo as [|l todo IH]; intros Sub st st' I R;
    cbn [load_lines] in R.
  - now injection R as <-.
  - apply rbind_Ok in R as [st1 [L R]].
    apply (IH (fun raw H => Sub raw (or_intror H)) st1 st'); [|assumption].
    destruct (is_header (strip l)) eqn:H.
    + rewrite (@load_line_head l st H) in L.
      apply rbind_Ok in L as [accs [F [= <-]]].
      destruct (flush_names I F) as [ND K].
      split; cbn [accounts_of current_name]; auto.
      intros n [= <-] _. exists l. split; [apply Sub; now left|]. auto.
    + rewrite (@load_line_body l st H) in L. injection L as <-.
      destruct I as [ND K O]. split; cbn [accounts_of current_name]; auto.
Qed.

(** The names of the mapping loaded are distinct, none is empty, and each
    stands in a header of the file: the loader invents no account, and a
    block headed [[account ]] is dropped. *)
Theorem loaded_names (m : dict AccountConfig) :
  load_from_lines ls = Ok m ->
  NoDup (keys m) /\ forall k, In k (keys m) -> k <> [] /\ announced k.
Proof.
  unfold load_from_lines. intros R. apply rbind_Ok in R as [st [L F]].
  apply (@flush_names st m); [|assumption].
  apply (@load_lines_names ls (fun _ H => H) load_init st); [|assumption].
  split; cbn; [constructor|tauto|discriminate].
Qed.

End LoadedNames.

Lemma loaded_names_witness :
  NoDup (keys [(s "work", mkAccount (s "work") [] [] [] 993 [] 587)])
  /\ forall k, In k (keys [(s "work", mkAccount (s "work") [] [] [] 993 [] 587)]) ->
               k <> [] /\ announced [s "[account ]"; s "email=x"; s "[account work]"] k.
Proof.
  apply (@loaded_names [s "[account ]"; s "email=x"; s "[account work]"]).
  vm_compute. reflexivity.
Defined.


(** ** The store file: what saving and loading does to the fields *)

Section Trimming.

Lemma lstrip_spaces (p x : str) :
  forallb is_space p = true -> lstrip (p ++ x) = lstrip x.
Proof.
  induction p as [|c p IH]; cbn [forallb app lstrip]; [reflexivity|].
  intros H. apply andb_true_iff in H as [Hc Hp]. rewrite Hc. auto.
Qed.

Lemma rstrip_spaces (p : str) : forallb is_space p = true -> rstrip p = [].
Proof.
  intros H. unfold rstrip.
  assert (R : forallb is_space (rev p) = true).
  { rewrite forallb_forall in *. intros c Hc. apply H. now apply in_rev. }
  rewrite <- (app_nil_r (rev p)), (@lstrip_spaces (rev p) [] R). reflexivity.
Qed.

Lemma rstrip_app_nothing (a b : str) : rstrip b = [] -> rstrip (a ++ b) = rstrip a.
Proof.
  revert a. induction b as [|c b IH] using rev_ind; intros a H.
  - now rewrite app_nil_r.
  - rewrite app_assoc, rstrip_snoc. rewrite rstrip_snoc in H.
    destruct (is_space c).
    + now apply IH.
    + now destruct b.
Qed.

(** Stripping the two ends in either order gives the same string. *)
Lemma lstrip_rstrip_comm (v : str) : lstrip (rstrip v) = rstrip (lstrip v).
Proof.
  destruct (lstrip_suffix v) as [p [Hp Hs]].
  destruct (lstrip v) as [|c r] eqn:E.
  - rewrite app_nil_r in Hp. subst v. now rewrite (@rstrip_spaces p Hs).
  - assert (Hc : is_space c = false).
    { apply (@lstrip_fix_head c r). rewrite <- E. apply lstrip_idem. }
    destruct (rstrip_prefix (c :: r)) as [q [Hq Hsq]].
    destruct (rstrip (c :: r)) as [|c' r'] eqn:R.
    + exfalso. cbn [app] in Hq. subst q. cbn [forallb] in Hsq.
      rewrite Hc in Hsq. discriminate.
    + cbn [app] in Hq. injection Hq as <- Hr.
      rewrite Hp, rstrip_app_keep by (rewrite R; discriminate).
      rewrite R, (@lstrip_spaces p _ Hs). now apply lstrip_head.
Qed.

Lemma strip_rstrip (v : str) : strip (rstrip v) = strip v.
Proof. unfold strip. now rewrite lstrip_rstrip_comm, rstrip_idem. Qed.

(** A [key=value] line with any value: the value is stored stripped. *)
Lemma load_line_kv_any (key v : str) (st : load_state) :
  clean key -> key <> [] -> ~ In "="%char key ->
  hd_error key <> Some "["%char ->
  load_line (key ++ s "=" ++ v ++ [LF]) st
  = Ok (mkLoad (accounts_of st) (setitem key (strip v) (current st)) (current_name st)).
Proof.
  intros Ck Nk Ek Hk. unfold load_line.
  assert (S : strip (key ++ s "=" ++ v ++ [LF]) = key ++ s "=" ++ rstrip v).
  { unfold strip.
    rewrite lstrip_app_head by (apply Ck || assumption).
    rewrite !app_assoc, rstrip_LF, <- !app_assoc.
    rewrite (app_assoc key).
    assert (A : rstrip (key ++ s "=") = key ++ s "=") by apply rstrip_snoc.
    destruct (rstrip v) as [|c r] eqn:R.
    - rewrite (@rstrip_app_nothing (key ++ s "=") v R). rewrite A. reflexivity.
    - rewrite rstrip_app_keep by (rewrite R; discriminate).
      rewrite R, <- app_assoc. reflexivity. }
  rewrite S.
  destruct key as [|c r]; [contradiction|].
  cbn [negb truthy app]. cbv iota.
  assert (H : is_header (c :: r ++ s "=" ++ rstrip v) = false).
  { apply not_header_head. intros ->. now apply Hk. }
  rewrite H.
  assert (C : contains "="%char (c :: r ++ s "=" ++ rstrip v) = true).
  { apply contains_In. change (c :: r ++ s "=" ++ rstrip v)
      with ((c :: r) ++ "="%char :: rstrip v).
    apply in_or_app. right. now left. }
  rewrite C.
  change (c :: r ++ s "=" ++ rstrip v) with ((c :: r) ++ "="%char :: rstrip v).
  rewrite split_once_app by assumption.
  now rewrite (clean_strip Ck), strip_rstrip.
Qed.

(** The account as it is read back: the text fields other than the name
    have lost the whitespace around them. *)
Definition trimmed (a : AccountConfig) : AccountConfig :=
  mkAccount (name a) (strip (email a)) (strip (password a))
            (strip (imap_server a)) (imap_port a)
            (strip (smtp_server a)) (smtp_port a).

(** An account whose fields fit on the lines of the store file. *)
Definition writable (a : AccountConfig) : Prop :=
  name a <> [] /\ one_line (name a) /\ one_line (email a)
  /\ one_line (password a) /\ one_line (imap_server a)
  /\ one_line (smtp_server a).

Lemma account_lines_writable (a : AccountConfig) :
  writable a -> Forall one_line (account_lines a).
Proof.
  intros (_ & Hn & He & Hp & Hi & Hs).
  assert (K : forall x : string,
             forallb (fun c => negb (Ascii.eqb c LF) && negb (Ascii.eqb c CR)) (s x) = true ->
             one_line (s x)).
  { intros x H. apply Forall_forall. intros c Hc.
    rewrite forallb_forall in H. specialize (H c Hc).
    apply andb_true_iff in H as [H1 H2].
    split; intros ->; discriminate. }
  assert (L : forall x : string, one_line (s x) ->
                forall y, one_line y -> one_line (s x ++ s "=" ++ y)).
  { intros x Hx y Hy. apply one_line_app; [assumption|].
    apply one_line_app; [apply (K "="%string); reflexivity|assumption]. }
  unfold account_lines.
  repeat match goal with
         | |- Forall one_line (_ :: _) => apply Forall_cons
         | |- Forall one_line [] => apply Forall_nil
         end;
    try (apply L; [apply K; reflexivity|]);
    try assumption; try apply py_str_field_ok; try apply one_line_nil.
  apply one_line_app; [apply (K "[account "%string); reflexivity|].
  apply one_line_app; [assumption|apply (K "]"%string); reflexivity].
Qed.

Lemma load_lines_account_any (a : AccountConfig) (rest : list str) (st : load_state) :
  load_lines (map (fun l => l ++ [LF]) (account_lines a) ++ rest) st
  = (accs <- flush st ;;
     load_lines rest (mkLoad accs (to_dict (trimmed a)) (Some (name a))))%py.
Proof.
  unfold account_lines. cbn [map app load_lines].
  rewrite <- !app_assoc, load_line_header.
  destruct (flush st) as [accs|e]; [|reflexivity].
  cbn [rbind].
  repeat (rewrite load_line_kv_any;
          [ cbn [rbind accounts_of current current_name]
          | split; reflexivity
          | discriminate
          | intros H; repeat (destruct H as [H|H]; [discriminate H|]); exact H
          | discriminate ]).
  rewrite load_line_blank.
  rewrite !(clean_strip (proj1 (py_str_field_ok _))). reflexivity.
Qed.

Lemma load_saved_any (l : list AccountConfig) :
  Forall writable l ->
  forall (st : load_state) (accs : dict AccountConfig),
    flush st = Ok accs ->
    (st' <- load_lines (file_lines (concat (map save_account l))) st ;; flush st')%py
    = Ok (fold_left (fun d a => setitem (name a) a d) (map trimmed l) accs).
Proof.
  induction 1 as [|a l Ha Hl IH]; intros st accs F.
  - exact F.
  - cbn [map concat fold_left].
    rewrite save_account_lines, file_lines_write by now apply account_lines_writable.
    rewrite load_lines_account_any, F. cbn [rbind].
    apply IH. change (name a) with (name (trimmed a)).
    apply flush_stored. apply Ha.
Qed.

(** A mapping with each account as it is read back. *)
Definition trim_all (m : dict AccountConfig) : dict AccountConfig :=
  map (fun kv => (fst kv, trimmed (snd kv))) m.

Lemma load_save_trimmed (m : dict AccountConfig) :
  NoDup (keys m) -> keyed_by_name m -> Forall writable (values m) ->
  load_all_accounts (Some (save_all_accounts m)) = Ok (trim_all m).
Proof.
  unfold trim_all.
  intros ND K W. unfold load_all_accounts, load_from_lines, save_all_accounts.
  rewrite (@load_saved_any (values m) W load_init []) by reflexivity.
  f_equal.
  assert (E : map trimmed (values m)
              = values (map (fun kv => (fst kv, trimmed (snd kv))) m)).
  { unfold values. rewrite !map_map. reflexivity. }
  rewrite E. apply (@assign_all _ []).
  - cbn [app]. unfold keys. rewrite map_map. exact ND.
  - intros k a H. apply in_map_iff in H as [[k' a'] [[= <- <-] Hin]].
    cbn [fst snd trimmed name]. now apply K.
Qed.

(** Saving a mapping and loading the file gives each account back under its
    name, in the same order, with the whitespace around the address, the
    password and the two server names removed; the name and the ports are
    as they were.  In particular a password that begins or ends with a
    blank is not the password that is read back. *)
Theorem save_load_trims (m : dict AccountConfig) :
  NoDup (keys m) -> keyed_by_name m -> Forall writable (values m) ->
  load_all_accounts (Some (save_all_accounts m))
  = Ok (map (fun kv => (fst kv, trimmed (snd kv))) m).
Proof. apply load_save_trimmed. Qed.

End Trimming.

(** An account as the settings dialog leaves it, with blanks around the
    password. *)
Definition padded_account : AccountConfig :=
  mkAccount (s "work") (s "me@example.org") (s " secret ")
            (s "imap.example.org") 993 (s "smtp.example.org") 587.

Lemma save_load_trims_witness :
  load_all_accounts (Some (save_all_accounts [(s "work", padded_account)]))
  = Ok [(s "work", work_account)].
Proof.
  apply (@save_load_trims [(s "work", padded_account)]).
  - repeat constructor. intros [].
  - intros k a [[= <- <-]|[]]. reflexivity.
  - repeat constructor; try discriminate;
      (apply Forall_forall; intros c Hc;
       repeat (destruct Hc as [<-|Hc]; [split; discriminate|]); destruct Hc).
Defined.


(** ** The settings dialog *)

Section Dialog.

(** The frame with another heap and more message boxes, all else equal. *)
Definition with_heap_boxes (h : list AccountConfig) (bs : list box) (w : world) : world :=
  mkWorld h (accounts w) (active_account w) (messages w) (email_list w)
          (lbl_from_value w) (lbl_to_value w) (lbl_subject_value w)
          (body_text w) (file w) (net_log w) (boxes w ++ bs).

(** The form passes [on_save]'s checks, its ports being [ip] and [sp]. *)
Definition valid_form (f : form) (ip sp : Z) : Prop :=
  strip (txt_name f) <> [] /\ strip (txt_email f) <> []
  /\ parse_ports f = Ok (ip, sp).

(** The account [on_save] writes for a valid form. *)
Definition account_of_form (f : form) (ip sp : Z) : AccountConfig :=
  mkAccount (strip (txt_name f)) (strip (txt_email f)) (txt_password f)
            (strip (txt_imap_server f)) ip (strip (txt_smtp_server f)) sp.

Lemma on_save_cases (addr : nat) (f : form) (w : world) :
  (exists b, on_save addr f w = (Ok false, with_heap_boxes (heap w) [b] w))
  \/ (exists ip sp, valid_form f ip sp
        /\ on_save addr f w
           = (Ok true, with_heap_boxes (store addr (account_of_form f ip sp) (heap w)) [] w)).
Proof.
  unfold on_save, valid_form. cbv zeta.
  destruct (truthy (strip (txt_name f))) eqn:N; cbn [negb].
  2:{ left. eexists. destruct w; reflexivity. }
  destruct (truthy (strip (txt_email f))) eqn:E; cbn [negb].
  2:{ left. eexists. destruct w; reflexivity. }
  destruct (parse_ports f) as [[ip sp]|e] eqn:P.
  2:{ left. eexists. destruct w; reflexivity. }
  right. exists ip, sp. apply truthy_nonempty in N, E.
  split; [auto|]. destruct w as [h a ac ms el lf lt ls bt fl nl bx].
  unfold bind, modify, ret, set_heap, with_heap_boxes, account_of_form. cbn.
  now rewrite app_nil_r.
Qed.

(** The two ways a dialog ends, with the boxes shown on the way. *)
Lemma ShowModal_cases (addr : nat) (steps : list dialog_step) (w : world) :
  exists bs,
    ShowModal addr steps w = (Ok false, with_heap_boxes (heap w) bs w)
    \/ exists f ip sp,
         In (ClickSave f) steps /\ valid_form f ip sp
         /\ ShowModal addr steps w
            = (Ok true,
               with_heap_boxes (store addr (account_of_form f ip sp) (heap w)) bs w).
Proof.
  revert w. induction steps as [|[f|] steps IH]; intros w; cbn [ShowModal].
  - exists []. left. unfold ret, with_heap_boxes.
    destruct w as [h a ac ms el lf lt ls bt fl nl bx]; cbn. now rewrite app_nil_r.
  - unfold bind.
    destruct (on_save_cases addr f w) as [[b ->]|(ip & sp & V & ->)].
    + destruct (IH (with_heap_boxes (heap w) [b] w)) as [bs [H|(f' & ip & sp & I & V & H)]];
        exists (b :: bs); rewrite H; [left|right; exists f', ip, sp;
                                             split; [now right|split; [assumption|]]];
        unfold with_heap_boxes; cbn; now rewrite <- app_assoc.
    + exists []. right. exists f, ip, sp. split; [now left|]. split; [assumption|].
      reflexivity.
  - exists []. left. unfold ret, with_heap_boxes.
    destruct w as [h a ac ms el lf lt ls bt fl nl bx]; cbn. now rewrite app_nil_r.
Qed.

(** The dialog either is cancelled and leaves the account object as it was,
    or ends with Save on a form that passes every check and writes exactly
    that form's fields: trimmed name, address and servers, the password as
    typed, the parsed ports.  Forms that fail a check only show a box; no
    field of a rejected form reaches the object. *)
Theorem ShowModal_commits_valid_only (addr : nat) (steps : list dialog_step) (w : world) :
  exists bs,
    ShowModal addr steps w = (Ok false, with_heap_boxes (heap w) bs w)
    \/ exists f ip sp,
         In (ClickSave f) steps /\ valid_form f ip sp
         /\ ShowModal addr steps w
            = (Ok true,
               with_heap_boxes (store addr (account_of_form f ip sp) (heap w)) bs w).
Proof. apply ShowModal_cases. Qed.

End Dialog.


(** ** What a handler leaves alone *)

Section Keeps.

(** [keeps R m]: the state after [m] is related by [R] to the state before,
    whether [m] returns or raises. *)
Definition keeps {A} (R : world -> world -> Prop) (m : M A) : Prop :=
  forall w, R w (snd (m w)).

Variable R : world -> world -> Prop.
Hypothesis R_refl : forall w, R w w.
Hypothesis R_trans : forall a b c, R a b -> R b c -> R a c.

Lemma keeps_ret {A} (a : A) : keeps R (ret a).
Proof. intros w. apply R_refl. Qed.

Lemma keeps_raise {A} (e : exn) : keeps R (@raise A e).
Proof. intros w. apply R_refl. Qed.

Lemma keeps_lift {A} (r : result A) : keeps R (lift r).
Proof. intros w. apply R_refl. Qed.

Lemma keeps_read {A} (f : world -> A) : keeps R (read f).
Proof. intros w. apply R_refl. Qed.

Lemma keeps_modify (f : world -> world) : (forall w, R w (f w)) -> keeps R (modify f).
Proof. intros H w. apply H. Qed.

Lemma keeps_bind {A B} (m : M A) (k : A -> M B) :
  keeps R m -> (forall a, keeps R (k a)) -> keeps R (bind m k).
Proof.
  intros Hm Hk w. unfold bind. specialize (Hm w).
  destruct (m w) as [[a|e] w1]; cbn [snd] in *; [|assumption].
  eapply R_trans; [exact Hm|apply Hk].
Qed.

Lemma keeps_try_except {A} (m : M A) (h : exn -> M A) :
  keeps R m -> (forall e, keeps R (h e)) -> keeps R (try_except m h).
Proof.
  intros Hm Hh w. unfold try_except. specialize (Hm w).
  destruct (m w) as [[a|e] w1]; cbn [snd] in *; [assumption|].
  eapply R_trans; [exact Hm|apply Hh].
Qed.

Lemma keeps_do_call {A} (c : call) (r : result A) :
  (forall w, R w (log_call c w)) -> keeps R (do_call c r).
Proof.
  intros H. unfold do_call. apply keeps_bind; [now apply keeps_modify|].
  intros _. apply keeps_lift.
Qed.

Lemma keeps_MessageBox (text title : str) :
  (forall b w, R w (add_box b w)) -> keeps R (MessageBox text title).
Proof. intros H. apply keeps_modify. intros w. apply H. Qed.

End Keeps.

(** The handlers, step by step: each goal [keeps R m] is taken apart along
    the structure of [m]; what is left are the state updates themselves. *)
Ltac keeps_steps refl trans :=
  repeat match goal with
         | |- forall w, ?R w w => exact refl
         | |- forall a b c, ?R a b -> ?R b c -> ?R a c => exact trans
         | |- keeps _ (ret _) => eapply keeps_ret
         | |- keeps _ (raise _) => eapply keeps_raise
         | |- keeps _ (lift _) => eapply keeps_lift
         | |- keeps _ (read _) => eapply keeps_read
         | |- keeps _ (bind _ _) => eapply keeps_bind; [| |intro; cbv beta]
         | |- keeps _ (try_except _ _) => eapply keeps_try_except; [| |intro; cbv beta]
         | |- keeps _ (do_call _ _) => eapply keeps_do_call
         | |- keeps _ (MessageBox _ _) => eapply keeps_MessageBox
         | |- keeps _ (modify _) => eapply keeps_modify
         | |- keeps _ (if ?b then _ else _) => destruct b
         | |- keeps _ (match ?x with _ => _ end) => destruct x
         end.

(** ** Reading and sending leave the accounts alone *)

Section NetworkFrame.

(** The accounts, their objects, the active account and the store file are
    the same in both states. *)
Definition same_accounts (w w' : world) : Prop :=
  heap w' = heap w /\ accounts w' = accounts w
  /\ active_account w' = active_account w /\ file w' = file w.

Lemma same_accounts_refl (w : world) : same_accounts w w.
Proof. repeat split. Qed.

Lemma same_accounts_trans (a b c : world) :
  same_accounts a b -> same_accounts b c -> same_accounts a c.
Proof.
  intros (H1 & H2 & H3 & H4) (K1 & K2 & K3 & K4).
  repeat split; congruence.
Qed.

Lemma fetch_all_same_accounts (lib : email_lib) (srv : ImapServer) (ids : list bytes) :
  keeps same_accounts (fetch_all lib srv ids).
Proof.
  induction ids as [|i ids IH]; cbn [fetch_all].
  - eapply keeps_ret. exact same_accounts_refl.
  - eapply keeps_bind; [exact same_accounts_trans| |intros _; exact IH].
    unfold fetch_one.
    keeps_steps same_accounts_refl same_accounts_trans;
      intros; repeat split.
Qed.

Lemma on_refresh_same_accounts (lib : email_lib) (srv : ImapServer) :
  keeps same_accounts (on_refresh lib srv).
Proof.
  unfold on_refresh, refresh_body.
  keeps_steps same_accounts_refl same_accounts_trans;
    try apply fetch_all_same_accounts;
    try (unfold clear_messages;
         keeps_steps same_accounts_refl same_accounts_trans);
    intros; repeat split.
Qed.

Lemma on_select_email_same_accounts (idx : Z) :
  keeps same_accounts (on_select_email idx).
Proof.
  unfold on_select_email.
  keeps_steps same_accounts_refl same_accounts_trans; intros; repeat split.
Qed.

Lemma on_compose_same_accounts (srv : SmtpServer) (dlg : compose_input) :
  keeps same_accounts (on_compose srv dlg).
Proof.
  unfold on_compose, send_body. cbv zeta.
  keeps_steps same_accounts_refl same_accounts_trans; intros; repeat split.
Qed.

(** Refreshing the inbox, selecting a message and sending a message change
    neither the account mapping nor any account object, neither the active
    account nor the store file, whatever the servers answer. *)
Theorem network_handlers_keep_accounts (lib : email_lib) (w : world) :
  (forall srv, same_accounts w (snd (on_refresh lib srv w)))
  /\ (forall idx, same_accounts w (snd (on_select_email idx w)))
  /\ (forall srv dlg, same_accounts w (snd (on_compose srv dlg w))).
Proof.
  split; [|split]; intros.
  - apply on_refresh_same_accounts.
  - apply on_select_email_same_accounts.
  - apply on_compose_same_accounts.
Qed.

End NetworkFrame.


(** ** Names in order *)

Section NameOrder.

Lemma str_leb_refl (a : str) : str_leb a a = true.
Proof.
  induction a as [|x a IH]; cbn [str_leb]; [reflexivity|].
  now rewrite N.ltb_irrefl.
Qed.

Lemma str_leb_total (a b : str) : str_leb a b = false -> str_leb b a = true.
Proof.
  revert b. induction a as [|x a IH]; intros [|y b]; cbn [str_leb];
    try discriminate; try reflexivity.
  destruct (N.ltb_spec (N_of_ascii x) (N_of_ascii y)); [discriminate|].
  destruct (N.ltb_spec (N_of_ascii y) (N_of_ascii x)); [reflexivity|].
  apply IH.
Qed.

Lemma str_leb_trans (a b c : str) :
  str_leb a b = true -> str_leb b c = true -> str_leb a c = true.
Proof.
  revert b c. induction a as [|x a IH]; intros [|y b] [|z c]; cbn [str_leb];
    try discriminate; try reflexivity.
  destruct (N.ltb_spec (N_of_ascii x) (N_of_ascii y)),
           (N.ltb_spec (N_of_ascii y) (N_of_ascii x)),
           (N.ltb_spec (N_of_ascii y) (N_of_ascii z)),
           (N.ltb_spec (N_of_ascii z) (N_of_ascii y)),
           (N.ltb_spec (N_of_ascii x) (N_of_ascii z)),
           (N.ltb_spec (N_of_ascii z) (N_of_ascii x));
    try discriminate; try reflexivity; try lia.
  apply IH.
Qed.

Definition str_le (a b : str) : Prop := str_leb a b = true.

Lemma In_insert_sorted (x y : str) (l : list str) :
  In y (insert_sorted x l) <-> y = x \/ In y l.
Proof.
  induction l as [|z l IH]; cbn [insert_sorted].
  - cbn. intuition.
  - destruct (str_leb x z); cbn [In]; [intuition|].
    rewrite IH. intuition.
Qed.

Lemma In_sorted (y : str) (l : list str) : In y (sorted l) <-> In y l.
Proof.
  induction l as [|x l IH]; cbn [sorted fold_right]; [reflexivity|].
  fold (sorted l). rewrite In_insert_sorted, IH. cbn. intuition.
Qed.

Lemma insert_sorted_sorted (x : str) (l : list str) :
  StronglySorted str_le l -> StronglySorted str_le (insert_sorted x l).
Proof.
  induction 1 as [|z l S IH F]; cbn [insert_sorted].
  - repeat constructor.
  - destruct (str_leb x z) eqn:E.
    + constructor; [now constructor|].
      constructor; [exact E|].
      eapply Forall_impl; [|exact F]. intros y Hy.
      exact (str_leb_trans _ _ _ E Hy).
    + constructor; [assumption|].
      apply Forall_forall. intros y Hy. apply In_insert_sorted in Hy as [->|Hy].
      * now apply str_leb_total.
      * rewrite Forall_forall in F. now apply F.
Qed.

Lemma sorted_sorted (l : list str) : StronglySorted str_le (sorted l).
Proof.
  induction l as [|x l IH]; cbn [sorted fold_right]; [constructor|].
  now apply insert_sorted_sorted.
Qed.

Lemma length_insert_sorted (x : str) (l : list str) :
  length (insert_sorted x l) = S (length l).
Proof.
  induction l as [|z l IH]; cbn [insert_sorted]; [reflexivity|].
  destruct (str_leb x z); cbn [length]; congruence.
Qed.

Lemma length_sorted (l : list str) : length (sorted l) = length l.
Proof.
  induction l as [|x l IH]; cbn [sorted fold_right]; [reflexivity|].
  fold (sorted l). now rewrite length_insert_sorted, IH.
Qed.

(** The first of the sorted names is a name, and no name comes before it. *)
Lemma sorted_first (l : list str) (x : str) (r : list str) :
  sorted l = x :: r -> In x l /\ forall y, In y l -> str_le x y.
Proof.
  intros E. split.
  - apply In_sorted. rewrite E. now left.
  - intros y Hy. apply In_sorted in Hy. rewrite E in Hy.
    pose proof (sorted_sorted l) as S. rewrite E in S.
    apply StronglySorted_inv in S as [_ F].
    destruct Hy as [<-|Hy]; [apply str_leb_refl|].
    rewrite Forall_forall in F. now apply F.
Qed.

End NameOrder.


(** ** The frame's accounts *)

(** The frame after an account operation: the accounts, the body text, the
    store file and the boxes may differ; the messages, the labels and the
    record of network calls do not. *)
Definition with_accounts (h : list AccountConfig) (d : dict nat) (act : option nat)
    (bt : str) (fl : option str) (bs : list box) (w : world) : world :=
  mkWorld h d act (messages w) (email_list w)
          (lbl_from_value w) (lbl_to_value w) (lbl_subject_value w)
          bt fl (net_log w) (boxes w ++ bs).

(** Bring a state built by the setters to the form of a record. *)
Ltac frame_fields :=
  unfold set_heap, set_accounts, set_active_account, set_messages,
    set_email_list, set_labels, set_body_text, set_file, log_call, add_box,
    with_heap_boxes, with_accounts;
  cbn [heap accounts active_account messages email_list lbl_from_value
       lbl_to_value lbl_subject_value body_text file net_log boxes].

(** A field of a state built by the setters. *)
Ltac frame_field :=
  cbn [set_heap set_accounts set_active_account set_messages
       set_email_list set_labels set_body_text set_file log_call add_box
       with_heap_boxes with_accounts
       heap accounts active_account messages email_list lbl_from_value
       lbl_to_value lbl_subject_value body_text file net_log boxes].

Section Frame.

Lemma deref_app (h x : list AccountConfig) (a : nat) :
  a < length h -> deref (h ++ x) a = deref h a.
Proof. intros L. unfold deref. now apply app_nth1. Qed.

Lemma deref_new (h : list AccountConfig) (v : AccountConfig) :
  deref (h ++ [v]) (length h) = v.
Proof. unfold deref. rewrite app_nth2, Nat.sub_diag; [reflexivity|lia]. Qed.

Lemma store_new (h : list AccountConfig) (d v : AccountConfig) :
  store (length h) v (h ++ [d]) = h ++ [v].
Proof. induction h as [|x h IH]; cbn; congruence. Qed.

Lemma keys_remove_key {V} (k k' : str) (d : dict V) :
  In k' (keys (remove_key k d)) -> In k' (keys d).
Proof.
  induction d as [|[k0 v0] d IH]; cbn; [auto|].
  destruct (str_eqb k k0); cbn; intuition.
Qed.

Lemma NoDup_remove_key {V} (k : str) (d : dict V) :
  NoDup (keys d) -> NoDup (keys (remove_key k d)).
Proof.
  induction d as [|[k0 v0] d IH]; cbn; intros ND; [constructor|].
  inversion ND as [|? ? Hk Hd]; subst.
  destruct (str_eqb k k0); cbn; [assumption|].
  constructor; [|auto]. intros H. apply Hk. eapply keys_remove_key; eauto.
Qed.

Lemma get_remove_key_Some {V} (k k' : str) (d : dict V) (v : V) :
  NoDup (keys d) -> get k' (remove_key k d) = Some v ->
  k' <> k /\ get k' d = Some v.
Proof.
  intros ND G. assert (N : k' <> k).
  { intros ->. rewrite get_remove_key_same in G by assumption. discriminate. }
  split; [assumption|]. now rewrite get_remove_key_other in G.
Qed.

(** The mapping [d] over the objects [h], with [act] the active account:
    the names are distinct and not empty, each name is bound to an object
    that exists and carries that name, and the active account, if any, is
    bound to a name. *)
Definition sound_at (h : list AccountConfig) (d : dict nat) (act : option nat) : Prop :=
  NoDup (keys d)
  /\ (forall k a, get k d = Some a ->
        a < length h /\ name (deref h a) = k /\ k <> [])
  /\ (forall a, act = Some a -> exists k, get k d = Some a).

Definition sound (w : world) : Prop :=
  sound_at (heap w) (accounts w) (active_account w).

Lemma sound_coherent (w : world) : sound w -> coherent w.
Proof.
  intros (ND & K & A). split; [assumption|]. split; [|assumption].
  intros k a G. now apply K.
Qed.

(** The active account is bound to its own name. *)
Lemma sound_at_active h d addr :
  sound_at h d (Some addr) -> get (name (deref h addr)) d = Some addr.
Proof.
  intros (ND & K & A). destruct (A addr eq_refl) as [k G].
  destruct (K k addr G) as (_ & -> & _). exact G.
Qed.

Lemma sound_at_grow h x d act : sound_at h d act -> sound_at (h ++ x) d act.
Proof.
  intros (ND & K & A). split; [assumption|]. split; [|assumption].
  intros k a G. destruct (K k a G) as (L & N & E).
  rewrite length_app, deref_app by assumption. repeat split; [lia|assumption..].
Qed.

Lemma sound_at_switch h d act n a :
  sound_at h d act -> get n d = Some a -> sound_at h d (Some a).
Proof.
  intros (ND & K & A) G. split; [assumption|]. split; [assumption|].
  intros a' [= <-]. eauto.
Qed.

Lemma sound_at_add h d act n v :
  sound_at h d act -> get n d = None -> n <> [] -> name v = n ->
  sound_at (h ++ [v]) (setitem n (length h) d)
           (match act with Some a => Some a | None => Some (length h) end).
Proof.
  intros (ND & K & A) G N E. split; [now apply NoDup_setitem|]. split.
  - intros k a H. destruct (list_eq_dec ascii_dec k n) as [->|D].
    + rewrite get_setitem_same in H. injection H as <-.
      rewrite length_app, deref_new. cbn. repeat split; [lia|assumption..].
    + rewrite get_setitem_other in H by assumption.
      destruct (K k a H) as (L & Nm & Ne).
      rewrite length_app, deref_app by assumption. repeat split; [lia|assumption..].
  - intros a H. destruct act as [a0|].
    + injection H as <-. destruct (A a0 eq_refl) as [k Gk]. exists k.
      rewrite get_setitem_other; [assumption|]. intros ->. congruence.
    + injection H as <-. exists n. apply get_setitem_same.
Qed.

Lemma sound_at_delete h d act sel :
  sound_at h d act ->
  sound_at h (remove_key sel d)
           (match act with
            | Some addr => if str_eqb (name (deref h addr)) sel then None else act
            | None => None
            end).
Proof.
  intros (ND & K & A). split; [now apply NoDup_remove_key|]. split.
  - intros k a G. apply get_remove_key_Some in G as [_ G]; auto.
  - intros a H. destruct act as [addr|]; [|discriminate].
    destruct (str_eqb (name (deref h addr)) sel) eqn:E; [discriminate|].
    injection H as <-. apply str_eqb_neq in E.
    destruct (A addr eq_refl) as [k G]. exists k.
    rewrite get_remove_key_other; [assumption|].
    destruct (K k addr G) as (_ & <- & _). assumption.
Qed.

(** The fields of the active account change, its name does not. *)
Lemma sound_at_edit h d addr v :
  sound_at h d (Some addr) -> name v = name (deref h addr) ->
  sound_at (store addr v h) d (Some addr).
Proof.
  intros S E. pose proof (sound_at_active S) as Ga.
  destruct S as (ND & K & A). split; [assumption|]. split; [|assumption].
  intros k a G. destruct (K k a G) as (L & N & Ne). rewrite length_store.
  destruct (Nat.eq_dec a addr) as [->|D].
  - rewrite deref_store_same by assumption. repeat split; try assumption. congruence.
  - rewrite deref_store_other by assumption. auto.
Qed.

(** The active account takes a name no account has: its key moves. *)
Lemma sound_at_rename h d addr v :
  sound_at h d (Some addr) -> name v <> [] -> get (name v) d = None ->
  sound_at (store addr v h)
           (setitem (name v) addr (remove_key (name (deref h addr)) d))
           (Some addr).
Proof.
  intros S N G. pose proof (sound_at_active S) as Ga.
  destruct S as (ND & K & A). destruct (K _ _ Ga) as (La & _ & _).
  split; [now apply NoDup_setitem, NoDup_remove_key|]. split.
  - intros k a H. rewrite length_store.
    destruct (list_eq_dec ascii_dec k (name v)) as [->|D].
    + rewrite get_setitem_same in H. injection H as <-.
      rewrite deref_store_same by assumption. auto.
    + rewrite get_setitem_other in H by assumption.
      apply get_remove_key_Some in H as [D' H]; [|assumption].
      destruct (K k a H) as (L & Nm & Ne).
      assert (a <> addr) by (intros ->; congruence).
      rewrite deref_store_other by assumption. auto.
  - intros a [= <-]. exists (name v). apply get_setitem_same.
Qed.

(** *** What the account handlers do *)

(** The content of the store file for the mapping [d] over the objects [h]. *)
Definition saved (h : list AccountConfig) (d : dict nat) : option str :=
  Some (save_all_accounts (resolve h d)).

Definition added_text : str := s "New account added. Use Refresh to load emails.".

(** [on_add_account] either leaves the mapping as it was (the dialog was
    cancelled, or the name it ended with is taken), or appends the account
    of the first valid form under its name. *)
Lemma on_add_account_run (steps : list dialog_step) (w : world) :
  exists bs,
    (exists x, on_add_account steps w = (Ok tt, with_heap_boxes (heap w ++ [x]) bs w))
    \/ exists f ip sp,
         In (ClickSave f) steps /\ valid_form f ip sp
         /\ get (strip (txt_name f)) (accounts w) = None
         /\ on_add_account steps w
            = (Ok tt,
               let h := heap w ++ [account_of_form f ip sp] in
               let d := accounts w ++ [(strip (txt_name f), length (heap w))] in
               with_accounts h d
                 (match active_account w with
                  | Some a => Some a
                  | None => Some (length (heap w))
                  end)
                 (match active_account w with
                  | Some _ => body_text w
                  | None => added_text
                  end)
                 (saved h d) bs w).
Proof.
  destruct (ShowModal_cases (length (heap w)) steps
              (set_heap (heap w ++ [AccountConfig_default]) w))
    as [bs [H|(f & ip & sp & I & V & H)]].
  - exists bs. left. exists AccountConfig_default.
    unfold on_add_account, new_account, bind. rewrite H. reflexivity.
  - assert (R : forall k : nat -> bool -> M unit,
               bind new_account (fun a => bind (ShowModal a steps) (k a)) w
               = k (length (heap w)) true
                   (with_heap_boxes (heap w ++ [account_of_form f ip sp]) bs w)).
    { intros k. unfold new_account, bind at 1 2. rewrite H.
      cbn [heap set_heap]. now rewrite store_new. }
    destruct V as (N & E & P). pose proof N as T. apply truthy_nonempty in T.
    destruct (get (strip (txt_name f)) (accounts w)) as [a|] eqn:G.
    + exists (bs ++ [mkBox (s "An account with this name already exists.") (s "Error")]).
      left. eexists. unfold on_add_account. rewrite R.
      unfold bind at 1, read at 1. cbn [heap with_heap_boxes]. rewrite deref_new.
      cbn [name account_of_form]. unfold bind at 1, read at 1.
      cbn [accounts with_heap_boxes]. rewrite T. cbn [negb]. unfold mem. rewrite G.
      unfold MessageBox, modify. frame_fields. now rewrite <- app_assoc.
    + exists bs. right. exists f, ip, sp. split; [assumption|].
      split; [now repeat split|]. split; [exact G|].
      unfold on_add_account. rewrite R.
      unfold bind at 1, read at 1. cbn [heap with_heap_boxes]. rewrite deref_new.
      cbn [name account_of_form]. unfold bind at 1, read at 1.
      cbn [accounts with_heap_boxes]. rewrite T. cbn [negb]. unfold mem. rewrite G.
      rewrite (@setitem_absent _ _ (length (heap w)) _ G).
      unfold persist, bind, modify, read, ret, saved, added_text.
      frame_fields. destruct (active_account w) eqn:Act; reflexivity.
Qed.

Lemma store_store (a : nat) (u v : AccountConfig) (h : list AccountConfig) :
  store a u (store a v h) = store a u h.
Proof.
  revert a. induction h as [|x h IH]; intros [|a]; cbn; congruence.
Qed.

(** The account [v] under the name [n]. *)
Definition renamed (n : str) (v : AccountConfig) : AccountConfig :=
  mkAccount n (email v) (password v) (imap_server v) (imap_port v)
            (smtp_server v) (smtp_port v).

Definition name_taken_box : box :=
  mkBox (s "Another account already uses that name. Keeping old name.") (s "Error").

(** The part of [on_edit_active_account] that follows the dialog. *)
Lemma on_edit_active_account_unfold (steps : list dialog_step) (w : world) (addr : nat) :
  active_account w = Some addr ->
  let old := name (deref (heap w) addr) in
  on_edit_active_account steps w
  = bind (ShowModal addr steps)
      (fun saved : bool =>
         if saved then
           bind (read (fun w => name (deref (heap w) addr)))
             (fun edited =>
                let new_name := or_else edited old in
                bind (if negb (str_eqb new_name old) then
                        bind (read accounts)
                          (fun d =>
                             if taken_by_other new_name addr d then
                               bind (MessageBox (s "Another account already uses that name. Keeping old name.") (s "Error"))
                                    (fun _ => set_name addr old)
                             else
                               bind (lift (delitem old d))
                                 (fun d' => modify (set_accounts (setitem new_name addr d'))))
                      else ret tt)
                  (fun _ => persist))
         else ret tt) w.
Proof.
  intros Act old. unfold on_edit_active_account, bind at 1, read at 1. rewrite Act.
  unfold bind at 1, read at 1. reflexivity.
Qed.

(** The dialog has ended with the valid form [f]: the name is kept, or the
    new name belongs to another account and the old name is put back, or
    the account moves to its new name.  Each time the store file is
    written. *)
Lemma on_edit_active_account_saved (steps : list dialog_step) (w : world) (addr : nat)
    (f : form) (ip sp : Z) (bs : list box) :
  sound w -> active_account w = Some addr -> valid_form f ip sp ->
  ShowModal addr steps w
  = (Ok true, with_heap_boxes (store addr (account_of_form f ip sp) (heap w)) bs w) ->
  let old := name (deref (heap w) addr) in
  let v := account_of_form f ip sp in
  (name v = old
   /\ on_edit_active_account steps w
      = (Ok tt,
         let h := store addr v (heap w) in
         with_accounts h (accounts w) (Some addr) (body_text w)
                       (saved h (accounts w)) bs w))
  \/ (name v <> old
      /\ (exists other, get (name v) (accounts w) = Some other /\ other <> addr)
      /\ on_edit_active_account steps w
         = (Ok tt,
            let h := store addr (renamed old v) (heap w) in
            with_accounts h (accounts w) (Some addr) (body_text w)
                          (saved h (accounts w)) (bs ++ [name_taken_box]) w))
  \/ (name v <> old
      /\ get (name v) (accounts w) = None
      /\ on_edit_active_account steps w
         = (Ok tt,
            let h := store addr v (heap w) in
            let d := setitem (name v) addr (remove_key old (accounts w)) in
            with_accounts h d (Some addr) (body_text w) (saved h d) bs w)).
Proof.
  intros S Act V H old. pose proof (@on_edit_active_account_unfold steps w addr Act) as U.
  fold old in U. unfold sound in S. rewrite Act in S.
  pose proof (sound_at_active S) as Ga. fold old in Ga.
  destruct S as (ND & K & A). destruct (K _ _ Ga) as (La & _ & _).
  assert (T : truthy (strip (txt_name f)) = true)
    by (apply truthy_nonempty, V).
  assert (U2 : forall k : str -> M unit,
             bind (ShowModal addr steps)
               (fun saved : bool =>
                  if saved then bind (read (fun w => name (deref (heap w) addr))) k
                  else ret tt) w
             = k (strip (txt_name f))
                 (with_heap_boxes (store addr (account_of_form f ip sp) (heap w)) bs w)).
  { intros k. unfold bind at 1. rewrite H. unfold bind at 1, read at 1.
    cbn [heap with_heap_boxes]. now rewrite deref_store_same. }
  pose proof (eq_trans U (U2 _)) as Run. clear U U2 H.
  cbv beta in Run. unfold or_else in Run. rewrite T in Run. cbv zeta in Run.
  cbv zeta. cbn [name account_of_form].
  destruct (str_eqb (strip (txt_name f)) old) eqn:Eq.
  + apply str_eqb_eq in Eq. left. split; [exact Eq|]. rewrite Run.
    cbn [negb]. unfold persist, bind, modify, ret, saved. frame_fields.
    now rewrite Act.
  + apply str_eqb_neq in Eq. cbn [negb] in Run.
    unfold bind at 1 2, read at 1 in Run.
    cbn [accounts with_heap_boxes] in Run. unfold taken_by_other in Run.
    destruct (get (strip (txt_name f)) (accounts w)) as [other|] eqn:G.
    * destruct (Nat.eqb_spec other addr) as [->|D].
      { exfalso. apply Eq. destruct (K _ _ G) as (_ & N & _). now rewrite <- N. }
      right. left.
      split; [exact Eq|]. split; [now exists other|]. rewrite Run. cbn [negb].
      unfold set_name, persist, MessageBox, bind, modify, ret, saved, name_taken_box.
      frame_fields. rewrite deref_store_same, store_store by assumption.
      rewrite Act, <- app_assoc. reflexivity.
    * right. right.
      split; [exact Eq|]. split; [reflexivity|]. rewrite Run.
      unfold delitem, mem. fold old. rewrite Ga.
      unfold persist, lift, bind, modify, ret, saved.
      frame_fields. rewrite Act. reflexivity.
Qed.

(** [on_edit_active_account] on a sound frame: the dialog is cancelled and
    nothing changes; or it ends with a valid form, with the outcomes
    above. *)
Lemma on_edit_active_account_run (steps : list dialog_step) (w : world) (addr : nat) :
  sound w -> active_account w = Some addr ->
  let old := name (deref (heap w) addr) in
  exists bs,
    on_edit_active_account steps w = (Ok tt, with_heap_boxes (heap w) bs w)
    \/ exists f ip sp,
         In (ClickSave f) steps /\ valid_form f ip sp
         /\ let v := account_of_form f ip sp in
            (name v = old
             /\ on_edit_active_account steps w
                = (Ok tt,
                   let h := store addr v (heap w) in
                   with_accounts h (accounts w) (Some addr) (body_text w)
                                 (saved h (accounts w)) bs w))
            \/ (name v <> old
                /\ (exists other, get (name v) (accounts w) = Some other /\ other <> addr)
                /\ on_edit_active_account steps w
                   = (Ok tt,
                      let h := store addr (renamed old v) (heap w) in
                      with_accounts h (accounts w) (Some addr) (body_text w)
                                    (saved h (accounts w)) (bs ++ [name_taken_box]) w))
            \/ (name v <> old
                /\ get (name v) (accounts w) = None
                /\ on_edit_active_account steps w
                   = (Ok tt,
                      let h := store addr v (heap w) in
                      let d := setitem (name v) addr (remove_key old (accounts w)) in
                      with_accounts h d (Some addr) (body_text w) (saved h d) bs w)).
Proof.
  intros S Act old.
  destruct (ShowModal_cases addr steps w) as [bs [H|(f & ip & sp & I & V & H)]].
  - exists bs. left. rewrite (@on_edit_active_account_unfold steps w addr Act).
    unfold bind at 1. rewrite H. reflexivity.
  - exists bs. right. exists f, ip, sp. split; [assumption|]. split; [assumption|].
    exact (@on_edit_active_account_saved steps w addr f ip sp bs S Act V H).
Qed.

(** [on_delete_account] returns; it leaves the accounts alone, or removes
    the selected name and writes the store file, the active account being
    dropped, with the messages shown, when it carries that name. *)
Lemma on_delete_account_run (choice : option str) (w : world) :
  exists w',
    on_delete_account choice w = (Ok tt, w')
    /\ heap w' = heap w /\ net_log w' = net_log w
    /\ ((accounts w' = accounts w /\ active_account w' = active_account w
         /\ file w' = file w
         /\ messages w' = messages w /\ email_list w' = email_list w)
        \/ exists sel,
             choice = Some sel /\ mem sel (accounts w) = true
             /\ accounts w' = remove_key sel (accounts w)
             /\ active_account w'
                = match active_account w with
                  | Some addr =>
                      if str_eqb (name (deref (heap w) addr)) sel then None
                      else active_account w
                  | None => None
                  end
             /\ file w' = saved (heap w) (remove_key sel (accounts w))
             /\ boxes w' = boxes w
             /\ ((messages w' = messages w /\ email_list w' = email_list w)
                 \/ (messages w' = [] /\ email_list w' = []))).
Proof.
  unfold on_delete_account. unfold bind at 1, read at 1.
  destruct (accounts w) as [|kv d] eqn:Ed.
  { eexists. split; [reflexivity|]. unfold add_box.
    cbn [heap net_log accounts active_account file messages email_list].
    rewrite Ed. auto 10. }
  rewrite <- Ed. clear Ed kv d.
  destruct choice as [sel|].
  2:{ eexists. split; [reflexivity|]. auto 10. }
  destruct (mem sel (accounts w)) eqn:Mm.
  2:{ eexists. split; [reflexivity|]. auto 10. }
  unfold bind at 1, read at 1. unfold bind at 1, read at 1.
  unfold delitem. rewrite Mm.
  destruct (active_account w) as [addr|] eqn:Act.
  - destruct (str_eqb (name (deref (heap w) addr)) sel) eqn:Eq.
    + eexists. split.
      { unfold persist, clear_messages, reset_labels, lift, bind, modify, ret.
        cbv beta iota. reflexivity. }
      frame_field.
      split; [reflexivity|]. split; [reflexivity|]. right. exists sel.
      rewrite ?Act, ?Eq. unfold saved. auto 12.
    + eexists. split.
      { unfold persist, lift, bind, modify, ret. cbv beta iota. reflexivity. }
      frame_field.
      split; [reflexivity|]. split; [reflexivity|]. right. exists sel.
      rewrite ?Act, ?Eq. unfold saved. auto 12.
  - eexists. split.
    { unfold persist, lift, bind, modify, ret. cbv beta iota. reflexivity. }
    frame_field.
    split; [reflexivity|]. split; [reflexivity|]. right. exists sel.
    rewrite ?Act. unfold saved. auto 12.
Qed.

Definition switched_text (account_name : str) : str :=
  s "Switched to account '" ++ account_name ++ s "'. Click Refresh to load emails.".

(** [on_switch_account] returns; for a name of the mapping it makes that
    account active and empties the view, for any other name it shows a box
    and changes nothing. *)
Lemma on_switch_account_run (account_name : str) (w : world) :
  exists w',
    on_switch_account account_name w = (Ok tt, w')
    /\ heap w' = heap w /\ accounts w' = accounts w /\ file w' = file w
    /\ net_log w' = net_log w
    /\ ((get account_name (accounts w) = None
         /\ w' = add_box (mkBox (s "Account not found.") (s "Switch Account")) w)
        \/ exists a,
             get account_name (accounts w) = Some a
             /\ active_account w' = Some a
             /\ messages w' = [] /\ email_list w' = []
             /\ lbl_from_value w' = s "(select email)"
             /\ lbl_to_value w' = s "-" /\ lbl_subject_value w' = s "-"
             /\ body_text w' = switched_text account_name
             /\ boxes w' = boxes w).
Proof.
  unfold on_switch_account. unfold bind at 1, read at 1.
  destruct (get account_name (accounts w)) as [a|] eqn:G.
  - eexists. split.
    { unfold clear_messages, reset_labels, bind, modify. frame_fields. reflexivity. }
    cbn [heap net_log accounts active_account file messages email_list boxes
         lbl_from_value lbl_to_value lbl_subject_value body_text].
    repeat (split; [reflexivity|]). right. exists a. auto 12.
  - eexists. split; [reflexivity|].
    unfold add_box. cbn [heap net_log accounts active_account file].
    repeat (split; [reflexivity|]). left. auto.
Qed.

(** *** Every handler keeps the frame sound *)

Lemma same_accounts_sound (w w' : world) : same_accounts w w' -> sound w -> sound w'.
Proof. unfold sound. intros (-> & -> & -> & _). auto. Qed.

Lemma on_add_account_sound (steps : list dialog_step) (w : world) :
  sound w -> sound (snd (on_add_account steps w)).
Proof.
  intros S. destruct (on_add_account_run steps w)
    as [bs [[x ->]|(f & ip & sp & _ & V & G & ->)]]; cbn [snd]; unfold sound.
  - cbn [heap accounts active_account with_heap_boxes]. now apply sound_at_grow.
  - cbv zeta. cbn [heap accounts active_account with_accounts].
    rewrite <- (@setitem_absent _ _ (length (heap w)) _ G).
    apply sound_at_add; [assumption..|apply V|reflexivity].
Qed.

Lemma on_switch_account_sound (account_name : str) (w : world) :
  sound w -> sound (snd (on_switch_account account_name w)).
Proof.
  intros S. destruct (on_switch_account_run account_name w)
    as (w' & -> & Hh & Ha & _ & _ & [[_ ->]|(a & G & Act & _)]); cbn [snd].
  - exact S.
  - unfold sound. rewrite Hh, Ha, Act. eapply sound_at_switch; eauto.
Qed.

Lemma on_delete_account_sound (choice : option str) (w : world) :
  sound w -> sound (snd (on_delete_account choice w)).
Proof.
  intros S. destruct (on_delete_account_run choice w)
    as (w' & -> & Hh & _ & [(Ha & Act & _)|(sel & _ & _ & Ha & Act & _)]);
    cbn [snd]; unfold sound; rewrite Hh, Ha, Act.
  - exact S.
  - now apply sound_at_delete.
Qed.

Lemma on_edit_active_account_sound (steps : list dialog_step) (w : world) :
  sound w -> sound (snd (on_edit_active_account steps w)).
Proof.
  intros S. destruct (active_account w) as [addr|] eqn:Act.
  2:{ unfold on_edit_active_account, bind, read. rewrite Act. exact S. }
  destruct (on_edit_active_account_run steps S Act)
    as [bs [->|(f & ip & sp & _ & V & [[E ->]|[(E & _ & ->)|(E & G & ->)]])]];
    cbn [snd]; unfold sound in *; cbv zeta;
    cbn [heap accounts active_account with_heap_boxes with_accounts];
    rewrite ?Act in *.
  - exact S.
  - apply sound_at_edit; assumption.
  - apply sound_at_edit; [assumption|reflexivity].
  - apply sound_at_rename; [assumption|apply V|assumption].
Qed.

Lemma handle_sound (lib : email_lib) (e : event) (w : world) :
  sound w -> sound (snd (handle lib e w)).
Proof.
  destruct e; cbn [handle].
  - apply on_add_account_sound.
  - apply on_switch_account_sound.
  - apply on_delete_account_sound.
  - apply on_edit_active_account_sound.
  - apply same_accounts_sound, on_refresh_same_accounts.
  - apply same_accounts_sound, on_select_email_same_accounts.
  - apply same_accounts_sound, on_compose_same_accounts.
Qed.

End Frame.


(** ** The message list *)

Section View.

(** The rows of the list control are the subjects of [self.messages], in
    the same order; each message has a body to show and a subject that is
    not empty. *)
Definition view_ok (w : world) : Prop :=
  email_list w = map entry_subject (messages w)
  /\ Forall (fun e => entry_body e <> None /\ entry_subject e <> []) (messages w).

Definition keeps_view (w w' : world) : Prop := view_ok w -> view_ok w'.

Lemma keeps_view_refl (w : world) : keeps_view w w.
Proof. intros H. exact H. Qed.

Lemma keeps_view_trans (a b c : world) :
  keeps_view a b -> keeps_view b c -> keeps_view a c.
Proof. unfold keeps_view. auto. Qed.

Lemma body_present (lib : email_lib) (msg : message) :
  _extract_plain_text_body lib msg <> None.
Proof.
  unfold _extract_plain_text_body.
  destruct (is_multipart msg).
  - destruct (prefer_text_plain lib (walk msg)) as [[x|e]|]; try discriminate.
    destruct (walk_head msg) as [r ->]. cbn.
    destruct (decode_part lib msg); discriminate.
  - destruct (decode_part lib msg); discriminate.
Qed.

Lemma or_else_nonempty (x dflt : str) : dflt <> [] -> or_else x dflt <> [].
Proof.
  intros D. unfold or_else. destruct (truthy x) eqn:T; [|assumption].
  now apply truthy_nonempty.
Qed.

(** An entry the fetch loop appends has a body and a subject. *)
Lemma fetch_outcome_entry (lib : email_lib) (srv : ImapServer) (msg_id : bytes) (e : entry) :
  fetch_outcome lib srv msg_id = Ok (Some e) ->
  entry_body e <> None /\ entry_subject e <> [].
Proof.
  unfold fetch_outcome.
  destruct (answer_fetch srv msg_id) as [[status data]|x]; cbn [rbind fst snd];
    [|discriminate].
  destruct (skip_response status data); [discriminate|].
  destruct (parse_first lib data) as [msg|x]; cbn [rbind]; [|discriminate].
  intros [= <-]. cbn [entry_body entry_subject]. split.
  - apply body_present.
  - apply or_else_nonempty. discriminate.
Qed.

Lemma fetch_run_entries (lib : email_lib) (srv : ImapServer) (ids : list bytes) :
  Forall (fun e => entry_body e <> None /\ entry_subject e <> [])
         (snd (fst (fetch_run lib srv ids))).
Proof.
  induction ids as [|i ids IH]; cbn [fetch_run]; [constructor|].
  destruct (fetch_outcome lib srv i) as [[e|]|x] eqn:O; [| |constructor].
  - destruct (fetch_run lib srv ids) as [[fetched es] res]. cbn [fst snd] in *.
    constructor; [|assumption]. eapply fetch_outcome_entry; eauto.
  - destruct (fetch_run lib srv ids) as [[fetched es] res]. exact IH.
Qed.

Lemma clear_messages_view : keeps keeps_view clear_messages.
Proof. intros w _. split; [reflexivity|constructor]. Qed.

Lemma fetch_all_view (lib : email_lib) (srv : ImapServer) (ids : list bytes) :
  keeps keeps_view (fetch_all lib srv ids).
Proof.
  intros w [E F]. rewrite fetch_all_run.
  pose proof (fetch_run_entries lib srv ids) as G.
  destruct (fetch_run lib srv ids) as [[fetched es] res]. cbn [fst snd] in *.
  split; cbn [after_fetch messages email_list].
  - now rewrite map_app, E.
  - now apply Forall_app.
Qed.

Lemma ShowModal_view (addr : nat) (steps : list dialog_step) :
  keeps keeps_view (ShowModal addr steps).
Proof.
  intros w. destruct (ShowModal_cases addr steps w)
    as [bs [->|(f & ip & sp & _ & _ & ->)]]; intros H; exact H.
Qed.

(** Goals about single updates that leave the messages and the rows alone. *)
Ltac view_updates :=
  unfold keeps, keeps_view; intros;
  match goal with H : view_ok _ |- _ => exact H end.

Lemma on_refresh_view (lib : email_lib) (srv : ImapServer) :
  keeps keeps_view (on_refresh lib srv).
Proof.
  unfold on_refresh, refresh_body.
  keeps_steps keeps_view_refl keeps_view_trans;
    try apply fetch_all_view; try apply clear_messages_view; view_updates.
Qed.

Lemma on_select_email_view (idx : Z) : keeps keeps_view (on_select_email idx).
Proof.
  unfold on_select_email.
  keeps_steps keeps_view_refl keeps_view_trans; view_updates.
Qed.

Lemma on_compose_view (srv : SmtpServer) (dlg : compose_input) :
  keeps keeps_view (on_compose srv dlg).
Proof.
  unfold on_compose, send_body. cbv zeta.
  keeps_steps keeps_view_refl keeps_view_trans; view_updates.
Qed.

Lemma on_add_account_view (steps : list dialog_step) :
  keeps keeps_view (on_add_account steps).
Proof.
  unfold on_add_account, new_account, persist.
  keeps_steps keeps_view_refl keeps_view_trans;
    try apply ShowModal_view; view_updates.
Qed.

Lemma on_switch_account_view (account_name : str) :
  keeps keeps_view (on_switch_account account_name).
Proof.
  unfold on_switch_account, reset_labels.
  keeps_steps keeps_view_refl keeps_view_trans;
    try apply clear_messages_view; view_updates.
Qed.

Lemma on_delete_account_view (choice : option str) :
  keeps keeps_view (on_delete_account choice).
Proof.
  unfold on_delete_account, reset_labels, persist.
  keeps_steps keeps_view_refl keeps_view_trans;
    try apply clear_messages_view; view_updates.
Qed.

Lemma on_edit_active_account_view (steps : list dialog_step) :
  keeps keeps_view (on_edit_active_account steps).
Proof.
  unfold on_edit_active_account, set_name, persist.
  keeps_steps keeps_view_refl keeps_view_trans;
    try apply ShowModal_view; view_updates.
Qed.

Lemma handle_view (lib : email_lib) (e : event) (w : world) :
  view_ok w -> view_ok (snd (handle lib e w)).
Proof.
  destruct e; cbn [handle].
  - apply on_add_account_view.
  - apply on_switch_account_view.
  - apply on_delete_account_view.
  - apply on_edit_active_account_view.
  - apply on_refresh_view.
  - apply on_select_email_view.
  - apply on_compose_view.
Qed.

(** *** No exception leaves a handler *)

Lemma try_except_returns (m : M unit) (h : exn -> M unit) (w : world) :
  (forall e w', fst (h e w') = Ok tt) -> fst (try_except m h w) = Ok tt.
Proof.
  intros H. unfold try_except. destruct (m w) as [[[]|e] w']; [reflexivity|apply H].
Qed.

Lemma on_refresh_returns (lib : email_lib) (srv : ImapServer) (w : world) :
  fst (on_refresh lib srv w) = Ok tt.
Proof.
  unfold on_refresh, bind, read. destruct (active_account w); [|reflexivity].
  apply try_except_returns. intros e w'. destruct e; reflexivity.
Qed.

Lemma on_compose_returns (srv : SmtpServer) (dlg : compose_input) (w : world) :
  fst (on_compose srv dlg w) = Ok tt.
Proof.
  unfold on_compose, bind, read. destruct (active_account w); [|reflexivity].
  destruct dlg as [|to subject body]; [reflexivity|].
  cbv zeta. destruct (truthy (strip to)); [|reflexivity]. cbn [negb].
  destruct (recipients_of (strip to)); [reflexivity|].
  apply try_except_returns. reflexivity.
Qed.

(** Selecting a row never fails on a list whose messages have bodies. *)
Lemma on_select_email_returns (idx : Z) (w : world) :
  view_ok w -> fst (on_select_email idx w) = Ok tt.
Proof.
  intros [_ F]. unfold on_select_email, bind, read.
  destruct ((idx <? 0)%Z || (Z.of_nat (length (messages w)) <=? idx)%Z) eqn:B;
    [reflexivity|].
  apply orb_false_iff in B as [B1 B2].
  apply Z.ltb_ge in B1. apply Z.leb_gt in B2.
  destruct (nth_error (messages w) (Z.to_nat idx)) as [msg|] eqn:N.
  - apply nth_error_In in N. rewrite Forall_forall in F.
    destruct (F msg N) as [Hb _].
    unfold modify. destruct (entry_body msg); [reflexivity|contradiction].
  - apply nth_error_None in N. lia.
Qed.

Lemma handle_returns (lib : email_lib) (e : event) (w : world) :
  sound w -> view_ok w -> fst (handle lib e w) = Ok tt.
Proof.
  intros S V. destruct e; cbn [handle].
  - destruct (on_add_account_run steps w) as [bs [[x ->]|(f & ip & sp & _ & _ & _ & ->)]];
      reflexivity.
  - destruct (on_switch_account_run account_name w) as (w' & -> & _). reflexivity.
  - destruct (on_delete_account_run choice w) as (w' & -> & _). reflexivity.
  - destruct (active_account w) as [addr|] eqn:Act.
    + destruct (on_edit_active_account_run steps S Act)
        as [bs [->|(f & ip & sp & _ & _ & [[_ ->]|[(_ & _ & ->)|(_ & _ & ->)]])]];
        reflexivity.
    + unfold on_edit_active_account, bind, read. now rewrite Act.
  - apply on_refresh_returns.
  - now apply on_select_email_returns.
  - apply on_compose_returns.
Qed.

(** The frame that [main_loop] reaches from a sound frame is sound, and its
    list shows its messages. *)
Lemma main_loop_inv (lib : email_lib) (es : list event) (w : world) :
  sound w -> view_ok w ->
  sound (main_loop lib es w) /\ view_ok (main_loop lib es w).
Proof.
  revert w. induction es as [|e es IH]; intros w S V; cbn [main_loop]; [auto|].
  apply IH; [now apply handle_sound|now apply handle_view].
Qed.

End View.


(** ** The store file follows the accounts *)

Section Restart.

Lemma In_get {V} (k : str) (v : V) (d : dict V) :
  NoDup (keys d) -> In (k, v) d -> get k d = Some v.
Proof.
  induction d as [|[k0 v0] d IH]; cbn [keys map fst get In]; intros ND H; [destruct H|].
  inversion ND as [|? ? Hk Hd]; subst.
  destruct H as [[= -> ->]|H].
  - now rewrite str_eqb_refl.
  - destruct (str_eqb k k0) eqn:E; [|now apply IH].
    apply str_eqb_eq in E. subst k0. exfalso. apply Hk.
    apply in_map_iff. now exists (k, v).
Qed.

(** Every account of the mapping fits on the lines of the store file. *)
Definition writable_at (h : list AccountConfig) (d : dict nat) : Prop :=
  forall k a, get k d = Some a -> writable (deref h a).

(** The frame is sound, its accounts can be written, and the store file
    loads to them, each as it is read back. *)
Definition restorable (w : world) : Prop :=
  sound w
  /\ writable_at (heap w) (accounts w)
  /\ load_all_accounts (file w) = Ok (trim_all (resolve (heap w) (accounts w))).

Lemma keys_resolve (h : list AccountConfig) (d : dict nat) : keys (resolve h d) = keys d.
Proof. unfold keys, resolve. rewrite map_map. reflexivity. Qed.

Lemma resolve_grow h x d act :
  sound_at h d act -> resolve (h ++ x) d = resolve h d.
Proof.
  intros (ND & K & _). unfold resolve. apply map_ext_in. intros [k a] I.
  cbn [fst snd]. f_equal. apply deref_app.
  apply (@In_get _ k a d ND) in I. now destruct (K k a I).
Qed.

(** What [persist] writes loads to the accounts it wrote. *)
Lemma load_saved_frame h d act :
  sound_at h d act -> writable_at h d ->
  load_all_accounts (saved h d) = Ok (trim_all (resolve h d)).
Proof.
  intros (ND & K & _) W. unfold saved. apply load_save_trimmed.
  - now rewrite keys_resolve.
  - intros k v I. unfold resolve in I.
    apply in_map_iff in I as [[k' a] [[= <- <-] I]]. cbn [fst snd].
    apply (@In_get _ k' a d ND) in I. now destruct (K k' a I) as (_ & N & _).
  - apply Forall_forall. intros v I. unfold values, resolve in I.
    rewrite map_map in I. apply in_map_iff in I as [[k a] [<- I]]. cbn [fst snd].
    apply (@In_get _ k a d ND) in I. exact (W k a I).
Qed.

Lemma restorable_saved (w : world) (act : option nat) :
  sound_at (heap w) (accounts w) act -> active_account w = act ->
  writable_at (heap w) (accounts w) ->
  file w = saved (heap w) (accounts w) ->
  restorable w.
Proof.
  intros S A W F. split; [unfold sound; now rewrite A|]. split; [assumption|].
  rewrite F. eapply load_saved_frame; eauto.
Qed.

Lemma writable_at_grow h x d act :
  sound_at h d act -> writable_at h d -> writable_at (h ++ x) d.
Proof.
  intros (_ & K & _) W k a G. rewrite deref_app; [now apply (W k)|].
  now destruct (K k a G).
Qed.

Lemma writable_at_add h d act n v :
  sound_at h d act -> writable_at h d -> writable v ->
  writable_at (h ++ [v]) (setitem n (length h) d).
Proof.
  intros (_ & K & _) W Wv k a G.
  destruct (list_eq_dec ascii_dec k n) as [->|D].
  - rewrite get_setitem_same in G. injection G as <-. now rewrite deref_new.
  - rewrite get_setitem_other in G by assumption.
    rewrite deref_app; [now apply (W k)|]. now destruct (K k a G).
Qed.

Lemma writable_at_delete h d act sel :
  sound_at h d act -> writable_at h d -> writable_at h (remove_key sel d).
Proof.
  intros (ND & _ & _) W k a G.
  apply get_remove_key_Some in G as [_ G]; [|assumption]. now apply (W k).
Qed.

Lemma writable_at_edit h d addr v :
  sound_at h d (Some addr) -> writable_at h d -> writable v ->
  writable_at (store addr v h) d.
Proof.
  intros (_ & K & _) W Wv k a G. destruct (K k a G) as (L & _ & _).
  destruct (Nat.eq_dec a addr) as [->|D].
  - now rewrite deref_store_same.
  - rewrite deref_store_other by assumption. now apply (W k).
Qed.

Lemma writable_at_rename h d addr v :
  sound_at h d (Some addr) -> writable_at h d -> writable v ->
  writable_at (store addr v h)
              (setitem (name v) addr (remove_key (name (deref h addr)) d)).
Proof.
  intros S W Wv k a G. pose proof (sound_at_active S) as Ga.
  destruct S as (ND & K & _). destruct (K _ _ Ga) as (La & _ & _).
  destruct (list_eq_dec ascii_dec k (name v)) as [->|D].
  - rewrite get_setitem_same in G. injection G as <-. now rewrite deref_store_same.
  - rewrite get_setitem_other in G by assumption.
    apply get_remove_key_Some in G as [D' G]; [|assumption].
    destruct (K k a G) as (L & Nm & _).
    assert (a <> addr) by (intros ->; congruence).
    rewrite deref_store_other by assumption. now apply (W k).
Qed.

(** The fields of a form fit on one line each. *)
Definition form_lines (f : form) : Prop :=
  one_line (txt_name f) /\ one_line (txt_email f) /\ one_line (txt_password f)
  /\ one_line (txt_imap_server f) /\ one_line (txt_smtp_server f).

Definition steps_lines (steps : list dialog_step) : Prop :=
  forall f, In (ClickSave f) steps -> form_lines f.

(** The text fields of the settings dialog are single-line controls. *)
Definition event_lines (e : event) : Prop :=
  match e with
  | AddAccount steps | EditActiveAccount steps => steps_lines steps
  | _ => True
  end.

Lemma account_of_form_writable (f : form) (ip sp : Z) :
  valid_form f ip sp -> form_lines f -> writable (account_of_form f ip sp).
Proof.
  intros (N & _ & _) (Ln & Le & Lp & Li & Ls). unfold writable, account_of_form.
  cbn [name email password imap_server smtp_server].
  repeat split; try assumption; now apply strip_Forall.
Qed.

Lemma renamed_writable (n : str) (u v : AccountConfig) :
  writable u -> name u = n -> writable v -> writable (renamed n v).
Proof.
  intros (N & L & _) <- (_ & _ & R). unfold writable, renamed.
  cbn [name email password imap_server smtp_server]. auto.
Qed.

Lemma same_accounts_restorable (w w' : world) :
  same_accounts w w' -> restorable w -> restorable w'.
Proof. unfold restorable, sound. intros (-> & -> & -> & ->). auto. Qed.

Lemma on_add_account_restorable (steps : list dialog_step) (w : world) :
  steps_lines steps -> restorable w -> restorable (snd (on_add_account steps w)).
Proof.
  intros L (S & W & F). destruct (on_add_account_run steps w)
    as [bs [[x ->]|(f & ip & sp & I & V & G & ->)]]; cbn [snd].
  - split; [|split]; unfold sound; cbn [heap accounts active_account file with_heap_boxes].
    + now apply sound_at_grow.
    + eapply writable_at_grow; eauto.
    + rewrite F. f_equal. f_equal. symmetry. eapply resolve_grow; eauto.
  - cbv zeta. eapply restorable_saved;
      cbn [heap accounts active_account file with_accounts];
      try reflexivity;
      rewrite <- (@setitem_absent _ _ (length (heap w)) _ G).
    + apply sound_at_add; [exact S|assumption|apply V|reflexivity].
    + eapply writable_at_add; eauto. apply account_of_form_writable; auto.
Qed.

Lemma on_switch_account_restorable (account_name : str) (w : world) :
  restorable w -> restorable (snd (on_switch_account account_name w)).
Proof.
  intros R. pose proof (on_switch_account_sound account_name (proj1 R)) as S.
  destruct R as (_ & W & F).
  destruct (on_switch_account_run account_name w)
    as (w' & E & Hh & Ha & Hf & _). rewrite E in *. cbn [snd] in *.
  split; [assumption|]. now rewrite Hh, Ha, Hf.
Qed.

Lemma on_delete_account_restorable (choice : option str) (w : world) :
  restorable w -> restorable (snd (on_delete_account choice w)).
Proof.
  intros (S & W & F). destruct (on_delete_account_run choice w)
    as (w' & -> & Hh & _ & [(Ha & Act & Hf & _)|(sel & _ & _ & Ha & Act & Hf & _)]);
    cbn [snd].
  - split; [|split]; unfold sound; rewrite ?Hh, ?Ha, ?Act, ?Hf; assumption.
  - eapply restorable_saved; rewrite ?Hh, ?Ha; try eassumption.
    + now apply sound_at_delete.
    + eapply writable_at_delete; eauto.
Qed.

Lemma on_edit_active_account_restorable (steps : list dialog_step) (w : world) :
  steps_lines steps -> restorable w ->
  restorable (snd (on_edit_active_account steps w)).
Proof.
  intros L R. destruct (active_account w) as [addr|] eqn:Act.
  2:{ unfold on_edit_active_account, bind, read. rewrite Act. exact R. }
  destruct R as (S & W & F).
  pose proof S as S'. unfold sound in S'. rewrite Act in S'.
  assert (Wo : writable (deref (heap w) addr)).
  { apply (W (name (deref (heap w) addr))). now apply sound_at_active. }
  destruct (on_edit_active_account_run steps S Act)
    as [bs [->|(f & ip & sp & I & V & [[E ->]|[(E & _ & ->)|(E & G & ->)]])]];
    cbn [snd]; cbv zeta.
  - split; [|split]; assumption.
  - eapply restorable_saved;
      cbn [heap accounts active_account file with_accounts]; try reflexivity.
    + now apply sound_at_edit.
    + eapply writable_at_edit; eauto. apply account_of_form_writable; auto.
  - eapply restorable_saved;
      cbn [heap accounts active_account file with_accounts]; try reflexivity.
    + now apply sound_at_edit.
    + eapply writable_at_edit; eauto.
      eapply renamed_writable; eauto. apply account_of_form_writable; auto.
  - eapply restorable_saved;
      cbn [heap accounts active_account file with_accounts]; try reflexivity.
    + apply sound_at_rename; [assumption|apply V|assumption].
    + apply writable_at_rename; auto. apply account_of_form_writable; auto.
Qed.

Lemma handle_restorable (lib : email_lib) (e : event) (w : world) :
  event_lines e -> restorable w -> restorable (snd (handle lib e w)).
Proof.
  destruct e; cbn [handle event_lines]; intros L.
  - now apply on_add_account_restorable.
  - apply on_switch_account_restorable.
  - apply on_delete_account_restorable.
  - now apply on_edit_active_account_restorable.
  - apply same_accounts_restorable, on_refresh_same_accounts.
  - apply same_accounts_restorable, on_select_email_same_accounts.
  - apply same_accounts_restorable, on_compose_same_accounts.
Qed.

Lemma main_loop_restorable (lib : email_lib) (es : list event) (w : world) :
  Forall event_lines es -> restorable w -> restorable (main_loop lib es w).
Proof.
  intros L. revert w. induction L as [|e es He _ IH]; intros w R; cbn [main_loop];
    [assumption|]. apply IH. now apply handle_restorable.
Qed.

End Restart.


(** ** Start-up *)

Section StartUp.

(** The account [__init__] makes active: the one bound to the least name. *)
Definition first_account (d : dict nat) : option nat :=
  match sorted (keys d) with
  | [] => None
  | first_name :: _ => get first_name d
  end.

Definition initial_frame (file : option str) (m : dict AccountConfig) : world :=
  let act := first_account (loaded_accounts m) in
  mkWorld (loaded_heap m) (loaded_accounts m) act [] [] (s "(select email)") (s "-")
          (s "-") (start_msg act) file [] [].

Lemma keys_loaded (m : dict AccountConfig) : keys (loaded_accounts m) = keys m.
Proof.
  unfold loaded_accounts. generalize 0.
  induction m as [|[k v] m IH]; intros n; cbn; [reflexivity|].
  f_equal. apply IH.
Qed.

(** The name [k] is bound to the address of the object loaded under [k]. *)
Lemma loaded_get (m : dict AccountConfig) (k : str) (a : nat) :
  forall pre : list AccountConfig,
    get k (combine (keys m) (seq (length pre) (length m))) = Some a ->
    a < length pre + length m /\ In (k, deref (pre ++ values m) a) m.
Proof.
  induction m as [|[k0 v0] m IH]; intros pre; cbn [keys values map fst snd length seq combine get];
    [discriminate|].
  destruct (str_eqb k k0) eqn:E.
  - apply str_eqb_eq in E. subst k0. intros [= <-]. split; [lia|].
    left. f_equal. unfold deref. now rewrite app_nth2, Nat.sub_diag by lia.
  - intros G. specialize (IH (pre ++ [v0])).
    rewrite length_app, Nat.add_1_r, <- app_assoc in IH. cbn [app] in IH.
    destruct (IH G) as [L I]. split; [lia|now right].
Qed.

Lemma loaded_resolve (m : dict AccountConfig) :
  resolve (loaded_heap m) (loaded_accounts m) = m.
Proof.
  unfold resolve, loaded_heap, loaded_accounts.
  change (values m) with ([] ++ values m).
  change 0 with (length (@nil AccountConfig)).
  generalize (@nil AccountConfig).
  induction m as [|[k0 v0] m IH]; intros pre;
    cbn [keys values map fst snd length seq combine]; [reflexivity|].
  f_equal.
  - f_equal. unfold deref. now rewrite app_nth2, Nat.sub_diag by lia.
  - specialize (IH (pre ++ [v0])).
    rewrite length_app, Nat.add_1_r, <- app_assoc in IH. exact IH.
Qed.

(** A mapping that is not empty has a first account. *)
Lemma first_account_some (d : dict nat) :
  d <> [] ->
  exists k r a, sorted (keys d) = k :: r /\ get k d = Some a
                /\ first_account d = Some a.
Proof.
  intros N. unfold first_account.
  destruct (sorted (keys d)) as [|k r] eqn:S.
  - exfalso. apply N. apply (f_equal (@length str)) in S.
    rewrite length_sorted in S. unfold keys in S. rewrite length_map in S.
    now destruct d.
  - destruct (get k d) as [a|] eqn:G; [now exists k, r, a|].
    exfalso. apply get_None_keys in G. apply G.
    apply In_sorted. rewrite S. now left.
Qed.

(** When the store file loads, start-up succeeds and gives the initial
    frame. *)
Lemma init_run (file : option str) (m : dict AccountConfig) :
  load_all_accounts file = Ok m ->
  EmailClientFrame_init file = Ok (initial_frame file m).
Proof.
  intros L. unfold EmailClientFrame_init, initial_frame. rewrite L. cbn [rbind].
  destruct (loaded_accounts m) as [|kv d] eqn:D; [reflexivity|].
  rewrite <- D. assert (N : loaded_accounts m <> []) by (rewrite D; discriminate).
  destruct (first_account_some N) as (k & r & a & S & G & F).
  rewrite F, S, G. reflexivity.
Qed.

Lemma init_inv (file : option str) (w : world) :
  EmailClientFrame_init file = Ok w ->
  exists m, load_all_accounts file = Ok m /\ w = initial_frame file m.
Proof.
  intros I. destruct (load_all_accounts file) as [m|e] eqn:L.
  - exists m. split; [reflexivity|]. rewrite (init_run file L) in I. now injection I.
  - unfold EmailClientFrame_init in I. rewrite L in I. discriminate.
Qed.

Lemma trimmed_storable (a : AccountConfig) : storable a -> trimmed a = a.
Proof.
  intros (_ & _ & [E _] & [P _] & [I _] & [S _]). destruct a as [n e p i ip sv sp].
  unfold trimmed. cbn [name email password imap_server imap_port smtp_server smtp_port] in *.
  now rewrite !clean_strip.
Qed.

Lemma storable_writable (a : AccountConfig) : storable a -> writable a.
Proof. intros (N & L & [_ E] & [_ P] & [_ I] & [_ S]). repeat split; assumption. Qed.

Lemma trim_all_storable (m : dict AccountConfig) :
  Forall storable (values m) -> trim_all m = m.
Proof.
  unfold trim_all, values. induction m as [|[k a] m IH]; cbn [map fst snd];
    intros F; [reflexivity|].
  apply Forall_cons_iff in F as [Fa Fm]. cbn [snd] in Fa.
  now rewrite trimmed_storable, IH.
Qed.

(** The frame after start-up on a well-formed store file. *)
Lemma init_restorable (disk : option str) (w : world) :
  (forall content, disk = Some content -> well_formed content) ->
  EmailClientFrame_init disk = Ok w ->
  restorable w /\ view_ok w.
Proof.
  intros WF I. destruct (init_inv disk I) as (m & L & ->).
  assert (SM : storable_mapping m).
  { destruct disk as [content|].
    - eapply load_storable; eauto.
    - injection L as <-. split; [constructor|]. split; [intros k a []|constructor]. }
  destruct SM as (ND & K & St).
  assert (Sd : sound_at (loaded_heap m) (loaded_accounts m)
                        (first_account (loaded_accounts m))).
  { split; [now rewrite keys_loaded|]. split.
    - intros k a G. unfold loaded_accounts in G.
      destruct (@loaded_get m k a [] G) as [Lt In_]. cbn [app length] in *.
      unfold loaded_heap, values. rewrite length_map.
      pose proof (K _ _ In_) as Nm. split; [lia|]. split; [exact Nm|].
      rewrite Forall_forall in St.
      assert (Sa : storable (deref (values m) a)).
      { apply St. unfold values. apply in_map_iff. now exists (k, deref (values m) a). }
      rewrite <- Nm. apply Sa.
    - intros a F. unfold first_account in F.
      destruct (sorted (keys (loaded_accounts m))) as [|k r]; [discriminate|]. eauto. }
  split; [split; [exact Sd|split]|split; [reflexivity|constructor]].
  - intros k a G. cbn [heap accounts initial_frame] in *. unfold loaded_accounts in G.
    destruct (@loaded_get m k a [] G) as [_ In_]. cbn [app] in In_.
    apply storable_writable. rewrite Forall_forall in St. apply St.
    unfold values. apply in_map_iff. now exists (k, deref (values m) a).
  - cbn [heap accounts file initial_frame]. rewrite loaded_resolve, L.
    now rewrite trim_all_storable.
Qed.

End StartUp.


(** ** A session: start-up, then any events *)

Section Session.

Variable lib : email_lib.

(** From start-up on a store file that keeps the names in the section
    headers, whatever the user does and whatever the servers answer: the
    names of the mapping are distinct and not empty, each name is bound to
    an account object that carries that name, and the active account, if
    there is one, is an account of the mapping. *)
Theorem session_frame_sound (disk : option str) (w0 : world) (es : list event) :
  (forall content, disk = Some content -> well_formed content) ->
  EmailClientFrame_init disk = Ok w0 ->
  sound (main_loop lib es w0).
Proof.
  intros WF I. destruct (init_restorable WF I) as [(S & _) V].
  now apply main_loop_inv.
Qed.

(** In such a session no handler lets an exception escape: every event,
    after any events before it, is handled to the end. *)
Theorem session_never_raises (disk : option str) (w0 : world)
    (es : list event) (e : event) :
  (forall content, disk = Some content -> well_formed content) ->
  EmailClientFrame_init disk = Ok w0 ->
  fst (handle lib e (main_loop lib es w0)) = Ok tt.
Proof.
  intros WF I. destruct (init_restorable WF I) as [(S & _) V].
  destruct (main_loop_inv lib es S V). now apply handle_returns.
Qed.

(** When the fields typed into the settings dialog have no line breaks, the
    program can be closed after any event and started again: start-up
    succeeds on the store file as it is then, and finds the same names in
    the same order, each with its account as it was, but for the blanks
    around the address, the password and the server names. *)
Theorem session_restart (disk : option str) (w0 : world) (es : list event) :
  (forall content, disk = Some content -> well_formed content) ->
  EmailClientFrame_init disk = Ok w0 ->
  Forall event_lines es ->
  let w := main_loop lib es w0 in
  exists w1,
    EmailClientFrame_init (file w) = Ok w1
    /\ resolve (heap w1) (accounts w1) = trim_all (resolve (heap w) (accounts w)).
Proof.
  intros WF I L w. destruct (init_restorable WF I) as [R _].
  destruct (main_loop_restorable lib L R) as (_ & _ & F). fold w in F.
  exists (initial_frame (file w) (trim_all (resolve (heap w) (accounts w)))).
  split; [now apply init_run|]. cbn [heap accounts initial_frame].
  apply loaded_resolve.
Qed.

(** At any point of a session the rows of the list are the subjects of the
    messages held, so selecting a row shows the message the row stands for:
    its sender, its recipients, its subject and its body.  A selection
    outside the list changes nothing. *)
Theorem select_shows_row (disk : option str) (w0 : world) (es : list event) (idx : Z) :
  EmailClientFrame_init disk = Ok w0 ->
  let w := main_loop lib es w0 in
  ((0 <= idx < Z.of_nat (length (email_list w)))%Z ->
   exists msg b,
     nth_error (messages w) (Z.to_nat idx) = Some msg
     /\ nth_error (email_list w) (Z.to_nat idx) = Some (entry_subject msg)
     /\ entry_body msg = Some b
     /\ on_select_email idx w
        = (Ok tt, set_body_text b
                    (set_labels (entry_from msg) (entry_to msg) (entry_subject msg) w)))
  /\ ((idx < 0 \/ Z.of_nat (length (email_list w)) <= idx)%Z ->
      on_select_email idx w = (Ok tt, w)).
Proof.
  intros I w.
  assert (V : view_ok w).
  { destruct (init_inv disk I) as (m & _ & ->).
    assert (V0 : view_ok (initial_frame disk m)) by (split; [reflexivity|constructor]).
    clear I. subst w. revert V0. generalize (initial_frame disk m).
    induction es as [|e es' IH]; intros w V0; cbn [main_loop]; [assumption|].
    apply IH. now apply handle_view. }
  destruct V as [E F].
  assert (Len : length (email_list w) = length (messages w))
    by now rewrite E, length_map.
  rewrite Len. split.
  - intros [Lo Hi].
    destruct (nth_error (messages w) (Z.to_nat idx)) as [msg|] eqn:N.
    2:{ apply nth_error_None in N. lia. }
    rewrite Forall_forall in F. destruct (F msg (nth_error_In _ _ N)) as [Hb _].
    destruct (entry_body msg) as [b|] eqn:B; [|contradiction].
    exists msg, b. split; [reflexivity|]. split; [now rewrite E, nth_error_map, N|].
    split; [exact B|].
    unfold on_select_email, bind, read.
    apply Z.ltb_ge in Lo. apply Z.leb_gt in Hi. rewrite Lo, Hi, N. cbn [orb].
    unfold modify. now rewrite B.
  - intros O. unfold on_select_email, bind, read.
    assert (T : ((idx <? 0)%Z || (Z.of_nat (length (messages w)) <=? idx)%Z) = true).
    { apply orb_true_iff. destruct O; [left; now apply Z.ltb_lt|right; now apply Z.leb_le]. }
    now rewrite T.
Qed.

End Session.

(** A session on the store file [loose_file]: an account is added through
    the dialog, the inbox is read, a message is selected, and accounts are
    switched, renamed and deleted. *)
Definition office_form : form :=
  mkForm (s " office ") (s "me@example.com") (s " pw ") (s "imap.example.com")
         (s "143") (s "smtp.example.com") (s "25").

Definition bureau_form : form :=
  mkForm (s "bureau") (s "me@example.com") (s "pw") (s "imap.example.com")
         (s "143") (s "smtp.example.com") (s "25").

Definition a_session : list event :=
  [ AddAccount [ClickSave office_form];
    Refresh good_imap;
    SelectEmail 0;
    SwitchAccount (s "office");
    EditActiveAccount [ClickSave bureau_form];
    DeleteAccount (Some (s "work")) ].

Definition started : world := initial_frame (Some loose_file) loose_loaded.

Lemma loose_file_well_formed (content : str) :
  Some loose_file = Some content -> well_formed content.
Proof.
  intros [= <-]. unfold well_formed.
  let l := eval vm_compute in (file_lines loose_file) in
  change (file_lines loose_file) with l.
  repeat (apply Forall_cons; [vm_compute; reflexivity|]). apply Forall_nil.
Qed.

Lemma one_line_check (x : str) :
  forallb (fun c => negb (Ascii.eqb c LF) && negb (Ascii.eqb c CR)) x = true ->
  one_line x.
Proof.
  intros H. apply Forall_forall. intros c Hc.
  rewrite forallb_forall in H. specialize (H c Hc).
  apply andb_true_iff in H as [H1 H2]. split; intros ->; discriminate.
Qed.

Lemma a_session_lines : Forall event_lines a_session.
Proof.
  repeat (apply Forall_cons; [|]); try apply Forall_nil; cbn [event_lines];
    try exact I;
    (intros f [[= <-]|[]]; repeat split; apply one_line_check; vm_compute; reflexivity).
Qed.

Lemma session_frame_sound_witness : sound (main_loop plain_lib a_session started).
Proof.
  apply (@session_frame_sound plain_lib (Some loose_file) started a_session).
  - exact loose_file_well_formed.
  - vm_compute. reflexivity.
Defined.

Lemma session_never_raises_witness :
  fst (handle plain_lib (Compose accepting_smtp (ComposeSend (s "a@x.com") [] []))
         (main_loop plain_lib a_session started)) = Ok tt.
Proof.
  apply (@session_never_raises plain_lib (Some loose_file) started a_session).
  - exact loose_file_well_formed.
  - vm_compute. reflexivity.
Defined.

Lemma session_restart_witness :
  exists w1,
    EmailClientFrame_init (file (main_loop plain_lib a_session started)) = Ok w1
    /\ resolve (heap w1) (accounts w1)
       = trim_all (resolve (heap (main_loop plain_lib a_session started))
                           (accounts (main_loop plain_lib a_session started))).
Proof.
  apply (@session_restart plain_lib (Some loose_file) started a_session).
  - exact loose_file_well_formed.
  - vm_compute. reflexivity.
  - exact a_session_lines.
Defined.

Lemma select_shows_row_witness :
  exists msg b,
    nth_error (messages (main_loop plain_lib [Refresh good_imap] started)) 1 = Some msg
    /\ nth_error (email_list (main_loop plain_lib [Refresh good_imap] started)) 1
       = Some (entry_subject msg)
    /\ entry_body msg = Some b
    /\ on_select_email 1 (main_loop plain_lib [Refresh good_imap] started)
       = (Ok tt, set_body_text b
                   (set_labels (entry_from msg) (entry_to msg) (entry_subject msg)
                               (main_loop plain_lib [Refresh good_imap] started))).
Proof.
  apply (@select_shows_row plain_lib (Some loose_file) started [Refresh good_imap] 1).
  - vm_compute. reflexivity.
  - vm_compute. split; [discriminate|reflexivity].
Defined.


(** ** The account operations, one by one *)

Section Operations.

(** A dialog whose first Save passes the checks ends there. *)
Lemma ShowModal_first_valid (addr : nat) (f : form) (rest : list dialog_step)
    (ip sp : Z) (w : world) :
  valid_form f ip sp ->
  ShowModal addr (ClickSave f :: rest) w
  = (Ok true, with_heap_boxes (store addr (account_of_form f ip sp) (heap w)) [] w).
Proof.
  intros (N & E & P). cbn [ShowModal]. unfold bind.
  rewrite (@on_save_valid addr f ip sp w N E P). unfold ret, with_heap_boxes, set_heap.
  cbn. now rewrite app_nil_r.
Qed.

Lemma on_add_account_first_valid (f : form) (rest : list dialog_step) (ip sp : Z) (w : world) :
  valid_form f ip sp ->
  on_add_account (ClickSave f :: rest) w = on_add_account [ClickSave f] w.
Proof.
  intros V. unfold on_add_account, new_account, bind.
  now rewrite !(@ShowModal_first_valid _ f _ ip sp _ V).
Qed.

Lemma on_edit_first_valid (f : form) (rest : list dialog_step) (ip sp : Z) (w : world) :
  valid_form f ip sp ->
  on_edit_active_account (ClickSave f :: rest) w = on_edit_active_account [ClickSave f] w.
Proof.
  intros V. unfold on_edit_active_account, bind, read.
  destruct (active_account w); [|reflexivity].
  now rewrite !(@ShowModal_first_valid _ f _ ip sp _ V).
Qed.

Definition name_exists_box : box :=
  mkBox (s "An account with this name already exists.") (s "Error").

Lemma on_add_account_valid (f : form) (ip sp : Z) (w : world) :
  valid_form f ip sp ->
  on_add_account [ClickSave f] w
  = (Ok tt,
     let n := strip (txt_name f) in
     let h := heap w ++ [account_of_form f ip sp] in
     match get n (accounts w) with
     | Some _ => with_heap_boxes h [name_exists_box] w
     | None =>
         let d := accounts w ++ [(n, length (heap w))] in
         with_accounts h d
           (match active_account w with
            | Some a => Some a
            | None => Some (length (heap w))
            end)
           (match active_account w with
            | Some _ => body_text w
            | None => added_text
            end)
           (saved h d) [] w
     end).
Proof.
  intros V.
  assert (R : forall k : nat -> bool -> M unit,
             bind new_account (fun a => bind (ShowModal a [ClickSave f]) (k a)) w
             = k (length (heap w)) true
                 (with_heap_boxes (heap w ++ [account_of_form f ip sp]) [] w)).
  { intros k. unfold new_account, bind at 1 2.
    rewrite (@ShowModal_first_valid _ f _ ip sp _ V). cbn [heap set_heap].
    now rewrite store_new. }
  unfold on_add_account. rewrite R. clear R.
  unfold bind at 1, read at 1. cbn [heap with_heap_boxes]. rewrite deref_new.
  cbn [name account_of_form]. unfold bind at 1, read at 1.
  cbn [accounts with_heap_boxes].
  assert (T : truthy (strip (txt_name f)) = true) by (apply truthy_nonempty, V).
  rewrite T. cbn [negb]. unfold mem. cbv zeta.
  destruct (get (strip (txt_name f)) (accounts w)) as [a|] eqn:G.
  - unfold MessageBox, modify, name_exists_box. frame_fields.
    now rewrite app_nil_r.
  - rewrite (@setitem_absent _ _ (length (heap w)) _ G).
    unfold persist, bind, modify, read, ret, saved, added_text. frame_fields.
    destruct (active_account w) eqn:Act; reflexivity.
Qed.

(** Adding an account.  The form passes the dialog's checks.  When no
    account has its name, the new object is bound to that name after all
    the names there were, the store file is written, and the account
    becomes the active one only if none was active; the message list is not
    touched.  When the name is taken, a box says so, and the mapping, the
    active account and the store file stay as they were: what was typed is
    dropped.  Either way the objects of the other accounts are as before. *)
Theorem add_account (f : form) (rest : list dialog_step) (ip sp : Z) (w : world) :
  valid_form f ip sp ->
  let n := strip (txt_name f) in
  let new_acc := length (heap w) in
  let w' := snd (on_add_account (ClickSave f :: rest) w) in
  (forall a, a < length (heap w) -> deref (heap w') a = deref (heap w) a)
  /\ messages w' = messages w /\ email_list w' = email_list w
  /\ (get n (accounts w) = None ->
      accounts w' = accounts w ++ [(n, new_acc)]
      /\ deref (heap w') new_acc = account_of_form f ip sp
      /\ active_account w'
         = match active_account w with Some a => Some a | None => Some new_acc end
      /\ file w' = saved (heap w') (accounts w')
      /\ boxes w' = boxes w)
  /\ (get n (accounts w) <> None ->
      accounts w' = accounts w /\ active_account w' = active_account w
      /\ file w' = file w
      /\ boxes w' = boxes w ++ [name_exists_box]).
Proof.
  intros V n new_acc w'. subst w'.
  rewrite (@on_add_account_first_valid f rest ip sp w V), (on_add_account_valid w V).
  cbv zeta. fold n. cbn [snd].
  destruct (get n (accounts w)) as [a|] eqn:G;
    cbn [heap accounts active_account messages email_list file boxes
         with_heap_boxes with_accounts].
  - split; [intros a' L; now apply deref_app|]. split; [reflexivity|].
    split; [reflexivity|]. split; [discriminate|]. auto.
  - split; [intros a' L; now apply deref_app|]. split; [reflexivity|].
    split; [reflexivity|]. split; [|intros C; now elim C]. intros _.
    subst new_acc. rewrite deref_new, app_nil_r. auto.
Qed.

(** Renaming the active account.  The form passes the dialog's checks and
    its name is new to the mapping: the old name is removed and the new
    name is bound, after all the names that remain, to the same object,
    which now holds the form's fields; the other names and objects are as
    before, the account stays active, and the store file is written. *)
Theorem rename_moves_key (f : form) (rest : list dialog_step) (ip sp : Z)
    (w : world) (addr : nat) :
  sound w -> active_account w = Some addr -> valid_form f ip sp ->
  let old := name (deref (heap w) addr) in
  let n := strip (txt_name f) in
  n <> old -> get n (accounts w) = None ->
  let w' := snd (on_edit_active_account (ClickSave f :: rest) w) in
  accounts w' = remove_key old (accounts w) ++ [(n, addr)]
  /\ get old (accounts w') = None
  /\ (forall k, k <> old -> k <> n -> get k (accounts w') = get k (accounts w))
  /\ deref (heap w') addr = account_of_form f ip sp
  /\ (forall a, a <> addr -> deref (heap w') a = deref (heap w) a)
  /\ active_account w' = Some addr
  /\ file w' = saved (heap w') (accounts w')
  /\ boxes w' = boxes w /\ messages w' = messages w.
Proof.
  intros S Act V old n D G w'. subst w'.
  rewrite (@on_edit_first_valid f rest ip sp w V).
  pose proof (@ShowModal_first_valid addr f [] ip sp w V) as H.
  destruct (@on_edit_active_account_saved [ClickSave f] w addr f ip sp [] S Act V H)
    as [[E _]|[(_ & (other & G' & _) & _)|(_ & _ & ->)]].
  - now elim D.
  - cbn [name account_of_form] in G'. fold n in G'. congruence.
  - cbv zeta. cbn [snd heap accounts active_account file boxes messages with_accounts].
    cbn [name account_of_form]. fold n. fold old.
    unfold sound in S. rewrite Act in S. pose proof (sound_at_active S) as Ga.
    destruct S as (ND & K & _). destruct (K _ _ Ga) as (La & _ & _).
    assert (Gr : get n (remove_key old (accounts w)) = None)
      by now rewrite get_remove_key_other.
    split; [now apply setitem_absent|]. split.
    { rewrite get_setitem_other by congruence. now apply get_remove_key_same. }
    split.
    { intros k Ko Kn. rewrite get_setitem_other by assumption.
      now apply get_remove_key_other. }
    split; [now apply deref_store_same|].
    split; [intros a Na; now apply deref_store_other|].
    rewrite app_nil_r. auto.
Qed.

(** The Switch Account submenu.  Without accounts it holds one disabled
    placeholder.  Otherwise it lists every name of the mapping once, in
    ascending order, and each item switches to the account bound to its
    label: that account becomes active, the message list is emptied, and
    no "Account not found" box is shown. *)
Theorem switch_menu (w : world) :
  let items := _rebuild_switch_account_menu (accounts w) in
  (accounts w = [] -> items = [mkItem (s "(no accounts)") false])
  /\ (accounts w <> [] ->
      StronglySorted str_le (map item_label items)
      /\ (forall k, In k (map item_label items) <-> In k (keys (accounts w)))
      /\ length items = length (accounts w)
      /\ forall it, In it items ->
           item_enabled it = true
           /\ exists a,
                get (item_label it) (accounts w) = Some a
                /\ let w' := snd (on_switch_account (item_label it) w) in
                   active_account w' = Some a
                   /\ messages w' = [] /\ email_list w' = []
                   /\ boxes w' = boxes w
                   /\ body_text w' = switched_text (item_label it)).
Proof.
  cbv zeta. unfold _rebuild_switch_account_menu. split.
  - intros ->. reflexivity.
  - intros N. destruct (accounts w) as [|kv d] eqn:D; [now elim N|].
    rewrite <- D. clear D kv d N.
    assert (L : map item_label (map (fun n => mkItem n true) (sorted (keys (accounts w))))
                = sorted (keys (accounts w))).
    { rewrite map_map. cbn [item_label]. apply map_id. }
    rewrite L. split; [apply sorted_sorted|]. split; [intros k; apply In_sorted|].
    split.
    { rewrite length_map, length_sorted. unfold keys. apply length_map. }
    intros it I. apply in_map_iff in I as [k [<- I]]. cbn [item_enabled item_label].
    split; [reflexivity|]. apply (proj1 (In_sorted _ _)) in I.
    destruct (get k (accounts w)) as [a|] eqn:G.
    2:{ apply get_None_keys in G. exfalso. apply G. exact I. }
    exists a. split; [reflexivity|].
    destruct (on_switch_account_run k w)
      as (w' & -> & _ & _ & _ & _ & [[G' _]|(a' & G' & A & M & E & _ & _ & _ & B & X)]);
      [congruence|]. cbn [snd]. rewrite G in G'. injection G' as <-. auto.
Qed.

(** Start-up.  When the store file loads, the frame holds the accounts
    loaded, under their names and in the order of the file, and no
    messages.  Without accounts none is active and the body asks to add
    one; otherwise the active account is the one loaded under the least
    name, by code points. *)
Theorem init_activates_first_name (disk : option str) (m : dict AccountConfig) :
  load_all_accounts disk = Ok m ->
  exists w,
    EmailClientFrame_init disk = Ok w
    /\ resolve (heap w) (accounts w) = m
    /\ messages w = [] /\ email_list w = [] /\ file w = disk
    /\ match active_account w with
       | None =>
           m = [] /\ body_text w = s "Add an account from File -> Add Account..."
       | Some a =>
           exists k,
             get k (accounts w) = Some a
             /\ In (k, deref (heap w) a) m
             /\ (forall k', In k' (keys m) -> str_le k k')
             /\ body_text w = s "Use Refresh to load emails for the active account."
       end.
Proof.
  intros L. exists (initial_frame disk m). split; [now apply init_run|].
  unfold initial_frame.
  cbn [heap accounts messages email_list file active_account body_text].
  split; [apply loaded_resolve|]. do 3 (split; [reflexivity|]).
  destruct m as [|kv m'] eqn:M; [split; reflexivity|]. rewrite <- M. clear M kv m' L.
  destruct (loaded_accounts m) as [|kv d] eqn:D.
  { revert D. unfold loaded_accounts. now destruct m. }
  rewrite <- D. assert (N : loaded_accounts m <> []) by (rewrite D; discriminate).
  clear D kv d.
  destruct (first_account_some N) as (k & r & a & S & G & ->).
  exists k. split; [exact G|]. split.
  - unfold loaded_accounts in G. now destruct (@loaded_get m k a [] G).
  - split; [|reflexivity]. intros k' I. rewrite keys_loaded in S.
    now apply (sorted_first _ S).
Qed.

Lemma sound_two_accounts : sound two_accounts.
Proof.
  split; [repeat constructor; cbn; intuition discriminate|]. split.
  - intros k a. cbn [two_accounts accounts get heap].
    destruct (str_eqb k (s "work")) eqn:E1.
    + apply str_eqb_eq in E1. intros [= <-]. subst.
      repeat split; [cbn; lia|discriminate].
    + destruct (str_eqb k (s "home")) eqn:E2; [|discriminate].
      apply str_eqb_eq in E2. intros [= <-]. subst.
      repeat split; [cbn; lia|discriminate].
  - intros a [= <-]. exists (s "work"). reflexivity.
Qed.

Lemma bureau_form_valid : valid_form bureau_form 143 25.
Proof. repeat split; vm_compute; (discriminate || reflexivity). Qed.

Lemma office_form_valid : valid_form office_form 143 25.
Proof. repeat split; vm_compute; (discriminate || reflexivity). Qed.

Lemma rename_moves_key_witness :
  accounts (snd (on_edit_active_account [ClickSave bureau_form] two_accounts))
  = [(s "home", 1); (s "bureau", 0)].
Proof.
  destruct (@rename_moves_key bureau_form [] 143%Z 25%Z two_accounts 0
              sound_two_accounts eq_refl bureau_form_valid) as [A _].
  - vm_compute. discriminate.
  - vm_compute. reflexivity.
  - exact A.
Defined.

Lemma add_account_witness :
  accounts (snd (on_add_account [ClickSave office_form] two_accounts))
  = [(s "work", 0); (s "home", 1); (s "office", 2)]
  /\ active_account (snd (on_add_account [ClickSave office_form] two_accounts)) = Some 0.
Proof.
  destruct (@add_account office_form [] 143%Z 25%Z two_accounts office_form_valid)
    as (_ & _ & _ & A & _).
  destruct A as (A1 & _ & A2 & _); [vm_compute; reflexivity|].
  split; [exact A1|exact A2].
Defined.

Lemma init_activates_first_name_witness :
  exists w,
    EmailClientFrame_init (Some loose_file) = Ok w
    /\ resolve (heap w) (accounts w) = loose_loaded
    /\ active_account w = Some 1.
Proof.
  destruct (@init_activates_first_name (Some loose_file) loose_loaded) as (w & I & R & _).
  - vm_compute. reflexivity.
  - exists w. split; [exact I|]. split; [exact R|].
    assert (E : Ok w = Ok started) by (rewrite <- I; vm_compute; reflexivity).
    injection E as ->. reflexivity.
Defined.

End Operations.


(** ** The network handlers, path by path *)

Section Paths.

Lemma bind_ext {A B} (m : M A) (k k' : A -> M B) (w : world) :
  (forall a w', k a w' = k' a w') -> bind m k w = bind m k' w.
Proof. intros H. unfold bind. destruct (m w) as [[a|e] w']; [apply H|reflexivity]. Qed.

Lemma bind_cong {A B} (m m' : M A) (k : A -> M B) (w : world) :
  m w = m' w -> bind m k w = bind m' k w.
Proof. intros H. unfold bind. now rewrite H. Qed.

Lemma bind_ext2 {A B} (m m' : M A) (k k' : A -> M B) (w : world) :
  m w = m' w -> (forall a w', k a w' = k' a w') -> bind m k w = bind m' k' w.
Proof.
  intros H K. unfold bind. rewrite H.
  destruct (m' w) as [[a|e] w']; [apply K|reflexivity].
Qed.

Lemma try_except_cong {A} (m m' : M A) (h : exn -> M A) (w : world) :
  m w = m' w -> try_except m h w = try_except m' h w.
Proof. intros H. unfold try_except. now rewrite H. Qed.

(** [try: starttls() except Exception: pass]: the call is made, its outcome
    is dropped. *)
Lemma starttls_step (c : call) (r : result unit) (w : world) :
  try_except (do_call c r) (fun _ => ret tt) w = (Ok tt, log_call c w).
Proof. destruct r as [[]|e]; reflexivity. Qed.

(** The server [srv], answering STARTTLS with [r]. *)
Definition imap_with_starttls (r : result unit) (srv : ImapServer) : ImapServer :=
  mkImap (answer_connect srv) r (answer_login srv) (answer_select srv)
         (answer_search srv) (answer_fetch srv) (answer_close srv) (answer_logout srv).

Definition smtp_with_starttls (r : result unit) (srv : SmtpServer) : SmtpServer :=
  mkSmtp (reply_connect srv) r (reply_login srv) (reply_sendmail srv) (reply_quit srv).

Lemma fetch_all_starttls (lib : email_lib) (r : result unit) (srv : ImapServer)
    (ids : list bytes) (w : world) :
  fetch_all lib (imap_with_starttls r srv) ids w = fetch_all lib srv ids w.
Proof.
  revert w. induction ids as [|i ids IH]; intros w; cbn [fetch_all]; [reflexivity|].
  apply bind_ext2; [reflexivity|]. intros _ w'. apply IH.
Qed.

(** Whether STARTTLS succeeds or raises makes no difference to a refresh or
    to a send: the same calls follow with the same arguments, the login
    with the password among them, and the frame ends in the same state. *)
Theorem starttls_outcome_ignored (lib : email_lib) (w : world) (r : result unit) :
  (forall srv, on_refresh lib (imap_with_starttls r srv) w = on_refresh lib srv w)
  /\ (forall srv dlg, on_compose (smtp_with_starttls r srv) dlg w = on_compose srv dlg w).
Proof.
  split.
  - intros srv. unfold on_refresh. apply bind_ext. intros [addr|] w1; [|reflexivity].
    apply bind_ext. intros acc w2. apply try_except_cong.
    unfold refresh_body. apply bind_ext. intros _ w3. apply bind_ext2.
    { destruct (imap_port acc =? 993)%Z; [reflexivity|].
      apply bind_ext. intros _ w4. cbn [answer_starttls imap_with_starttls].
      now rewrite !starttls_step. }
    intros _ w4. do 6 (apply bind_ext2; [reflexivity|]; intros ? ?).
    match goal with |- match ?ids with _ => _ end _ = _ => destruct ids end;
      [reflexivity|].
    apply bind_ext. intros _ w5. apply bind_ext2; [apply fetch_all_starttls|].
    reflexivity.
  - intros srv dlg. unfold on_compose. apply bind_ext. intros [addr|] w1; [|reflexivity].
    apply bind_ext. intros acc w2. destruct dlg as [|to subject body]; [reflexivity|].
    cbv zeta. destruct (negb (truthy (strip to))); [reflexivity|].
    destruct (recipients_of (strip to)) as [|r0 rs]; [reflexivity|].
    apply try_except_cong. unfold send_body. cbv zeta. apply bind_cong.
    destruct (smtp_port acc =? 465)%Z; [reflexivity|].
    apply bind_ext. intros _ w4. cbn [reply_starttls smtp_with_starttls].
    now rewrite !starttls_step.
Qed.

(** What the server answers while the session is set up, up to the list of
    message ids: the exception that ends the set-up, or the ids. *)
Definition session_setup (srv : ImapServer) (acc : AccountConfig) : result (list bytes) :=
  (_ <- answer_connect srv (imap_port acc =? 993)%Z (imap_server acc) (imap_port acc) ;;
   _ <- answer_login srv (email acc) (password acc) ;;
   status <- answer_select srv (s "INBOX") ;;
   _ <- (if negb (str_eqb status OK)
         then Raise (RuntimeError (s "Could not open INBOX")) else Ok tt) ;;
   sd <- answer_search srv ;;
   _ <- (if negb (str_eqb (fst sd) OK)
         then Raise (RuntimeError (s "Search failed")) else Ok tt) ;;
   search_ids (snd sd))%py.

Definition loading_text : str := s "Loading emails from server..." ++ [LF].

(** A refresh that fails while the session is set up (the connection, the
    login, SELECT or SEARCH) keeps the messages and the rows that were
    there, shows one error box, and leaves the loading notice in the body
    viewer.  A refresh that finds the inbox empty empties the list and says
    so, and shows no box when CLOSE and LOGOUT are answered. *)
Theorem refresh_outcome (lib : email_lib) (srv : ImapServer) (w : world) (addr : nat) :
  active_account w = Some addr ->
  let acc := deref (heap w) addr in
  let w' := snd (on_refresh lib srv w) in
  (forall e, session_setup srv acc = Raise e ->
     messages w' = messages w /\ email_list w' = email_list w
     /\ body_text w' = loading_text
     /\ exists b, boxes w' = boxes w ++ [b]
                  /\ box_title b = match e with
                                   | IMAP4_error _ => s "IMAP Error"
                                   | _ => s "Error"
                                   end)
  /\ (session_setup srv acc = Ok [] ->
      messages w' = [] /\ email_list w' = []
      /\ body_text w' = s "INBOX is empty."
      /\ (answer_close srv = Ok tt -> answer_logout srv = Ok tt -> boxes w' = boxes w)).
Proof.
  intros Act acc w'. subst w'.
  remember (on_refresh lib srv w) as r eqn:R.
  unfold on_refresh, bind at 1, read at 1 in R. rewrite Act in R.
  unfold bind at 1, read at 1 in R. fold acc in R.
  unfold try_except, refresh_body in R. unfold bind at 1, modify at 1 in R.
  unfold session_setup.
  set (w1 := set_body_text (s "Loading emails from server..." ++ [LF]) w) in R.
  assert (C : forall k : unit -> M unit,
             bind (if (imap_port acc =? 993)%Z then
                     do_call (IMAP4_SSL (imap_server acc) (imap_port acc))
                             (answer_connect srv true (imap_server acc) (imap_port acc))
                   else
                     bind (do_call (IMAP4 (imap_server acc) (imap_port acc))
                             (answer_connect srv false (imap_server acc) (imap_port acc)))
                          (fun _ => try_except (do_call imap_starttls (answer_starttls srv))
                                               (fun _ => ret tt))) k w1
             = match answer_connect srv (imap_port acc =? 993)%Z
                       (imap_server acc) (imap_port acc) with
               | Raise e =>
                   (Raise e,
                    log_call (if (imap_port acc =? 993)%Z
                              then IMAP4_SSL (imap_server acc) (imap_port acc)
                              else IMAP4 (imap_server acc) (imap_port acc)) w1)
               | Ok _ =>
                   k tt (if (imap_port acc =? 993)%Z
                         then log_call (IMAP4_SSL (imap_server acc) (imap_port acc)) w1
                         else log_call imap_starttls
                                (log_call (IMAP4 (imap_server acc) (imap_port acc)) w1))
               end).
  { intros k. destruct (imap_port acc =? 993)%Z.
    - unfold bind, do_call, bind, modify, lift.
      destruct (answer_connect srv true _ _) as [[]|e]; reflexivity.
    - unfold bind at 1 2. unfold do_call at 1. unfold bind, modify, lift.
      destruct (answer_connect srv false _ _) as [[]|e]; [|reflexivity].
      now rewrite starttls_step. }
  rewrite C in R. clear C.
  assert (V1 : messages w1 = messages w /\ email_list w1 = email_list w
               /\ body_text w1 = loading_text /\ boxes w1 = boxes w)
    by (subst w1; repeat split).
  destruct V1 as (Vm1 & Ve1 & Vb1 & Vx1).
  destruct (answer_connect srv (imap_port acc =? 993)%Z (imap_server acc) (imap_port acc))
    as [[]|e0]; cbn [rbind].
  2:{ split; [|discriminate]. intros e [= <-]. subst r.
      destruct e0; unfold MessageBox, modify; cbn [fst snd]; frame_field;
        rewrite ?Vm1, ?Ve1, ?Vb1, ?Vx1;
        repeat (split; [reflexivity|]); eexists; split; reflexivity. }
  set (w2 := if (imap_port acc =? 993)%Z then _ else _) in R.
  assert (V : messages w2 = messages w /\ email_list w2 = email_list w
              /\ body_text w2 = loading_text /\ boxes w2 = boxes w).
  { subst w2. destruct (imap_port acc =? 993)%Z; frame_field; auto. }
  destruct V as (Vm & Ve & Vb & Vx). clearbody w2. clear w1 Vm1 Ve1 Vb1 Vx1.
  unfold bind, do_call, bind, modify, lift, ret, raise, clear_messages, bind, modify in R.
  destruct (answer_login srv (email acc) (password acc)) as [[]|e0]; cbn [rbind fst snd] in *.
  2:{ split; [|discriminate]. intros e [= <-]. subst r.
      destruct e0; unfold MessageBox, modify; cbn [fst snd]; frame_field;
        rewrite ?Vm, ?Ve, ?Vb, ?Vx;
        repeat (split; [reflexivity|]); eexists; split; reflexivity. }
  destruct (answer_select srv (s "INBOX")) as [status|e0]; cbn [rbind fst snd] in *.
  2:{ split; [|discriminate]. intros e [= <-]. subst r.
      destruct e0; unfold MessageBox, modify; cbn [fst snd]; frame_field;
        rewrite ?Vm, ?Ve, ?Vb, ?Vx;
        repeat (split; [reflexivity|]); eexists; split; reflexivity. }
  destruct (negb (str_eqb status OK)); cbn [rbind fst snd] in *.
  { split; [|discriminate]. intros e [= <-]. subst r.
    unfold MessageBox, modify; cbn [fst snd]; frame_field;
      rewrite ?Vm, ?Ve, ?Vb, ?Vx;
      repeat (split; [reflexivity|]); eexists; split; reflexivity. }
  destruct (answer_search srv) as [[st data]|e0]; cbn [rbind fst snd] in *.
  2:{ split; [|discriminate]. intros e [= <-]. subst r.
      destruct e0; unfold MessageBox, modify; cbn [fst snd]; frame_field;
        rewrite ?Vm, ?Ve, ?Vb, ?Vx;
        repeat (split; [reflexivity|]); eexists; split; reflexivity. }
  destruct (negb (str_eqb st OK)); cbn [rbind fst snd] in *.
  { split; [|discriminate]. intros e [= <-]. subst r.
    unfold MessageBox, modify; cbn [fst snd]; frame_field;
      rewrite ?Vm, ?Ve, ?Vb, ?Vx;
      repeat (split; [reflexivity|]); eexists; split; reflexivity. }
  destruct (search_ids data) as [ids|e0]; cbn [rbind fst snd] in *.
  2:{ split; [|discriminate]. intros e [= <-]. subst r.
      destruct e0; unfold MessageBox, modify; cbn [fst snd]; frame_field;
        rewrite ?Vm, ?Ve, ?Vb, ?Vx;
        repeat (split; [reflexivity|]); eexists; split; reflexivity. }
  split; [discriminate|]. intros [= ->]. cbv iota beta in R.
  destruct (answer_close srv) as [[]|e1]; cbn [fst snd] in R.
  - destruct (answer_logout srv) as [[]|e2]; cbn [fst snd] in R; subst r.
    + cbn [fst snd]. frame_field. repeat (split; [reflexivity|]). intros _ _. exact Vx.
    + destruct e2; unfold MessageBox, modify; cbn [fst snd]; frame_field;
        repeat (split; [reflexivity|]); discriminate.
  - subst r. destruct e1; unfold MessageBox, modify; cbn [fst snd]; frame_field;
      repeat (split; [reflexivity|]); discriminate.
Qed.

(** The text handed to [sendmail]. *)
Definition message_text (acc : AccountConfig) (recipients : list str)
    (subject body : str) : str :=
  join CRLF [ s "From: " ++ email acc;
              s "To: " ++ join (s ", ") recipients;
              s "Subject: " ++ subject;
              [];
              body ].

(** What the server answers up to the hand-over of the message. *)
Definition smtp_delivery (srv : SmtpServer) (acc : AccountConfig)
    (recipients : list str) (msg : str) : result unit :=
  (_ <- reply_connect srv (smtp_port acc =? 465)%Z (smtp_server acc) (smtp_port acc) ;;
   _ <- reply_login srv (email acc) (password acc) ;;
   reply_sendmail srv (email acc) recipients msg)%py.

Definition sent_box : box := mkBox (s "Email sent successfully.") (s "Compose").

Definition smtp_error_box (e : exn) : box :=
  mkBox (s "SMTP error:" ++ [LF] ++ exn_text e) (s "SMTP Error").

(** A send with recipients shows exactly one box.  When the connection, the
    login or the hand-over raises, it is the error box and QUIT is never
    sent.  When the message is handed over, QUIT follows; the success box
    is shown if QUIT is answered, and the error box if QUIT raises,
    although the message has been accepted. *)
Theorem compose_outcome (srv : SmtpServer) (w : world) (addr : nat)
    (to subject body : str) :
  active_account w = Some addr ->
  recipients_of (strip to) <> [] ->
  let acc := deref (heap w) addr in
  let recipients := recipients_of (strip to) in
  let msg := message_text acc recipients subject body in
  let w' := snd (on_compose srv (ComposeSend to subject body) w) in
  exists cs,
    net_log w' = net_log w ++ cs
    /\ (forall e, smtp_delivery srv acc recipients msg = Raise e ->
          ~ In smtp_quit cs /\ boxes w' = boxes w ++ [smtp_error_box e])
    /\ (smtp_delivery srv acc recipients msg = Ok tt ->
          In (smtp_sendmail (email acc) recipients msg) cs
          /\ In smtp_quit cs
          /\ boxes w'
             = boxes w ++ [match reply_quit srv with
                           | Ok _ => sent_box
                           | Raise e => smtp_error_box e
                           end]).
Proof.
  intros Act N. cbv zeta.
  remember (on_compose srv (ComposeSend to subject body) w) as r eqn:R.
  assert (R' : r = try_except (send_body srv (deref (heap w) addr)
                                 (recipients_of (strip to)) subject body)
                     (fun e => MessageBox (s "SMTP error:" ++ [LF] ++ exn_text e)
                                          (s "SMTP Error")) w).
  { rewrite R. unfold on_compose, bind at 1, read at 1. rewrite Act.
    unfold bind at 1, read at 1. cbv zeta.
    assert (T : truthy (strip to) = true).
    { destruct (strip to) eqn:E; [now elim N|reflexivity]. }
    rewrite T. cbn [negb].
    destruct (recipients_of (strip to)); [now elim N|reflexivity]. }
  clear R N. rename R' into R.
  set (acc := deref (heap w) addr) in *.
  set (recipients := recipients_of (strip to)) in *.
  unfold send_body, try_except in R. cbv zeta in R.
  fold (message_text acc recipients subject body) in R.
  set (msg := message_text acc recipients subject body) in *.
  unfold smtp_delivery.
  assert (C : forall k : unit -> M unit,
             bind (if (smtp_port acc =? 465)%Z then
                     do_call (SMTP_SSL (smtp_server acc) (smtp_port acc))
                             (reply_connect srv true (smtp_server acc) (smtp_port acc))
                   else
                     bind (do_call (SMTP (smtp_server acc) (smtp_port acc))
                             (reply_connect srv false (smtp_server acc) (smtp_port acc)))
                          (fun _ => try_except (do_call smtp_starttls (reply_starttls srv))
                                               (fun _ => ret tt))) k w
             = match reply_connect srv (smtp_port acc =? 465)%Z
                       (smtp_server acc) (smtp_port acc) with
               | Raise e =>
                   (Raise e,
                    log_call (if (smtp_port acc =? 465)%Z
                              then SMTP_SSL (smtp_server acc) (smtp_port acc)
                              else SMTP (smtp_server acc) (smtp_port acc)) w)
               | Ok _ =>
                   k tt (if (smtp_port acc =? 465)%Z
                         then log_call (SMTP_SSL (smtp_server acc) (smtp_port acc)) w
                         else log_call smtp_starttls
                                (log_call (SMTP (smtp_server acc) (smtp_port acc)) w))
               end).
  { intros k. destruct (smtp_port acc =? 465)%Z.
    - unfold bind, do_call, bind, modify, lift.
      destruct (reply_connect srv true _ _) as [[]|e]; reflexivity.
    - unfold bind at 1 2. unfold do_call at 1. unfold bind, modify, lift.
      destruct (reply_connect srv false _ _) as [[]|e]; [|reflexivity].
      now rewrite starttls_step. }
  rewrite C in R. clear C.
  destruct (reply_connect srv (smtp_port acc =? 465)%Z (smtp_server acc) (smtp_port acc))
    as [[]|e0]; cbn [rbind].
  2:{ subst r. unfold MessageBox, modify. cbn [fst snd]. frame_field.
      eexists. split; [reflexivity|]. split; [|discriminate].
      intros e [= <-]. split; [|reflexivity].
      destruct (smtp_port acc =? 465)%Z; intros [H|[]]; discriminate H. }
  set (w2 := if (smtp_port acc =? 465)%Z then _ else _) in R.
  assert (V : boxes w2 = boxes w
              /\ exists c0, net_log w2 = net_log w ++ c0 /\ ~ In smtp_quit c0).
  { subst w2. destruct (smtp_port acc =? 465)%Z; frame_field;
      (split; [reflexivity|]); eexists; (split; [try rewrite <- app_assoc; reflexivity|]);
      cbn [app In]; intuition discriminate. }
  destruct V as (Vx & c0 & Vn & Vq). clearbody w2.
  unfold bind, do_call, bind, modify, lift, ret, MessageBox, modify in R.
  destruct (reply_login srv (email acc) (password acc)) as [[]|e0]; cbn [rbind fst snd] in *.
  2:{ subst r. cbn [fst snd]. frame_field. rewrite Vx, Vn.
      eexists. split; [rewrite <- app_assoc; reflexivity|]. split; [|discriminate].
      intros e [= <-]. split; [|reflexivity].
      rewrite in_app_iff. cbn [In]. intuition discriminate. }
  destruct (reply_sendmail srv (email acc) recipients msg) as [[]|e0];
    cbn [rbind fst snd] in *.
  2:{ subst r. cbn [fst snd]. frame_field. rewrite Vx, Vn.
      eexists. split; [rewrite <- !app_assoc; reflexivity|]. split; [|discriminate].
      intros e [= <-]. split; [|reflexivity].
      rewrite !in_app_iff. cbn [In]. intuition discriminate. }
  destruct (reply_quit srv) as [[]|e1]; cbn [fst snd] in R; subst r;
    cbn [fst snd]; frame_field; rewrite Vx, Vn;
    (eexists; split; [rewrite <- !app_assoc; reflexivity|]);
    (split; [discriminate|]); intros _;
    rewrite !in_app_iff; cbn [In]; auto 10.
Qed.

Lemma refresh_outcome_witness :
  messages (snd (on_refresh plain_lib login_rejected two_accounts)) = []
  /\ body_text (snd (on_refresh plain_lib login_rejected two_accounts)) = loading_text.
Proof.
  destruct (@refresh_outcome plain_lib login_rejected two_accounts 0 eq_refl) as [F _].
  destruct (F (IMAP4_error (s "LOGIN failed"))) as (M & _ & B & _).
  - vm_compute. reflexivity.
  - split; [exact M|exact B].
Defined.

Lemma compose_outcome_witness :
  exists cs,
    net_log (snd (on_compose accepting_smtp (ComposeSend (s "a@x.com") [] []) two_accounts))
    = cs
    /\ In smtp_quit cs
    /\ boxes (snd (on_compose accepting_smtp (ComposeSend (s "a@x.com") [] []) two_accounts))
       = [sent_box].
Proof.
  destruct (@compose_outcome accepting_smtp two_accounts 0 (s "a@x.com") [] [] eq_refl)
    as (cs & L & _ & S).
  - vm_compute. discriminate.
  - destruct S as (_ & Q & B); [vm_compute; reflexivity|].
    exists cs. split; [exact L|]. split; [exact Q|exact B].
Defined.

End Paths.


(** ** The account as a dictionary *)

Section AccountDict.

(** [from_dict] undoes [to_dict]: every account, whatever its fields and
    ports, is rebuilt from its dictionary; the ports are written in decimal
    and read back by [int]. *)
Theorem account_dict_round_trip (a : AccountConfig) :
  from_dict (to_dict a) = Ok a
  /\ keys (to_dict a)
     = [s "name"; s "email"; s "password"; s "imap_server"; s "imap_port";
        s "smtp_server"; s "smtp_port"]
  /\ py_int (py_str (imap_port a)) = Ok (imap_port a)
  /\ py_int (py_str (smtp_port a)) = Ok (smtp_port a).
Proof.
  split; [apply from_dict_to_dict|]. split; [reflexivity|].
  split; apply py_int_py_str.
Qed.

End AccountDict.


(** ** Renaming the active account to a name that is taken *)

Section RenameRejected.





























End RenameRejected.




(** ** Deleting the active account of a store that renames it *)

(** A store file whose only block is headed [b] and assigns the key [name],
    and the same file without that line. *)
Definition shadowed_file : str :=
  s "[account b]" ++ [LF] ++ s "name=other" ++ [LF] ++ s "email=x@y" ++ [LF].

Definition unshadowed_file : str :=
  s "[account b]" ++ [LF] ++ s "email=x@y" ++ [LF].

(** The frame after start-up on a store with the one account [acc] under
    the key [b], and after the inbox has been read. *)
Definition started_on (disk : str) (acc : AccountConfig) : world :=
  mkWorld [acc] [(s "b", 0)] (Some 0) [] [] (s "(select email)") (s "-") (s "-")
          (start_msg (Some 0)) (Some disk) [] [].

Definition read_on (disk : str) (acc : AccountConfig) : world :=
  snd (on_refresh plain_lib good_imap (started_on disk acc)).

Definition b_named_other : AccountConfig :=
  mkAccount (s "other") (s "x@y") [] [] 993 [] 587.

Definition b_named_b : AccountConfig :=
  mkAccount (s "b") (s "x@y") [] [] 993 [] 587.

(** C9, at the failing input.  The store binds the key [b] to an account
    whose name a [name=] line has set to [other]; start-up makes it the
    active account and a refresh lists two messages.  Deleting [b] removes
    the only account and writes the empty store, yet the deleted account
    stays the active one and the two messages stay listed: the handler
    compares the active account's name with the key.  On the same store
    without the [name=] line the same deletion leaves no active account and
    no message. *)
Theorem delete_active_keeps_pointer :
  EmailClientFrame_init (Some shadowed_file)
  = Ok (started_on shadowed_file b_named_other)
  /\ map entry_id (messages (read_on shadowed_file b_named_other))
     = [bytes_of "2"; bytes_of "1"]
  /\ (let r := on_delete_account (Some (s "b")) (read_on shadowed_file b_named_other) in
      fst r = Ok tt
      /\ accounts (snd r) = []
      /\ file (snd r) = Some []
      /\ active_account (snd r) = Some 0
      /\ map entry_id (messages (snd r)) = [bytes_of "2"; bytes_of "1"]
      /\ length (email_list (snd r)) = 2)
  /\ EmailClientFrame_init (Some unshadowed_file)
     = Ok (started_on unshadowed_file b_named_b)
  /\ (let r := on_delete_account (Some (s "b")) (read_on unshadowed_file b_named_b) in
      fst r = Ok tt
      /\ accounts (snd r) = []
      /\ active_account (snd r) = None
      /\ messages (snd r) = []
      /\ email_list (snd r) = []).
Proof. repeat split; vm_compute; reflexivity. Qed.
